(** * tcp-cl-proxy: the admission gate and the session lifecycle

    A shallow embedding of the concurrency-limiting TCP proxy.  The
    repository holds two variants of the session code:

    - [Closures]: [main.go], where [proxy] registers deferred calls and
      the gate is the pair of functions [pre] / [post];
    - [Struct]: the [client] struct with the methods [setup], [doProxy],
      [copyAll], [copyTo], [copyFrom], [teardown] and [mind].

    Goroutines are modelled by program counters, one per statement of the
    source that touches shared state or can block; the scheduler and the
    network are an interleaving step function over explicit actions.
    [sync.Mutex], [sync.Cond], [sync.WaitGroup], unbuffered channels,
    [net.Dial], [io.Copy] and [net.Conn.Close] are modelled by their
    documented Go contracts.

    Left out: the bytes that are copied, the wall-clock values of the
    timestamps (only the fact that [doneAt] / [c.done] has been recorded
    is kept), flag parsing, and the fatal exits of the two accept
    loops. *)

From Stdlib Require Import ZArith String Ascii List Lia.
From Stdlib Require Import DecimalString DecimalZ DecimalPos.
From stdpp Require Import base tactics option list numbers.

Open Scope Z_scope.

(** ** Machine integers *)

(** Go's [int] on the 64-bit targets: two's complement wrap-around. *)
Definition wrap_int (z : Z) : Z := (z + 2 ^ 63) mod 2 ^ 64 - 2 ^ 63.

(** Go's [uint64] (the session sequence number [count]). *)
Definition wrap_uint64 (z : Z) : Z := z mod 2 ^ 64.

(** ** Data *)

(** The two source variants. *)
Inductive variant := Closures | Struct.

(** Program counter of a session goroutine.  The [Acq*] points are the
    body of [pre] / [setup], the [Rel*] points the body of [post] and the
    tail of [teardown]. *)
Inductive pc :=
| Start              (* proxy: defers registered / setup: c.w.Add(2) *)
| AcqLock            (* wCond.L.Lock() *)
| AcqCount           (* setup only: count++; c.ID = count *)
| AcqIncWaiting      (* waiting++ *)
| AcqTest            (* for active == concurrency *)
| AcqParked          (* inside wCond.Wait(): parked, mutex released *)
| AcqWoken           (* inside wCond.Wait(): signalled, re-locking *)
| AcqDecWaiting      (* (setup: c.waited = now) waiting-- *)
| AcqIncActive       (* active++ *)
| AcqUnlock          (* deferred wCond.L.Unlock() *)
| Dial               (* net.Dial("tcp", proxyTo) *)
| LogError           (* doProxy: c.logError() *)
| WgAdd              (* proxy: w.Add(2) *)
| SpawnTo            (* go client->server copy *)
| SpawnFrom          (* go server->client copy *)
| WaitPump           (* proxy: w.Wait() / copyAll: <-done *)
| RecordDone         (* doneAt = time.Now() / c.done = time.Now() *)
| LogSuccess         (* doProxy: c.logSuccess() *)
| TdLogStart         (* teardown: log.Println("Teardown start") *)
| TdCloseConn        (* teardown: c.conn.Close() *)
| TdCloseServer      (* teardown: c.server.Close() *)
| TdLogClosed        (* teardown: log.Println("Proxy connection closed") *)
| DeferCloseServer   (* proxy: deferred p.Close() *)
| RelLock            (* wCond.L.Lock() *)
| RelDecActive       (* active-- *)
| RelUnlock          (* wCond.L.Unlock() *)
| RelSignal          (* wCond.Signal() *)
| DeferCloseConn     (* proxy: deferred c.Close() *)
| DeferLog           (* proxy: deferred logging closure *)
| Done.

(** Program counter of one of the two copy goroutines of a session. *)
Inductive cpc :=
| CNotStarted
| CCopying           (* inside io.Copy *)
| CWgDone            (* io.Copy returned; about to call w.Done() *)
| CSend              (* copyTo/copyFrom: done <- true *)
| CExited.

(** A [net.Conn] interface value: nil, an open connection, or a
    connection on which [Close] was already called. *)
Inductive sock := SockNil | SockOpen | SockClosed.

(** The per-session data: the fields of [client], which are the local
    variables of [proxy] in the [Closures] variant. *)
Record client := mkClient {
  c_pc : pc;
  c_ID : Z;
  c_didWait : bool;
  c_conn : sock;
  c_server : sock;
  c_err : option string;
  c_w : Z;
  c_to : cpc;
  c_from : cpc;
  c_done : bool
}.

Inductive logline :=
| LSuccess
| LError (msg : string)
| LTeardownStart
| LProxyClosed.

(** Observable events.  [EvAcquire] and [EvRelease] mark the statements
    [active++] and [active--]; the others are the calls to [log] and to
    [Close]. *)
Inductive event :=
| EvAcquire (t : nat)
| EvRelease (t : nat)
| EvLog (t : nat) (l : logline)
| EvCloseConn (t : nat)
| EvCloseServer (t : nat).

(** A connection accepted by the stats listener and its handler.  The
    call [fmt.Fprintf(c, "...", active, waiting)] first evaluates its
    operands: each is a load of a package-level variable, without the
    lock.  The two loads are separate steps, and Go does not say which
    comes first. *)
Inductive operand := OpActive | OpWaiting.

Inductive spc :=
| SEval              (* the operands [active] and [waiting] are loaded *)
| SFprintf           (* fmt.Fprintf writes the line *)
| SClose             (* deferred c.Close() *)
| SDone.

Inductive io_event :=
| IoRead
| IoWrite (bytes : string)
| IoClose.

Record stats_conn := mkStats {
  st_pc : spc;
  st_active : option Z;      (* the operand [active], once loaded *)
  st_waiting : option Z;     (* the operand [waiting], once loaded *)
  st_io : list io_event
}.

(** The process: the package-level variables, the goroutines and the
    events so far.  [wCond_L] is the mutex of [wCond]; the goroutine that
    locked it is kept for the statements of the theorems, the code never
    reads it. *)
Record state := mkState {
  active : Z;
  waiting : Z;
  count : Z;
  wCond_L : option nat;
  clients : list client;
  stats_conns : list stats_conn;
  trace : list event;
  crashed : bool
}.

(** What the scheduler and the network decide at a step of a session:
    the result of [net.Dial] ([None] is a connection, [Some msg] an
    error) and the goroutine that [Signal] wakes. *)
Record env := mkEnv {
  dial : option string;
  wake : nat
}.

Inductive dir := ToServer | FromServer.

Inductive action :=
| Accept                      (* server: go proxy(conn) / go handleClient(conn) *)
| Run (t : nat) (e : env)     (* the session goroutine [t] runs one statement *)
| Copier (t : nat) (d : dir)  (* a copy goroutine of [t] runs one statement *)
| AcceptStats                 (* stats: go func(c net.Conn) {...}(conn) *)
| RunStats (i : nat) (o : operand).
                              (* the stats handler [i] runs one step; at a
                                 load, of the operand [o] *)

(** ** State updates *)

Definition set_pc (p : pc) (c : client) : client :=
  mkClient p (c_ID c) (c_didWait c) (c_conn c) (c_server c) (c_err c)
           (c_w c) (c_to c) (c_from c) (c_done c).
Definition set_ID (z : Z) (c : client) : client :=
  mkClient (c_pc c) z (c_didWait c) (c_conn c) (c_server c) (c_err c)
           (c_w c) (c_to c) (c_from c) (c_done c).
Definition set_didWait (b : bool) (c : client) : client :=
  mkClient (c_pc c) (c_ID c) b (c_conn c) (c_server c) (c_err c)
           (c_w c) (c_to c) (c_from c) (c_done c).
Definition set_conn (k : sock) (c : client) : client :=
  mkClient (c_pc c) (c_ID c) (c_didWait c) k (c_server c) (c_err c)
           (c_w c) (c_to c) (c_from c) (c_done c).
Definition set_server (k : sock) (c : client) : client :=
  mkClient (c_pc c) (c_ID c) (c_didWait c) (c_conn c) k (c_err c)
           (c_w c) (c_to c) (c_from c) (c_done c).
Definition set_err (e : option string) (c : client) : client :=
  mkClient (c_pc c) (c_ID c) (c_didWait c) (c_conn c) (c_server c) e
           (c_w c) (c_to c) (c_from c) (c_done c).
Definition set_w (z : Z) (c : client) : client :=
  mkClient (c_pc c) (c_ID c) (c_didWait c) (c_conn c) (c_server c) (c_err c)
           z (c_to c) (c_from c) (c_done c).
Definition set_to (k : cpc) (c : client) : client :=
  mkClient (c_pc c) (c_ID c) (c_didWait c) (c_conn c) (c_server c) (c_err c)
           (c_w c) k (c_from c) (c_done c).
Definition set_from (k : cpc) (c : client) : client :=
  mkClient (c_pc c) (c_ID c) (c_didWait c) (c_conn c) (c_server c) (c_err c)
           (c_w c) (c_to c) k (c_done c).
Definition set_done (b : bool) (c : client) : client :=
  mkClient (c_pc c) (c_ID c) (c_didWait c) (c_conn c) (c_server c) (c_err c)
           (c_w c) (c_to c) (c_from c) b.

Definition set_active (z : Z) (s : state) : state :=
  mkState z (waiting s) (count s) (wCond_L s) (clients s) (stats_conns s)
          (trace s) (crashed s).
Definition set_waiting (z : Z) (s : state) : state :=
  mkState (active s) z (count s) (wCond_L s) (clients s) (stats_conns s)
          (trace s) (crashed s).
Definition set_count (z : Z) (s : state) : state :=
  mkState (active s) (waiting s) z (wCond_L s) (clients s) (stats_conns s)
          (trace s) (crashed s).
Definition set_lock (o : option nat) (s : state) : state :=
  mkState (active s) (waiting s) (count s) o (clients s) (stats_conns s)
          (trace s) (crashed s).
Definition set_clients (l : list client) (s : state) : state :=
  mkState (active s) (waiting s) (count s) (wCond_L s) l (stats_conns s)
          (trace s) (crashed s).
Definition set_stats (l : list stats_conn) (s : state) : state :=
  mkState (active s) (waiting s) (count s) (wCond_L s) (clients s) l
          (trace s) (crashed s).
Definition emit (ev : event) (s : state) : state :=
  mkState (active s) (waiting s) (count s) (wCond_L s) (clients s)
          (stats_conns s) (trace s ++ [ev]) (crashed s).

(** An unrecovered panic (or a fatal runtime error) in any goroutine ends
    the process. *)
Definition panic (s : state) : state :=
  mkState (active s) (waiting s) (count s) (wCond_L s) (clients s)
          (stats_conns s) (trace s) true.

(** Store the record of session [t]. *)
Definition upd (t : nat) (c : client) (s : state) : state :=
  set_clients (<[t := c]> (clients s)) s.

(** Session [t] moves to [p]. *)
Definition goto (t : nat) (p : pc) (c : client) (s : state) : state :=
  upd t (set_pc p c) s.

(** A freshly accepted connection: [conn] is open, everything else is the
    zero value of its type. *)
Definition new_client : client :=
  mkClient Start 0 false SockOpen SockNil None 0 CNotStarted CNotStarted false.

Definition new_stats : stats_conn := mkStats SEval None None [].

Definition init : state := mkState 0 0 0 None [] [] [] false.

(** ** The synchronisation primitives *)

(** [sync.Mutex.Lock] by goroutine [t]: enabled only while the mutex is
    free. *)
Definition mutex_lock (t : nat) (s : state) : option state :=
  match wCond_L s with
  | None => Some (set_lock (Some t) s)
  | Some _ => None
  end.

(** [sync.Mutex.Unlock]: unlocking an unlocked mutex is a fatal error. *)
Definition mutex_unlock (s : state) : state :=
  match wCond_L s with
  | Some _ => set_lock None s
  | None => panic s
  end.

Definition is_parked (c : client) : bool :=
  match c_pc c with AcqParked => true | _ => false end.

(** [sync.Cond.Signal]: wakes one goroutine waiting on the condition, if
    there is any.  Which one is the choice [w] of the scheduler. *)
Definition cond_signal (w : nat) (s : state) : option state :=
  if existsb is_parked (clients s) then
    match clients s !! w with
    | Some c => if is_parked c then Some (goto w AcqWoken c s) else None
    | None => None
    end
  else Some s.

(** [net.Conn.Close]: a method call on a nil interface value panics;
    closing a closed connection returns an error, which the callers
    drop. *)
Definition close_sock (k : sock) : option sock :=
  match k with
  | SockNil => None
  | SockOpen => Some SockClosed
  | SockClosed => Some SockClosed
  end.

(** [sync.WaitGroup.Done]: the counter goes down by one; a negative
    counter panics. *)
Definition wg_done (c : client) : option client :=
  if c_w c - 1 <? 0 then None else Some (set_w (c_w c - 1) c).

Definition get_cp (d : dir) (c : client) : cpc :=
  match d with ToServer => c_to c | FromServer => c_from c end.

Definition set_cp (d : dir) (k : cpc) (c : client) : client :=
  match d with ToServer => set_to k c | FromServer => set_from k c end.

(** ** Formatting *)

Definition LF : ascii := ascii_of_nat 10.

(** [%d] of an [int]. *)
Definition fmt_d (z : Z) : string := NilZero.string_of_int (Z.to_int z).

(** [fmt.Sprintf] for format strings whose only verb is [%d], applied to
    [int] operands.  A verb without operand prints [%!d(MISSING)]. *)
Fixpoint sprintf (fmt : string) (args : list Z) : string :=
  match fmt with
  | EmptyString => EmptyString
  | String a rest =>
      if Ascii.eqb a "%" then
        match rest with
        | String b rest' =>
            if Ascii.eqb b "d" then
              match args with
              | z :: args' => (fmt_d z ++ sprintf rest' args')%string
              | [] => ("%!d(MISSING)" ++ sprintf rest' [])%string
              end
            else String a (String b (sprintf rest' args))
        | EmptyString => String a EmptyString
        end
      else String a (sprintf rest args)
  end.

(** The format string of [stats]: ["active: %d, waiting: %d\n"]. *)
Definition stats_format : string :=
  ("active: %d, waiting: %d" ++ String LF EmptyString)%string.

Section Program.

(** The flag [-c]. *)
Variable concurrency : Z.

(** ** main.go *)

(** [pre]: lock, [waiting++], wait while [active == concurrency],
    [waiting--], [active++], unlock (deferred). *)
Definition pre (t : nat) (c : client) (s : state) : option state :=
  match c_pc c with
  | AcqLock =>
      match mutex_lock t s with
      | Some s1 => Some (goto t AcqIncWaiting c s1)
      | None => None
      end
  | AcqIncWaiting =>
      Some (goto t AcqTest c (set_waiting (wrap_int (waiting s + 1)) s))
  | AcqTest =>
      if active s =? concurrency
      then Some (goto t AcqParked c (mutex_unlock s))
      else Some (goto t AcqDecWaiting c s)
  | AcqWoken =>
      match mutex_lock t s with
      | Some s1 => Some (goto t AcqTest c s1)
      | None => None
      end
  | AcqDecWaiting =>
      Some (goto t AcqIncActive c (set_waiting (wrap_int (waiting s - 1)) s))
  | AcqIncActive =>
      Some (goto t AcqUnlock c
              (emit (EvAcquire t) (set_active (wrap_int (active s + 1)) s)))
  | AcqUnlock => Some (goto t Dial c (mutex_unlock s))
  | _ => None
  end.

(** [post]: lock, [active--], unlock, signal. *)
Definition post (t : nat) (e : env) (c : client) (s : state) : option state :=
  match c_pc c with
  | RelLock =>
      match mutex_lock t s with
      | Some s1 => Some (goto t RelDecActive c s1)
      | None => None
      end
  | RelDecActive =>
      Some (goto t RelUnlock c
              (emit (EvRelease t) (set_active (wrap_int (active s - 1)) s)))
  | RelUnlock => Some (goto t RelSignal c (mutex_unlock s))
  | RelSignal =>
      match cond_signal (wake e) s with
      | Some s1 => Some (goto t DeferCloseConn c s1)
      | None => None
      end
  | _ => None
  end.

(** [proxy].  The deferred calls run in LIFO order at the return: after a
    failed dial they are [post], [c.Close], the logging closure; after
    the pump they are [p.Close], [post], [c.Close], the logging
    closure. *)
Definition proxy (t : nat) (e : env) (c : client) (s : state) : option state :=
  match c_pc c with
  | Start => Some (goto t AcqLock c s)
  | AcqLock | AcqIncWaiting | AcqTest | AcqWoken
  | AcqDecWaiting | AcqIncActive | AcqUnlock => pre t c s
  | Dial =>
      match dial e with
      | None => Some (goto t WgAdd (set_server SockOpen c) s)
      | Some msg => Some (goto t RelLock (set_err (Some msg) c) s)
      end
  | WgAdd => Some (goto t SpawnTo (set_w (c_w c + 2) c) s)
  | SpawnTo => Some (goto t SpawnFrom (set_to CCopying c) s)
  | SpawnFrom => Some (goto t WaitPump (set_from CCopying c) s)
  | WaitPump => if c_w c =? 0 then Some (goto t RecordDone c s) else None
  | RecordDone => Some (goto t DeferCloseServer (set_done true c) s)
  | DeferCloseServer =>
      match close_sock (c_server c) with
      | Some k => Some (goto t RelLock (set_server k c) (emit (EvCloseServer t) s))
      | None => Some (panic s)
      end
  | RelLock | RelDecActive | RelUnlock | RelSignal => post t e c s
  | DeferCloseConn =>
      match close_sock (c_conn c) with
      | Some k => Some (goto t DeferLog (set_conn k c) (emit (EvCloseConn t) s))
      | None => Some (panic s)
      end
  | DeferLog =>
      Some (goto t Done c
              (emit (EvLog t (match c_err c with
                              | None => LSuccess
                              | Some msg => LError msg
                              end)) s))
  | _ => None
  end.

(** The two goroutines of [proxy]: [io.Copy] then [w.Done()].  When
    [io.Copy] returns is the network's choice. *)
Definition copy_closure (t : nat) (d : dir) (c : client) (s : state) : option state :=
  match get_cp d c with
  | CCopying => Some (upd t (set_cp d CWgDone c) s)
  | CWgDone =>
      match wg_done c with
      | Some c1 => Some (upd t (set_cp d CExited c1) s)
      | None => Some (panic s)
      end
  | _ => None
  end.

(** ** The [client] struct *)

(** [client.setup]. *)
Definition setup (t : nat) (c : client) (s : state) : option state :=
  match c_pc c with
  | Start => Some (goto t AcqLock (set_w (c_w c + 2) c) s)
  | AcqLock =>
      match mutex_lock t s with
      | Some s1 => Some (goto t AcqCount c s1)
      | None => None
      end
  | AcqCount =>
      let n := wrap_uint64 (count s + 1) in
      Some (goto t AcqIncWaiting (set_ID n c) (set_count n s))
  | AcqIncWaiting =>
      Some (goto t AcqTest c (set_waiting (wrap_int (waiting s + 1)) s))
  | AcqTest =>
      if active s =? concurrency
      then Some (goto t AcqParked (set_didWait true c) (mutex_unlock s))
      else Some (goto t AcqDecWaiting c s)
  | AcqWoken =>
      match mutex_lock t s with
      | Some s1 => Some (goto t AcqTest c s1)
      | None => None
      end
  | AcqDecWaiting =>
      Some (goto t AcqIncActive c (set_waiting (wrap_int (waiting s - 1)) s))
  | AcqIncActive =>
      Some (goto t AcqUnlock c
              (emit (EvAcquire t) (set_active (wrap_int (active s + 1)) s)))
  | AcqUnlock => Some (goto t Dial c (mutex_unlock s))
  | _ => None
  end.

(** [client.copyAll]: the channel [done] is unbuffered, so the receive
    [<-done] completes together with the send of a copy goroutine; that
    step belongs to the sender ([copy_method]). *)
Definition copyAll (t : nat) (c : client) (s : state) : option state :=
  match c_pc c with
  | SpawnTo => Some (goto t SpawnFrom (set_to CCopying c) s)
  | SpawnFrom => Some (goto t WaitPump (set_from CCopying c) s)
  | WaitPump => None
  | RecordDone => Some (goto t LogSuccess (set_done true c) s)
  | _ => None
  end.

(** [client.copyTo] and [client.copyFrom]: [io.Copy], [c.w.Done()],
    [done <- true]. *)
Definition copy_method (t : nat) (d : dir) (c : client) (s : state) : option state :=
  match get_cp d c with
  | CCopying => Some (upd t (set_cp d CWgDone c) s)
  | CWgDone =>
      match wg_done c with
      | Some c1 => Some (upd t (set_cp d CSend c1) s)
      | None => Some (panic s)
      end
  | CSend =>
      match c_pc c with
      | WaitPump => Some (goto t RecordDone (set_cp d CExited c) s)
      | _ => None
      end
  | _ => None
  end.

(** [client.doProxy], with [logError] and [logSuccess]. *)
Definition doProxy (t : nat) (e : env) (c : client) (s : state) : option state :=
  match c_pc c with
  | Dial =>
      match dial e with
      | None => Some (goto t SpawnTo (set_server SockOpen c) s)
      | Some msg => Some (goto t LogError (set_err (Some msg) c) s)
      end
  | LogError =>
      match c_err c with
      | Some msg => Some (goto t TdLogStart c (emit (EvLog t (LError msg)) s))
      | None => Some (panic s)
      end
  | SpawnTo | SpawnFrom | WaitPump | RecordDone => copyAll t c s
  | LogSuccess => Some (goto t TdLogStart c (emit (EvLog t LSuccess) s))
  | _ => None
  end.

(** [client.teardown]. *)
Definition teardown (t : nat) (e : env) (c : client) (s : state) : option state :=
  match c_pc c with
  | TdLogStart => Some (goto t TdCloseConn c (emit (EvLog t LTeardownStart) s))
  | TdCloseConn =>
      match close_sock (c_conn c) with
      | Some k => Some (goto t TdCloseServer (set_conn k c) (emit (EvCloseConn t) s))
      | None => Some (panic s)
      end
  | TdCloseServer =>
      match close_sock (c_server c) with
      | Some k => Some (goto t TdLogClosed (set_server k c) (emit (EvCloseServer t) s))
      | None => Some (panic s)
      end
  | TdLogClosed => Some (goto t RelLock c (emit (EvLog t LProxyClosed) s))
  | RelLock =>
      match mutex_lock t s with
      | Some s1 => Some (goto t RelDecActive c s1)
      | None => None
      end
  | RelDecActive =>
      Some (goto t RelUnlock c
              (emit (EvRelease t) (set_active (wrap_int (active s - 1)) s)))
  | RelUnlock => Some (goto t RelSignal c (mutex_unlock s))
  | RelSignal =>
      match cond_signal (wake e) s with
      | Some s1 => Some (goto t Done c s1)
      | None => None
      end
  | _ => None
  end.

(** [client.mind]: [setup], [doProxy], [teardown]. *)
Definition mind (t : nat) (e : env) (c : client) (s : state) : option state :=
  match c_pc c with
  | Start | AcqLock | AcqCount | AcqIncWaiting | AcqTest | AcqWoken
  | AcqDecWaiting | AcqIncActive | AcqUnlock => setup t c s
  | Dial | LogError | SpawnTo | SpawnFrom | WaitPump | RecordDone
  | LogSuccess => doProxy t e c s
  | TdLogStart | TdCloseConn | TdCloseServer | TdLogClosed
  | RelLock | RelDecActive | RelUnlock | RelSignal => teardown t e c s
  | _ => None
  end.

(** ** The stats responder (the same in both variants) *)

(** Store the record of the stats connection [i]. *)
Definition put_stats (i : nat) (k : stats_conn) (s : state) : state :=
  set_stats (<[i := k]> (stats_conns s)) s.

(** The call follows the loads once both operands have a value. *)
Definition after_load (a w : option Z) : spc :=
  match a, w with
  | Some _, Some _ => SFprintf
  | _, _ => SEval
  end.

(** The handler of one stats connection: [defer c.Close()], then
    [fmt.Fprintf(c, "active: %d, waiting: %d\n", active, waiting)].  The
    counters are read without the lock, one load each: other goroutines
    can run between the two loads and between the loads and the write. *)
Definition stats (i : nat) (o : operand) (k : stats_conn) (s : state)
  : option state :=
  match st_pc k with
  | SEval =>
      match o with
      | OpActive =>
          match st_active k with
          | None =>
              Some (put_stats i
                      (mkStats (after_load (Some (active s)) (st_waiting k))
                               (Some (active s)) (st_waiting k) (st_io k)) s)
          | Some _ => None
          end
      | OpWaiting =>
          match st_waiting k with
          | None =>
              Some (put_stats i
                      (mkStats (after_load (st_active k) (Some (waiting s)))
                               (st_active k) (Some (waiting s)) (st_io k)) s)
          | Some _ => None
          end
      end
  | SFprintf =>
      match st_active k, st_waiting k with
      | Some a, Some w =>
          Some (put_stats i
                  (mkStats SClose (Some a) (Some w)
                     (st_io k ++ [IoWrite (sprintf stats_format [a; w])])) s)
      | _, _ => None
      end
  | SClose =>
      Some (put_stats i
              (mkStats SDone (st_active k) (st_waiting k)
                       (st_io k ++ [IoClose])) s)
  | SDone => None
  end.

(** ** The process *)

(** One step of the process under the action [a]; [None] when the action
    is not enabled (the goroutine is blocked, has returned or does not
    exist) or the process has ended. *)
Definition step_fn (V : variant) (s : state) (a : action) : option state :=
  if crashed s then None else
  match a with
  | Accept => Some (set_clients (clients s ++ [new_client]) s)
  | Run t e =>
      match clients s !! t with
      | Some c =>
          match V with
          | Closures => proxy t e c s
          | Struct => mind t e c s
          end
      | None => None
      end
  | Copier t d =>
      match clients s !! t with
      | Some c =>
          match V with
          | Closures => copy_closure t d c s
          | Struct => copy_method t d c s
          end
      | None => None
      end
  | AcceptStats => Some (set_stats (stats_conns s ++ [new_stats]) s)
  | RunStats i o =>
      match stats_conns s !! i with
      | Some k => stats i o k s
      | None => None
      end
  end.

(** A schedule run from [s]. *)
Fixpoint run (V : variant) (acts : list action) (s : state) : option state :=
  match acts with
  | [] => Some s
  | a :: acts' =>
      match step_fn V s a with
      | Some s1 => run V acts' s1
      | None => None
      end
  end.

Inductive step (V : variant) (s s' : state) : Prop :=
| step_intro (a : action) : step_fn V s a = Some s' -> step V s s'.

Inductive reachable (V : variant) : state -> Prop :=
| reachable_init : reachable V init
| reachable_step s s' : reachable V s -> step V s s' -> reachable V s'.

End Program.

(** ** The program points and the invariant of the gate *)

(** Between [waiting++] and [waiting--]. *)
Definition counted_waiting (p : pc) : bool :=
  match p with
  | AcqTest | AcqParked | AcqWoken | AcqDecWaiting => true
  | _ => false
  end.

(** Blocked inside [wCond.Wait()]. *)
Definition blocked (p : pc) : bool :=
  match p with
  | AcqParked | AcqWoken => true
  | _ => false
  end.

(** Between [active++] and [active--]. *)
Definition holds_slot (p : pc) : bool :=
  match p with
  | AcqUnlock | Dial | LogError | WgAdd | SpawnTo | SpawnFrom | WaitPump
  | RecordDone | LogSuccess | TdLogStart | TdCloseConn | TdCloseServer
  | TdLogClosed | DeferCloseServer | RelLock | RelDecActive => true
  | _ => false
  end.

(** Between a [Lock] and the matching [Unlock] (or [Wait]). *)
Definition in_crit (p : pc) : bool :=
  match p with
  | AcqCount | AcqIncWaiting | AcqTest | AcqDecWaiting | AcqIncActive
  | AcqUnlock | RelDecActive | RelUnlock => true
  | _ => false
  end.

(** Past the test of the loop, before [active++]. *)
Definition passed_test (p : pc) : bool :=
  match p with
  | AcqDecWaiting | AcqIncActive => true
  | _ => false
  end.

(** [Acquire] has returned. *)
Definition acquired (p : pc) : bool :=
  match p with
  | Start | AcqLock | AcqCount | AcqIncWaiting | AcqTest | AcqParked
  | AcqWoken | AcqDecWaiting | AcqIncActive | AcqUnlock => false
  | _ => true
  end.

(** The number of sessions whose program point satisfies [f]. *)
Fixpoint count_pc (f : pc -> bool) (l : list client) : nat :=
  match l with
  | [] => 0%nat
  | c :: l' => ((if f (c_pc c) then 1 else 0) + count_pc f l')%nat
  end.

Definition Zcount (f : pc -> bool) (l : list client) : Z :=
  Z.of_nat (count_pc f l).

Definition b2z (b : bool) : Z := if b then 1 else 0.

(** The sessions fit Go's [int]: every one of them is a live goroutine
    with its own stack. *)
Definition bounded (s : state) : Prop :=
  Z.of_nat (length (clients s)) < 2 ^ 63.

(** The invariant of the gate. *)
Record gate_inv (cap : Z) (s : state) : Prop := mkGateInv {
  gi_waiting : waiting s = Zcount counted_waiting (clients s);
  gi_active : active s = Zcount holds_slot (clients s);
  gi_crit : forall t c, clients s !! t = Some c ->
                        in_crit (c_pc c) = true -> wCond_L s = Some t;
  gi_passed : forall t c, clients s !! t = Some c ->
                            passed_test (c_pc c) = true -> active s < cap;
  gi_cap : active s <= cap
}.

(** The program point of session [t]. *)
Definition pc_of (s : state) (t : nat) : option pc := c_pc <$> clients s !! t.

(** ** The pump: what the session records say about the copy goroutines *)

(** A copy goroutine that has not called [w.Done()] yet. *)
Definition live (k : cpc) : Z := match k with CExited => 0 | _ => 1 end.

(** [proxy]: the WaitGroup counter is the number of copy goroutines still
    to finish, and [doneAt] is recorded after both have exited. *)
Definition pump_closures (c : client) : Prop :=
  match c_pc c with
  | Start | AcqLock | AcqCount | AcqIncWaiting | AcqTest | AcqParked
  | AcqWoken | AcqDecWaiting | AcqIncActive | AcqUnlock | Dial | WgAdd =>
      c_w c = 0 /\ c_to c = CNotStarted /\ c_from c = CNotStarted
      /\ c_done c = false
  | SpawnTo =>
      c_w c = 2 /\ c_to c = CNotStarted /\ c_from c = CNotStarted
      /\ c_done c = false
  | SpawnFrom =>
      c_w c = 1 + live (c_to c) /\ c_to c <> CNotStarted
      /\ c_from c = CNotStarted /\ c_done c = false
  | WaitPump =>
      c_w c = live (c_to c) + live (c_from c) /\ c_to c <> CNotStarted
      /\ c_from c <> CNotStarted /\ c_done c = false
  | RecordDone => c_to c = CExited /\ c_from c = CExited
  | _ =>
      (c_to c = CExited /\ c_from c = CExited) \/
      (c_to c = CNotStarted /\ c_from c = CNotStarted /\ c_done c = false)
  end.

(** [client]: up to the receive [<-done] no copy goroutine has exited;
    afterwards never both. *)
Definition pump_struct (c : client) : Prop :=
  match c_pc c with
  | Start | AcqLock | AcqCount | AcqIncWaiting | AcqTest | AcqParked
  | AcqWoken | AcqDecWaiting | AcqIncActive | AcqUnlock | Dial
  | SpawnTo | SpawnFrom | WaitPump =>
      c_to c <> CExited /\ c_from c <> CExited /\ c_done c = false
  | _ => ~ (c_to c = CExited /\ c_from c = CExited)
  end.

(** ** Events per session *)

Definition ev_session (ev : event) : nat :=
  match ev with
  | EvAcquire t | EvRelease t | EvLog t _ | EvCloseConn t
  | EvCloseServer t => t
  end.

Definition is_acquire (ev : event) : bool :=
  match ev with EvAcquire _ => true | _ => false end.
Definition is_release (ev : event) : bool :=
  match ev with EvRelease _ => true | _ => false end.
Definition is_log (ev : event) : bool :=
  match ev with EvLog _ _ => true | _ => false end.
(** The outcome line: [status=success] or [status=error]. *)
Definition is_outcome (ev : event) : bool :=
  match ev with
  | EvLog _ LSuccess | EvLog _ (LError _) => true
  | _ => false
  end.

(** The number of events of kind [f] of session [t]. *)
Fixpoint count_ev (f : event -> bool) (t : nat) (tr : list event) : nat :=
  match tr with
  | [] => 0
  | ev :: tr' =>
      (if f ev && Nat.eqb (ev_session ev) t then 1 else 0) + count_ev f t tr'
  end%nat.

(** After [active--]. *)
Definition released (p : pc) : bool :=
  match p with
  | RelUnlock | RelSignal | DeferCloseConn | DeferLog | Done => true
  | _ => false
  end.

Definition exp_acq (p : pc) : nat :=
  if holds_slot p || released p then 1 else 0.

Definition exp_rel (p : pc) : nat := if released p then 1 else 0.

Definition exp_outcome (V : variant) (p : pc) : nat :=
  match V, p with
  | Closures, Done => 1
  | Struct, (TdLogStart | TdCloseConn | TdCloseServer | TdLogClosed | RelLock
            | RelDecActive | RelUnlock | RelSignal | Done) => 1
  | _, _ => 0
  end.

Definition exp_logs (V : variant) (p : pc) : nat :=
  match V, p with
  | Closures, Done => 1
  | Struct, TdLogStart => 1
  | Struct, (TdCloseConn | TdCloseServer | TdLogClosed) => 2
  | Struct, (RelLock | RelDecActive | RelUnlock | RelSignal | Done) => 3
  | _, _ => 0
  end.

Record ev_inv (V : variant) (s : state) : Prop := mkEvInv {
  ei_acq : forall t c, clients s !! t = Some c ->
             count_ev is_acquire t (trace s) = exp_acq (c_pc c);
  ei_rel : forall t c, clients s !! t = Some c ->
             count_ev is_release t (trace s) = exp_rel (c_pc c);
  ei_out : forall t c, clients s !! t = Some c ->
             count_ev is_outcome t (trace s) = exp_outcome V (c_pc c);
  ei_log : forall t c, clients s !! t = Some c ->
             count_ev is_log t (trace s) = exp_logs V (c_pc c);
  ei_fresh : Forall (fun ev => (ev_session ev < length (clients s))%nat)
                    (trace s)
}.

(** ** The stats line *)

(** What [stats] writes for the counter values [a] and [w]. *)
Definition stats_line (a w : Z) : string := sprintf stats_format [a; w].

(** The line as the protocol describes it. *)
Definition protocol_line (a w : Z) : string :=
  ("active: " ++ fmt_d a ++ ", waiting: " ++ fmt_d w ++ String LF EmptyString)%string.

Fixpoint count_char (a : ascii) (s : string) : nat :=
  match s with
  | EmptyString => 0
  | String b s' => (if Ascii.eqb a b then 1 else 0) + count_char a s'
  end%nat.

(** The operands and the I/O of a stats connection at each point of its
    handler. *)
Definition stats_inv (k : stats_conn) : Prop :=
  match st_pc k with
  | SEval => st_io k = [] /\ (st_active k = None \/ st_waiting k = None)
  | SFprintf =>
      st_io k = [] /\ exists a w, st_active k = Some a /\ st_waiting k = Some w
  | SClose =>
      exists a w, st_active k = Some a /\ st_waiting k = Some w /\
                  st_io k = [IoWrite (stats_line a w)]
  | SDone =>
      exists a w, st_active k = Some a /\ st_waiting k = Some w /\
                  st_io k = [IoWrite (stats_line a w); IoClose]
  end.

(** [s0] is a state the process went through on its way to [s]. *)
Definition earlier (cap : Z) (V : variant) (s0 s : state) : Prop :=
  exists acts, run cap V acts s0 = Some s.

(** An operand of the stats connection [i] that has been loaded holds the
    value its variable had in a state the process went through after the
    connection was accepted. *)
Definition loaded_inv (cap : Z) (V : variant) (s : state) (i : nat)
    (k : stats_conn) : Prop :=
  (forall a, st_active k = Some a ->
     exists s0, reachable cap V s0 /\ earlier cap V s0 s /\
                is_Some (stats_conns s0 !! i) /\ active s0 = a) /\
  (forall w, st_waiting k = Some w ->
     exists s0, reachable cap V s0 /\ earlier cap V s0 s /\
                is_Some (stats_conns s0 !! i) /\ waiting s0 = w).

(** ** Release and the condition variable *)

Definition parked (p : pc) : bool :=
  match p with AcqParked => true | _ => false end.

Definition woken (p : pc) : bool :=
  match p with AcqWoken => true | _ => false end.

(** Past [Signal]. *)
Definition signalled (p : pc) : bool :=
  match p with
  | DeferCloseConn | DeferLog | Done => true
  | _ => false
  end.


(** The number of wake-ups along a schedule run from [s]: the callers
    that its steps take out of the parked state. *)
Fixpoint wakeups (cap : Z) (V : variant) (acts : list action) (s : state) : Z :=
  match acts with
  | [] => 0
  | a :: acts' =>
      match step_fn cap V s a with
      | Some s1 =>
          Z.max 0 (Zcount parked (clients s) - Zcount parked (clients s1))
          + wakeups cap V acts' s1
      | None => 0
      end
  end.

(** ** The copy goroutine left behind *)

(** Past the receive [<-done] (or on the error path, which has no pump). *)
Definition past_pump (p : pc) : bool :=
  match p with
  | Start | AcqLock | AcqCount | AcqIncWaiting | AcqTest | AcqParked
  | AcqWoken | AcqDecWaiting | AcqIncActive | AcqUnlock | Dial
  | SpawnTo | SpawnFrom | WaitPump => false
  | _ => true
  end.

(** ** Schedules *)

(** The network connects; [Signal] wakes session [w] when someone is
    parked. *)
Definition connect (w : nat) : env := mkEnv None w.

(** The network refuses the connection. *)
Definition refuse : env :=
  mkEnv (Some "dial tcp 127.0.0.1:8300: connect: connection refused"%string) 0.

(** Session [t] runs [n] statements. *)
Definition runs (n t : nat) : list action := replicate n (Run t (connect 0)).

(** The handler of the stats connection [i] from the accept to its
    return: the two loads, the write, the close. *)
Definition serve (i : nat) : list action :=
  [RunStats i OpActive; RunStats i OpWaiting;
   RunStats i OpActive; RunStats i OpActive].

Definition run_or_init (cap : Z) (V : variant) (acts : list action) : state :=
  match run cap V acts init with
  | Some s => s
  | None => init
  end.

(** [proxy], capacity 1: session 0 holds the slot, session 1 is parked,
    session 2 is at the test of the loop with the lock. *)
Definition sched_two_waiting : list action :=
  [Accept; Accept; Accept] ++ runs 7 0 ++ runs 4 1 ++ runs 3 2.

Definition state_two_waiting : state :=
  Eval vm_compute in run_or_init 1 Closures sched_two_waiting.

(** [proxy], capacity 1: session 0 is relaying; the client-to-server copy
    has finished, the server-to-client copy has not. *)
Definition sched_one_direction_done : list action :=
  [Accept] ++ runs 11 0 ++ [Copier 0 ToServer; Copier 0 ToServer].

Definition state_one_direction_done : state :=
  Eval vm_compute in run_or_init 1 Closures sched_one_direction_done.

(** [client], capacity 1: the same situation, after the send on [done]. *)
Definition sched_struct_first_done : list action :=
  [Accept] ++ runs 11 0
  ++ [Copier 0 ToServer; Copier 0 ToServer; Copier 0 ToServer] ++ runs 1 0.

Definition state_struct_first_done : state :=
  Eval vm_compute in run_or_init 1 Struct sched_struct_first_done.

(** [client], capacity 1: a session that succeeds, up to the return of
    [mind]. *)
Definition sched_struct_success : list action :=
  sched_struct_first_done ++ runs 9 0.

Definition state_struct_success : state :=
  Eval vm_compute in run_or_init 1 Struct sched_struct_success.

(** ... and then the other copy goroutine gets to its send. *)
Definition sched_struct_orphan : list action :=
  sched_struct_success ++ [Copier 0 FromServer; Copier 0 FromServer].

Definition state_struct_orphan : state :=
  Eval vm_compute in run_or_init 1 Struct sched_struct_orphan.

(** [proxy], capacity 1: session 0 holds the slot, session 1 is parked,
    the dial of session 0 fails and it is about to call [post]. *)
Definition sched_before_release : list action :=
  [Accept; Accept; Accept] ++ runs 7 0 ++ runs 4 1 ++ [Run 0 refuse].

Definition state_before_release : state :=
  Eval vm_compute in run_or_init 1 Closures sched_before_release.

(** Session 0 decrements and unlocks; session 2 arrives and takes the
    slot; session 0 signals and returns; session 1 wakes up, finds the
    gate full and parks again. *)
Definition sched_release_barged : list action :=
  runs 3 0 ++ runs 7 2 ++ [Run 0 (connect 1)] ++ runs 2 0 ++ runs 2 1.

Definition state_release_barged : state :=
  Eval vm_compute in
    match run 1 Closures sched_release_barged state_before_release with
    | Some s => s
    | None => init
    end.

(** Capacity 2: session 1 is relaying, session 0 is at the test of the
    loop. *)
Definition sched_struct_pre_acquire : list action :=
  [Accept; Accept] ++ runs 11 1 ++ runs 4 0.

Definition state_struct_pre_acquire : state :=
  Eval vm_compute in run_or_init 2 Struct sched_struct_pre_acquire.

(** ... session 0 gets the slot, its dial fails, and it runs [logError]
    and [teardown]. *)
Definition sched_struct_dial_failed : list action :=
  sched_struct_pre_acquire ++ runs 4 0 ++ [Run 0 refuse] ++ runs 4 0.

Definition state_struct_dial_failed : state :=
  Eval vm_compute in run_or_init 2 Struct sched_struct_dial_failed.

(** The same scenario in [proxy]. *)
Definition sched_closures_pre_acquire : list action :=
  [Accept; Accept] ++ runs 11 1 ++ runs 3 0.

Definition state_closures_pre_acquire : state :=
  Eval vm_compute in run_or_init 2 Closures sched_closures_pre_acquire.

Definition sched_closures_dial_failed : list action :=
  sched_closures_pre_acquire ++ runs 4 0 ++ [Run 0 refuse] ++ runs 6 0.

Definition state_closures_dial_failed : state :=
  Eval vm_compute in run_or_init 2 Closures sched_closures_dial_failed.

(** [client], capacity 1: the dial of the only session fails; the state
    before [c.server.Close()]. *)
Definition sched_struct_nil_close : list action :=
  [Accept] ++ runs 8 0 ++ [Run 0 refuse] ++ runs 3 0.

Definition state_struct_nil_close : state :=
  Eval vm_compute in run_or_init 1 Struct sched_struct_nil_close.

(** [proxy], capacity 1: a session that succeeds. *)
Definition sched_closures_success : list action :=
  [Accept] ++ runs 11 0
  ++ [Copier 0 ToServer; Copier 0 ToServer;
      Copier 0 FromServer; Copier 0 FromServer] ++ runs 9 0.

Definition state_closures_success : state :=
  Eval vm_compute in run_or_init 1 Closures sched_closures_success.


(** Capacity 2: two sessions relaying, a third one parked, and a stats
    connection. *)
Definition sched_two_active_one_waiting : list action :=
  [Accept; Accept; Accept; AcceptStats]
  ++ runs 11 0 ++ runs 11 1 ++ runs 5 2 ++ serve 0.

Definition state_two_active_one_waiting : state :=
  Eval vm_compute in run_or_init 2 Struct sched_two_active_one_waiting.

(** [proxy], capacity 1: session 0 has unlocked in [post] and is about to
    signal; session 1 is parked. *)
Definition state_before_signal : state :=
  Eval vm_compute in
    match run 1 Closures (runs 3 0) state_before_release with
    | Some s => s
    | None => init
    end.

(** [client], capacity 1: the server-to-client copy goroutine is at its
    send, the other one is still copying. *)
Definition sched_struct_send : list action :=
  [Accept] ++ runs 11 0 ++ [Copier 0 FromServer; Copier 0 FromServer].

Definition state_struct_send : state :=
  Eval vm_compute in run_or_init 1 Struct sched_struct_send.


(** [proxy], capacity 1: session 0 has decremented [active] in [post] and
    still holds the lock; session 1 is parked. *)
Definition sched_slot_free : list action := sched_before_release ++ runs 2 0.

Definition state_slot_free : state :=
  Eval vm_compute in run_or_init 1 Closures sched_slot_free.

(** Session 0 unlocks; session 2 arrives and takes the slot; session 0
    signals and returns; session 1 wakes up, finds the gate full and
    parks again. *)
Definition sched_slot_taken : list action :=
  runs 1 0 ++ runs 7 2 ++ [Run 0 (connect 1)] ++ runs 2 0 ++ runs 2 1.

Definition state_slot_taken : state :=
  Eval vm_compute in
    match run 1 Closures sched_slot_taken state_slot_free with
    | Some s => s
    | None => init
    end.

(** [proxy], capacity 1, one session and one stats connection: the
    handler loads [waiting] while the session is at the test of the loop
    and [active] after the session has taken the slot. *)
Definition sched_stats_mixed : list action :=
  [AcceptStats; Accept] ++ runs 3 0 ++ [RunStats 0 OpWaiting]
  ++ runs 3 0
  ++ [RunStats 0 OpActive; RunStats 0 OpActive; RunStats 0 OpActive].

Definition state_stats_mixed : state :=
  Eval vm_compute in run_or_init 1 Closures sched_stats_mixed.

Definition other (d : dir) : dir :=
  match d with ToServer => FromServer | FromServer => ToServer end.

(** The session record at index [t], or a fresh one. *)
Definition client_at (s : state) (t : nat) : client :=
  match clients s !! t with
  | Some c => c
  | None => new_client
  end.

(** ** Further invariants *)

(** ** The mutex and its holder *)

(** The mutex is locked exactly while its holder is between a [Lock] and
    the matching [Unlock] or [Wait]. *)
Record lock_inv (s : state) : Prop := mkLockInv {
  li_crit : forall t c, clients s !! t = Some c ->
                        in_crit (c_pc c) = true -> wCond_L s = Some t;
  li_holder : forall t, wCond_L s = Some t ->
                exists c, clients s !! t = Some c /\ in_crit (c_pc c) = true
}.

(** ** Sockets, the dial result and the WaitGroup of [client] *)

(** [proxy] after the pump or after a failed dial: the backend socket is
    closed and [doneAt] recorded, or it never existed and [err] is set. *)
Definition outcome_closures (c : client) : Prop :=
  (c_server c = SockClosed /\ c_err c = None /\ c_done c = true) \/
  (c_server c = SockNil /\ (exists m, c_err c = Some m) /\ c_done c = false).

(** [client.mind] on the way into [teardown]: the backend socket is still
    open, or it never existed. *)
Definition outcome_struct (c : client) : Prop :=
  (c_server c = SockOpen /\ c_err c = None /\ c_done c = true) \/
  (c_server c = SockNil /\ (exists m, c_err c = Some m) /\ c_done c = false).

(** The sockets and the dial result at each statement of [proxy]. *)
Definition sock_closures (c : client) : Prop :=
  match c_pc c with
  | Start | AcqLock | AcqIncWaiting | AcqTest | AcqParked | AcqWoken
  | AcqDecWaiting | AcqIncActive | AcqUnlock | Dial =>
      c_conn c = SockOpen /\ c_server c = SockNil /\ c_err c = None
      /\ c_done c = false
  | WgAdd | SpawnTo | SpawnFrom | WaitPump | RecordDone =>
      c_conn c = SockOpen /\ c_server c = SockOpen /\ c_err c = None
      /\ c_done c = false
  | DeferCloseServer =>
      c_conn c = SockOpen /\ c_server c = SockOpen /\ c_err c = None
      /\ c_done c = true
  | RelLock | RelDecActive | RelUnlock | RelSignal | DeferCloseConn =>
      c_conn c = SockOpen /\ outcome_closures c
  | DeferLog | Done => c_conn c = SockClosed /\ outcome_closures c
  | _ => False
  end.

(** The sockets and the dial result at each statement of [client.mind]. *)
Definition sock_struct (c : client) : Prop :=
  match c_pc c with
  | Start | AcqLock | AcqCount | AcqIncWaiting | AcqTest | AcqParked
  | AcqWoken | AcqDecWaiting | AcqIncActive | AcqUnlock | Dial =>
      c_conn c = SockOpen /\ c_server c = SockNil /\ c_err c = None
      /\ c_done c = false
  | SpawnTo | SpawnFrom | WaitPump | RecordDone =>
      c_conn c = SockOpen /\ c_server c = SockOpen /\ c_err c = None
      /\ c_done c = false
  | LogSuccess =>
      c_conn c = SockOpen /\ c_server c = SockOpen /\ c_err c = None
      /\ c_done c = true
  | LogError =>
      c_conn c = SockOpen /\ c_server c = SockNil
      /\ (exists m, c_err c = Some m) /\ c_done c = false
  | TdLogStart | TdCloseConn => c_conn c = SockOpen /\ outcome_struct c
  | TdCloseServer => c_conn c = SockClosed /\ outcome_struct c
  | TdLogClosed | RelLock | RelDecActive | RelUnlock | RelSignal | Done =>
      c_conn c = SockClosed /\ c_server c = SockClosed /\ c_err c = None
      /\ c_done c = true
  | _ => False
  end.

(** A copy goroutine of [client] that has not called [c.w.Done()] yet. *)
Definition owes_done (k : cpc) : Z :=
  match k with CNotStarted | CCopying | CWgDone => 1 | _ => 0 end.

(** The WaitGroup of [client]: two after [c.w.Add(2)], one less for each
    [c.w.Done()]. *)
Definition wg_struct (c : client) : Prop :=
  match c_pc c with
  | Start => c_w c = 0 /\ c_to c = CNotStarted /\ c_from c = CNotStarted
  | AcqLock | AcqCount | AcqIncWaiting | AcqTest | AcqParked | AcqWoken
  | AcqDecWaiting | AcqIncActive | AcqUnlock | Dial | SpawnTo =>
      c_w c = 2 /\ c_to c = CNotStarted /\ c_from c = CNotStarted
  | SpawnFrom => c_w c = owes_done (c_to c) + 1 /\ c_from c = CNotStarted
  | _ => c_w c = owes_done (c_to c) + owes_done (c_from c)
  end.

(** ** No wake-up is lost *)

(** Between [active--] and [Signal]. *)
Definition signal_owed (p : pc) : bool :=
  match p with RelUnlock | RelSignal => true | _ => false end.

(** Woken, at the test of the loop, or past it and before [active++]. *)
Definition on_the_way (p : pc) : bool :=
  match p with
  | AcqWoken | AcqTest | AcqDecWaiting | AcqIncActive => true
  | _ => false
  end.

(** While a caller is parked, the slots in use, the signals still owed
    and the callers on their way to a slot add up to at least the
    capacity. *)
Definition wake_inv (cap : Z) (s : state) : Prop :=
  0 < Zcount parked (clients s) ->
  cap <= active s + Zcount signal_owed (clients s)
         + Zcount on_the_way (clients s).

(** ** Slot accounting *)

(** The number of events of kind [f], whatever the session. *)
Fixpoint count_kind (f : event -> bool) (tr : list event) : nat :=
  match tr with
  | [] => 0
  | ev :: tr' => (if f ev then 1 else 0) + count_kind f tr'
  end%nat.

Definition slots_balance (s : state) : Prop :=
  active s = Z.of_nat (count_kind is_acquire (trace s))
             - Z.of_nat (count_kind is_release (trace s)).

(** ** Session numbers of [client] *)

(** Past [count++; c.ID = count]. *)
Definition has_id (p : pc) : bool :=
  match p with
  | Start | AcqLock | AcqCount => false
  | _ => true
  end.

(** [count] is the number of sessions that have taken a number; their
    numbers are distinct and lie between 1 and [count]. *)
Record id_inv (s : state) : Prop := mkIdInv {
  ii_count : count s = Zcount has_id (clients s);
  ii_range : forall t c, clients s !! t = Some c ->
               has_id (c_pc c) = true -> 1 <= c_ID c <= count s;
  ii_unique : forall t u c k, clients s !! t = Some c ->
                clients s !! u = Some k ->
                has_id (c_pc c) = true -> has_id (c_pc k) = true ->
                c_ID c = c_ID k -> t = u
}.

(** ** The outcome line and the dial result *)

(** What a log line says about the session that wrote it. *)
Definition log_ok (k : client) (l : logline) : Prop :=
  match l with
  | LError m => c_err k = Some m
  | LSuccess => c_err k = None /\ c_done k = true
  | _ => True
  end.

Definition log_matches (s : state) (ev : event) : Prop :=
  match ev with
  | EvLog t l => log_ok (client_at s t) l
  | _ => True
  end.

Definition log_inv (s : state) : Prop := Forall (log_matches s) (trace s).

(** ** Backend connections *)

Definition is_open (k : sock) : bool :=
  match k with SockOpen => true | _ => false end.

(** The number of sessions whose backend connection is open. *)
Fixpoint count_open (l : list client) : nat :=
  match l with
  | [] => 0
  | c :: l' => (if is_open (c_server c) then 1 else 0) + count_open l'
  end%nat.

Definition backend_conns (s : state) : Z := Z.of_nat (count_open (clients s)).

(** ** The copy goroutines when the session returns *)

(** [client]: after the two [go] statements both copy goroutines have
    been started, unless the dial failed. *)
Definition started_struct (c : client) : Prop :=
  match c_pc c with
  | Start | AcqLock | AcqCount | AcqIncWaiting | AcqTest | AcqParked
  | AcqWoken | AcqDecWaiting | AcqIncActive | AcqUnlock | Dial
  | SpawnTo => True
  | SpawnFrom => c_to c <> CNotStarted
  | LogError => c_err c <> None
  | _ => c_err c = None ->
         c_to c <> CNotStarted /\ c_from c <> CNotStarted
  end.

(** * Proofs *)

(** ** Counting lemmas *)

Lemma wrap_int_id z : - 2 ^ 63 <= z < 2 ^ 63 -> wrap_int z = z.
Proof.
  intros Hz. unfold wrap_int.
  rewrite Z.mod_small by lia. lia.
Qed.

Lemma Zcount_nonneg f l : 0 <= Zcount f l.
Proof. unfold Zcount. lia. Qed.

Lemma count_pc_le_length f l : (count_pc f l <= length l)%nat.
Proof.
  induction l as [|c l IH]; simpl; [lia|].
  destruct (f (c_pc c)); lia.
Qed.

Lemma Zcount_le_length f l : Zcount f l <= Z.of_nat (length l).
Proof. unfold Zcount. pose proof (count_pc_le_length f l). lia. Qed.

Lemma Zcount_app f l1 l2 : Zcount f (l1 ++ l2) = Zcount f l1 + Zcount f l2.
Proof.
  unfold Zcount. induction l1 as [|c l1 IH]; simpl; [lia|].
  destruct (f (c_pc c)); lia.
Qed.

Lemma Zcount_insert f (l : list client) t c c' :
  l !! t = Some c ->
  Zcount f (<[t := c']> l) = Zcount f l - b2z (f (c_pc c)) + b2z (f (c_pc c')).
Proof.
  unfold Zcount. revert t.
  induction l as [|x l IH]; intros t Hl; [discriminate|].
  destruct t as [|t]; simpl in *.
  - injection Hl as ->. unfold b2z.
    destruct (f (c_pc c)), (f (c_pc c')); lia.
  - specialize (IH t Hl). destruct (f (c_pc x)); lia.
Qed.

Lemma Zcount_room f (l : list client) t c :
  l !! t = Some c -> f (c_pc c) = false ->
  Zcount f l + 1 <= Z.of_nat (length l).
Proof.
  intros Hl Hf.
  assert (Hsplit : forall k, Zcount f k + Zcount (fun p => negb (f p)) k
                             = Z.of_nat (length k)).
  { clear. unfold Zcount. induction k as [|x k IH]; simpl; [lia|].
    destruct (f (c_pc x)); simpl; lia. }
  assert (Hpos : 1 <= Zcount (fun p => negb (f p)) l).
  { unfold Zcount. revert t Hl.
    induction l as [|x l IH]; intros t Hl; [discriminate|].
    destruct t as [|t]; simpl in *.
    - injection Hl as ->. rewrite Hf. simpl. lia.
    - specialize (IH t Hl). destruct (f (c_pc x)); simpl; lia. }
  specialize (Hsplit l). lia.
Qed.

(** ** The gate invariant is inductive *)

Lemma gate_inv_init cap : 0 <= cap -> gate_inv cap init.
Proof.
  intros Hc. split; simpl; try reflexivity; try lia;
    intros t c Hl; rewrite lookup_nil in Hl; discriminate.
Qed.

(** A step that leaves the gate and the program points alone. *)
Lemma gate_inv_same cap s s' :
  gate_inv cap s ->
  map c_pc (clients s') = map c_pc (clients s) ->
  waiting s' = waiting s -> active s' = active s ->
  wCond_L s' = wCond_L s ->
  gate_inv cap s'.
Proof.
  intros [Hw Ha Hc Had Hcap] Hm Hw' Ha' Hl'.
  assert (Hcount : forall f, Zcount f (clients s') = Zcount f (clients s)).
  { intros f. unfold Zcount. f_equal.
    revert Hm. generalize (clients s) as l. generalize (clients s') as l'.
    induction l' as [|x l' IH]; intros [|y l] Hm; simpl in *;
      try discriminate; [reflexivity|].
    injection Hm as Hxy Hm. rewrite Hxy. f_equal. apply IH, Hm. }
  assert (Hlook : forall t c, clients s' !! t = Some c ->
                    exists c0, clients s !! t = Some c0 /\ c_pc c0 = c_pc c).
  { intros t c Hl.
    assert (Hp : map c_pc (clients s') !! t = Some (c_pc c))
      by (rewrite list_lookup_fmap, Hl; reflexivity).
    rewrite Hm, list_lookup_fmap in Hp.
    destruct (clients s !! t) as [c0|]; [|discriminate].
    exists c0. split; [reflexivity|]. simpl in Hp. congruence. }
  split.
  - rewrite Hw', Hcount. exact Hw.
  - rewrite Ha', Hcount. exact Ha.
  - intros t c Hl Hin. destruct (Hlook t c Hl) as (c0 & Hl0 & Hpc).
    rewrite Hl'. apply (Hc t c0 Hl0). congruence.
  - intros t c Hl Hin. destruct (Hlook t c Hl) as (c0 & Hl0 & Hpc).
    rewrite Ha'. apply (Had t c0 Hl0). congruence.
  - lia.
Qed.

(** A step of goroutine [t] from [c] to [c'], described by its effect on
    the gate. *)
Lemma gate_inv_upd cap s s' t c c' :
  gate_inv cap s ->
  clients s !! t = Some c ->
  clients s' = <[t := c']> (clients s) ->
  waiting s' = waiting s - b2z (counted_waiting (c_pc c))
               + b2z (counted_waiting (c_pc c')) ->
  active s' = active s - b2z (holds_slot (c_pc c))
              + b2z (holds_slot (c_pc c')) ->
  (in_crit (c_pc c') = true -> wCond_L s' = Some t) ->
  (wCond_L s' = wCond_L s \/ wCond_L s = None \/ wCond_L s = Some t) ->
  (passed_test (c_pc c') = true -> active s' < cap) ->
  (active s' <= active s \/ wCond_L s = Some t) ->
  active s' <= cap ->
  gate_inv cap s'.
Proof.
  intros [Hw Ha Hc Had Hcap] Hl Hcl Hw' Ha' Hin Hlk Hadm Hmono Hcap'.
  assert (Hlt : (t < length (clients s))%nat) by (eapply lookup_lt_Some; eauto).
  split.
  - rewrite Hcl, (Zcount_insert _ _ _ _ _ Hl). lia.
  - rewrite Hcl, (Zcount_insert _ _ _ _ _ Hl). lia.
  - intros t' k Hk Hcrit. rewrite Hcl in Hk.
    destruct (decide (t = t')) as [<-|Hne].
    + rewrite list_lookup_insert_eq in Hk by exact Hlt.
      injection Hk as <-. auto.
    + rewrite list_lookup_insert_ne in Hk by exact Hne.
      pose proof (Hc t' k Hk Hcrit) as Hold.
      destruct Hlk as [Hlk | [Hlk | Hlk]]; congruence.
  - intros t' k Hk Hk'. rewrite Hcl in Hk.
    destruct (decide (t = t')) as [<-|Hne].
    + rewrite list_lookup_insert_eq in Hk by exact Hlt.
      injection Hk as <-. auto.
    + rewrite list_lookup_insert_ne in Hk by exact Hne.
      pose proof (Had t' k Hk Hk') as Hold.
      assert (Hcr : in_crit (c_pc k) = true)
        by (destruct (c_pc k); simpl in *; congruence).
      pose proof (Hc t' k Hk Hcr) as Hlock.
      destruct Hmono as [Hmono | Hmono]; [lia | congruence].
  - exact Hcap'.
Qed.

(** ** Case analysis of a step *)

Ltac case_inner H :=
  match type of H with
  | context [match ?x with _ => _ end] =>
      lazymatch x with
      | context [match _ with _ => _ end] => fail
      | _ => destruct x eqn:?
      end
  end.

Ltac inv_some H :=
  first [ discriminate H | injection H as H; try subst ].

(** The cases of a statement of the session goroutine [c]. *)
Ltac run_cases H c :=
  unfold proxy, pre, post, mind, setup, doProxy, copyAll, teardown,
    mutex_lock, mutex_unlock in H;
  revert H; destruct (c_pc c) eqn:Hpc; intros H; try discriminate H;
  repeat case_inner H; inv_some H.

(** The cases of a step of a stats handler. *)
Ltac stats_cases H :=
  unfold stats, put_stats in H; repeat case_inner H; inv_some H.

(** The cases of a statement of a copy goroutine. *)
Ltac copier_cases H :=
  unfold copy_closure, copy_method, wg_done, get_cp in H;
  repeat case_inner H; inv_some H.

Lemma cond_signal_cases w s s1 :
  cond_signal w s = Some s1 ->
  s1 = s \/
  exists k, clients s !! w = Some k /\ c_pc k = AcqParked
            /\ s1 = goto w AcqWoken k s.
Proof.
  unfold cond_signal. destruct (existsb is_parked (clients s)).
  - destruct (clients s !! w) as [k|] eqn:Hk; [|discriminate].
    unfold is_parked. destruct (c_pc k) eqn:Hpc; try discriminate.
    intros [= <-]. right. exists k. auto.
  - intros [= <-]. left. reflexivity.
Qed.

Lemma cond_signal_frame w s s1 t c :
  cond_signal w s = Some s1 -> clients s !! t = Some c ->
  c_pc c <> AcqParked ->
  clients s1 !! t = Some c /\ active s1 = active s /\ waiting s1 = waiting s
  /\ wCond_L s1 = wCond_L s /\ length (clients s1) = length (clients s)
  /\ crashed s1 = crashed s /\ trace s1 = trace s /\ count s1 = count s
  /\ stats_conns s1 = stats_conns s.
Proof.
  intros Hs Hl Hne.
  destruct (cond_signal_cases _ _ _ Hs) as [-> | (k & Hk & Hpc & ->)].
  - repeat split; auto.
  - simpl. rewrite length_insert. repeat split; auto.
    rewrite list_lookup_insert_ne; [exact Hl|]. intros ->. congruence.
Qed.

Lemma gate_inv_signal cap w s s1 :
  gate_inv cap s -> cond_signal w s = Some s1 -> gate_inv cap s1.
Proof.
  intros Hinv Hs.
  destruct (cond_signal_cases _ _ _ Hs) as [-> | (k & Hk & Hpc & ->)].
  - exact Hinv.
  - eapply (gate_inv_upd cap s _ w k);
      [exact Hinv | exact Hk | reflexivity | ..];
      simpl; rewrite ?Hpc; simpl; auto; try lia; try discriminate.
    apply (gi_cap _ _ Hinv).
Qed.

Lemma step_length cap V s a s' :
  step_fn cap V s a = Some s' ->
  (length (clients s) <= length (clients s'))%nat.
Proof.
  unfold step_fn. destruct (crashed s); [discriminate|].
  destruct a as [|t e|t d| |i]; intros H.
  - inv_some H. simpl. rewrite length_app. lia.
  - destruct (clients s !! t) as [c|] eqn:Hl; [|discriminate].
    destruct V; run_cases H c; simpl; rewrite ?length_insert; try lia;
    match goal with
    | Hs : cond_signal _ _ = Some _ |- _ =>
        eapply cond_signal_frame in Hs as (_&_&_&_&?&_);
        [|eassumption|congruence]; lia
    end.
  - destruct (clients s !! t) as [c|] eqn:Hl; [|discriminate].
    destruct V; copier_cases H; simpl; rewrite ?length_insert; try lia.
  - inv_some H. simpl. lia.
  - destruct (stats_conns s !! i) as [k|]; [|discriminate].
    stats_cases H; simpl; lia.
Qed.

Lemma lookup_snoc_client (l : list client) x t c :
  (l ++ [x]) !! t = Some c -> l !! t = Some c \/ c = x.
Proof.
  intros Hl. destruct (decide (t < length l)%nat).
  - rewrite lookup_app_l in Hl by lia. auto.
  - rewrite lookup_app_r in Hl by lia.
    destruct (t - length l)%nat; simpl in Hl; [|discriminate].
    right. congruence.
Qed.

Lemma Zcount_new f : f Start = false -> Zcount f [new_client] = 0.
Proof. intros Hf. unfold Zcount. simpl. rewrite Hf. reflexivity. Qed.

Lemma gate_inv_step cap V s a s' :
  bounded s' ->
  gate_inv cap s -> step_fn cap V s a = Some s' -> gate_inv cap s'.
Proof.
  intros Hb Hinv H.
  assert (Hbs : bounded s).
  { unfold bounded in *. pose proof (step_length _ _ _ _ _ H). lia. }
  clear Hb. unfold bounded in Hbs.
  unfold step_fn in H. destruct (crashed s); [discriminate|].
  destruct a as [|t e|t d| |i].
  - inv_some H. destruct Hinv as [Hw Ha Hc Had Hcap].
    split; simpl; rewrite ?Zcount_app, ?Zcount_new by reflexivity; try lia.
    + intros t c Hl Hin.
      destruct (lookup_snoc_client _ _ _ _ Hl) as [Hl' | ->]; eauto.
      discriminate.
    + intros t c Hl Hin.
      destruct (lookup_snoc_client _ _ _ _ Hl) as [Hl' | ->]; eauto.
      discriminate.
  - destruct (clients s !! t) as [c|] eqn:Hl; [|discriminate].
    pose proof (Zcount_nonneg counted_waiting (clients s)) as Hw0.
    pose proof (Zcount_nonneg holds_slot (clients s)) as Ha0.
    pose proof (Zcount_room counted_waiting _ _ _ Hl) as Hw1.
    pose proof (Zcount_room holds_slot _ _ _ Hl) as Ha1.
    pose proof (gi_waiting _ _ Hinv) as Hw.
    pose proof (gi_active _ _ Hinv) as Ha.
    pose proof (gi_cap _ _ Hinv) as Hcap.
    pose proof (gi_crit _ _ Hinv _ _ Hl) as Hcr.
    pose proof (gi_passed _ _ Hinv _ _ Hl) as Had.
    pose proof (Zcount_le_length counted_waiting (clients s)) as Hw2.
    pose proof (Zcount_le_length holds_slot (clients s)) as Ha2.
    destruct V; run_cases H c; simpl in Hw1, Ha1, Hcr, Had;
    try (specialize (Hw1 eq_refl)); try (specialize (Ha1 eq_refl));
    try (specialize (Hcr eq_refl)); try (specialize (Had eq_refl));
    try (apply gate_inv_same with (s := s); [exact Hinv|reflexivity..]);
    try match goal with
        | Hs : cond_signal _ _ = Some ?s1 |- _ =>
            pose proof (gate_inv_signal _ _ _ _ Hinv Hs) as Hinv1;
            eapply cond_signal_frame in Hs as (Hl1 & Ha1' & Hw1' & Hk1 & _);
            [|exact Hl|congruence];
            eapply (gate_inv_upd cap s1 _ t c);
            [exact Hinv1 | exact Hl1 | reflexivity | ..];
            simpl; rewrite ?Hpc; simpl; auto; try lia; try congruence
        end;
    try (eapply (gate_inv_upd cap s _ t c);
         [exact Hinv | exact Hl | reflexivity | ..];
         simpl; rewrite ?Hpc; simpl;
         rewrite ?wrap_int_id by lia; auto; try lia; try congruence;
         try solve [intuition congruence];
         try match goal with
             | Heq : (_ =? _) = false |- _ => apply Z.eqb_neq in Heq; lia
             end).
  - destruct (clients s !! t) as [c|] eqn:Hl; [|discriminate].
    pose proof (gi_cap _ _ Hinv) as Hcap.
    pose proof (gi_crit _ _ Hinv _ _ Hl) as Hcr.
    pose proof (gi_passed _ _ Hinv _ _ Hl) as Had.
    destruct V, d; copier_cases H;
    try (apply gate_inv_same with (s := s); [exact Hinv|reflexivity..]);
    try (eapply (gate_inv_upd cap s _ t c);
         [exact Hinv | exact Hl | reflexivity | ..];
         simpl; auto; try lia;
         try match goal with
             | Hp : c_pc c = _ |- _ => rewrite Hp; simpl; auto; lia
             end;
         try (destruct (c_pc c); simpl; lia)).
  - inv_some H. apply gate_inv_same with (s := s); [exact Hinv|reflexivity..].
  - destruct (stats_conns s !! i) as [k|]; [|discriminate].
    stats_cases H;
      apply gate_inv_same with (s := s); try exact Hinv; reflexivity.
Qed.

Lemma step_bounded cap V s s' :
  step cap V s s' -> bounded s' -> bounded s.
Proof.
  intros [a Ha] Hb. unfold bounded in *.
  pose proof (step_length _ _ _ _ _ Ha). lia.
Qed.

Lemma reachable_gate_inv cap V s :
  0 <= cap -> reachable cap V s -> bounded s -> gate_inv cap s.
Proof.
  intros Hc Hr. induction Hr as [|s s' Hr IH Hst]; intros Hb.
  - apply gate_inv_init, Hc.
  - destruct Hst as [a Ha].
    eapply gate_inv_step; [exact Hb| |exact Ha].
    apply IH. eapply step_bounded; [econstructor; exact Ha | exact Hb].
Qed.

(** ** The statements of Acquire *)

Ltac pc_goto Hl :=
  unfold pc_of; simpl;
  rewrite list_lookup_insert_eq by (eapply lookup_lt_Some; exact Hl);
  reflexivity.

Lemma run_reachable cap V acts s s' :
  reachable cap V s -> run cap V acts s = Some s' -> reachable cap V s'.
Proof.
  revert s. induction acts as [|a acts IH]; intros s Hr H; simpl in H.
  - congruence.
  - destruct (step_fn cap V s a) as [s1|] eqn:Hs; [|discriminate].
    apply (IH s1); [|exact H]. eapply reachable_step; [exact Hr|].
    econstructor; exact Hs.
Qed.

(** A step that changes a counter is a statement of the goroutine that
    holds the mutex. *)
Lemma step_mutates_locked cap V s a s' :
  gate_inv cap s -> step_fn cap V s a = Some s' ->
  active s' <> active s \/ waiting s' <> waiting s ->
  exists t e, a = Run t e /\ wCond_L s = Some t.
Proof.
  intros Hinv H Hch.
  unfold step_fn in H. destruct (crashed s); [discriminate|].
  destruct a as [|t e|t d| |i].
  - inv_some H. simpl in Hch. lia.
  - destruct (clients s !! t) as [c|] eqn:Hl; [|discriminate].
    exists t, e. split; [reflexivity|].
    pose proof (gi_crit _ _ Hinv _ _ Hl) as Hcr.
    destruct V; run_cases H c; simpl in Hcr, Hch;
    try (exact (Hcr eq_refl)); try lia;
    try match goal with
        | Hs : cond_signal _ _ = Some _ |- _ =>
            eapply cond_signal_frame in Hs as (_ & Ha & Hw & _);
            [|exact Hl|congruence]; lia
        end.
  - destruct (clients s !! t) as [c|] eqn:Hl; [|discriminate].
    destruct V, d; copier_cases H; simpl in Hch; lia.
  - inv_some H. simpl in Hch. lia.
  - destruct (stats_conns s !! i) as [k|]; [|discriminate].
    stats_cases H; simpl in Hch; lia.
Qed.

(** The statements of [pre] / [setup], one by one. *)
Lemma acquire_steps cap V s t e c s' :
  gate_inv cap s -> bounded s ->
  clients s !! t = Some c ->
  step_fn cap V s (Run t e) = Some s' ->
  match c_pc c with
  | AcqIncWaiting =>
      waiting s' = waiting s + 1 /\ active s' = active s
      /\ pc_of s' t = Some AcqTest
  | AcqTest =>
      waiting s' = waiting s /\ active s' = active s /\
      ((active s = cap /\ pc_of s' t = Some AcqParked /\ wCond_L s' = None) \/
       (active s < cap /\ pc_of s' t = Some AcqDecWaiting
        /\ wCond_L s' = Some t))
  | AcqWoken =>
      waiting s' = waiting s /\ active s' = active s /\
      wCond_L s = None /\ wCond_L s' = Some t /\ pc_of s' t = Some AcqTest
  | AcqDecWaiting =>
      waiting s' = waiting s - 1 /\ active s' = active s
      /\ pc_of s' t = Some AcqIncActive
  | AcqIncActive =>
      active s' = active s + 1 /\ active s' <= cap /\ waiting s' = waiting s
      /\ pc_of s' t = Some AcqUnlock
  | AcqUnlock =>
      active s' = active s /\ waiting s' = waiting s /\ wCond_L s' = None
      /\ pc_of s' t = Some Dial
  | _ => True
  end.
Proof.
  intros Hinv Hb Hl H. unfold bounded in Hb.
  pose proof (Zcount_nonneg counted_waiting (clients s)) as Hw0.
  pose proof (Zcount_nonneg holds_slot (clients s)) as Ha0.
  pose proof (Zcount_room counted_waiting _ _ _ Hl) as Hw1.
  pose proof (Zcount_room holds_slot _ _ _ Hl) as Ha1.
  pose proof (Zcount_le_length counted_waiting (clients s)) as Hw2.
  pose proof (Zcount_le_length holds_slot (clients s)) as Ha2.
  pose proof (gi_waiting _ _ Hinv) as Hw.
  pose proof (gi_active _ _ Hinv) as Ha.
  pose proof (gi_cap _ _ Hinv) as Hcap.
  pose proof (gi_crit _ _ Hinv _ _ Hl) as Hcr.
  pose proof (gi_passed _ _ Hinv _ _ Hl) as Had.
  unfold step_fn in H. destruct (crashed s); [discriminate|].
  rewrite Hl in H.
  destruct V; run_cases H c; try exact I; simpl in *;
    try (specialize (Hw1 eq_refl)); try (specialize (Ha1 eq_refl));
    try (specialize (Hcr eq_refl)); try (specialize (Had eq_refl));
    rewrite ?wrap_int_id by lia;
    repeat match goal with
    | |- _ /\ _ => split
    | |- pc_of _ _ = _ => pc_goto Hl
    | Heq : (_ =? _) = true |- _ \/ _ => apply Z.eqb_eq in Heq; left
    | Heq : (_ =? _) = false |- _ \/ _ => apply Z.eqb_neq in Heq; right
    end; try reflexivity; try lia; try congruence.
Qed.

(** Which statements of [pre] / [setup] can run: a parked caller cannot,
    the statements under the lock always can. *)
Lemma acquire_enabled cap V s t e c :
  crashed s = false -> clients s !! t = Some c ->
  match c_pc c with
  | AcqParked => step_fn cap V s (Run t e) = None
  | AcqIncWaiting | AcqTest | AcqDecWaiting | AcqIncActive | AcqUnlock =>
      is_Some (step_fn cap V s (Run t e))
  | _ => True
  end.
Proof.
  intros Hc Hl. unfold step_fn. rewrite Hc, Hl.
  destruct V; unfold proxy, mind, pre, setup;
    destruct (c_pc c); try exact I; try reflexivity;
    try (destruct (active s =? cap)); eauto.
Qed.

(** ** Invariants of the session records *)

(** Resolve a lookup in the client list after a step. *)
Ltac lookup_cases Hl' :=
  simpl in Hl';
  repeat match type of Hl' with
  | <[?u := ?x]> ?l !! ?t = Some _ =>
      let Hne := fresh "Hne" in
      destruct (decide (u = t)) as [<-|Hne];
      [ rewrite list_lookup_insert_eq in Hl'
          by (rewrite ?length_insert; eapply lookup_lt_Some; eassumption);
        injection Hl' as <-
      | rewrite list_lookup_insert_ne in Hl' by exact Hne ]
  end.

(** A property of the session records that every statement preserves
    holds in every reachable state. *)
Lemma client_inv_reachable cap V (P : client -> Prop) :
  P new_client ->
  (forall s a s' t c',
     step_fn cap V s a = Some s' ->
     (forall u c, clients s !! u = Some c -> P c) ->
     clients s' !! t = Some c' -> P c') ->
  forall s, reachable cap V s ->
  forall t c, clients s !! t = Some c -> P c.
Proof.
  intros Hnew Hstep s Hr. induction Hr as [|s s' Hr IH [a Ha]].
  - intros t c Hl. simpl in Hl. rewrite lookup_nil in Hl. discriminate.
  - intros t c Hl. eapply Hstep; eauto.
Qed.

(** The cases of a step, seen from the record of session [t] after it. *)
Ltac client_step_cases H Hall Hl' :=
  let u := fresh "u" in let e := fresh "e" in let d := fresh "d" in
  let i := fresh "i" in let cu := fresh "cu" in let Hu := fresh "Hu" in
  let HPu := fresh "HPu" in
  unfold step_fn in H;
  match type of H with
  | (if crashed ?s then _ else _) = _ => destruct (crashed s); [discriminate H|]
  end;
  match type of H with
  | match ?a with _ => _ end = _ => destruct a as [|u e|u d| |i]
  end;
  [ inv_some H; simpl in Hl';
    destruct (lookup_snoc_client _ _ _ _ Hl') as [Hl0 | ->];
    [exact (Hall _ _ Hl0) | ]
  | match type of H with
    | match clients ?s !! _ with _ => _ end = _ =>
        destruct (clients s !! u) as [cu|] eqn:Hu; [|discriminate H];
        pose proof (Hall _ _ Hu) as HPu;
        match goal with V : variant |- _ => destruct V end;
        run_cases H cu;
        try match goal with
            | Hs : cond_signal _ _ = Some _ |- _ =>
                let k := fresh "k" in let Hk := fresh "Hk" in
                let Hpk := fresh "Hpk" in let HPk := fresh "HPk" in
                destruct (cond_signal_cases _ _ _ Hs) as [-> | (k & Hk & Hpk & ->)];
                [| pose proof (Hall _ _ Hk) as HPk]
            end;
        lookup_cases Hl'; try exact (Hall _ _ Hl')
    end
  | match type of H with
    | match clients ?s !! _ with _ => _ end = _ =>
        destruct (clients s !! u) as [cu|] eqn:Hu; [|discriminate H];
        pose proof (Hall _ _ Hu) as HPu;
        match goal with V : variant |- _ => destruct V end;
        destruct d; copier_cases H;
        lookup_cases Hl'; try exact (Hall _ _ Hl')
    end
  | inv_some H; simpl in Hl'; exact (Hall _ _ Hl')
  | match type of H with
    | match stats_conns ?s !! _ with _ => _ end = _ =>
        let k := fresh "k" in
        destruct (stats_conns s !! i) as [k|]; [|discriminate H];
        stats_cases H; simpl in Hl';
        exact (Hall _ _ Hl')
    end ].

Ltac pump_prep P :=
  repeat match goal with
  | Hall : forall u c, _ !! u = Some c -> _ |- _ => clear Hall
  end;
  unfold P in *; simpl in *;
  repeat match goal with
  | Hp : c_pc ?c = _, HP : context [match c_pc ?c with _ => _ end] |- _ =>
      rewrite Hp in HP
  | Hq : (_ =? _) = true |- _ => apply Z.eqb_eq in Hq
  | Hq : (_ <? _) = false |- _ => apply Z.ltb_ge in Hq
  | Hq : c_to ?c = _ |- _ => rewrite Hq in *; clear Hq
  | Hq : c_from ?c = _ |- _ => rewrite Hq in *; clear Hq
  end.

Ltac pump_split :=
  repeat match goal with
  | |- context [match c_pc ?c with _ => _ end] => destruct (c_pc c)
  | |- context [c_to ?c] => destruct (c_to c)
  | |- context [c_from ?c] => destruct (c_from c)
  | HP : context [c_to ?c] |- _ => destruct (c_to c)
  | HP : context [c_from ?c] |- _ => destruct (c_from c)
  end.

Ltac pump_finish P :=
  pump_prep P;
  first [ solve [intuition congruence]
        | pump_split; unfold live in *; simpl in *;
          solve [intuition (try congruence; try lia)] ].

Lemma pump_closures_reachable cap s t c :
  reachable cap Closures s -> clients s !! t = Some c -> pump_closures c.
Proof.
  intros Hr Hl.
  eapply (client_inv_reachable cap Closures pump_closures);
    [ | | exact Hr | exact Hl]; clear.
  - unfold pump_closures. simpl. auto.
  - intros s a s' t c' H Hall Hl'.
    remember Closures as V eqn:HV.
    client_step_cases H Hall Hl'; try discriminate HV.
    all: pump_finish pump_closures.
Qed.

Lemma pump_struct_reachable cap s t c :
  reachable cap Struct s -> clients s !! t = Some c -> pump_struct c.
Proof.
  intros Hr Hl.
  eapply (client_inv_reachable cap Struct pump_struct);
    [ | | exact Hr | exact Hl]; clear.
  - unfold pump_struct. simpl. intuition congruence.
  - intros s a s' t c' H Hall Hl'.
    remember Struct as V eqn:HV.
    client_step_cases H Hall Hl'; try discriminate HV.
    all: pump_finish pump_struct.
Qed.

(** ** Events per session *)

Lemma count_ev_app f t tr1 tr2 :
  count_ev f t (tr1 ++ tr2) = (count_ev f t tr1 + count_ev f t tr2)%nat.
Proof. induction tr1 as [|ev tr1 IH]; simpl; [reflexivity|]. rewrite IH. lia. Qed.

Lemma count_ev_other f t u evs :
  Forall (fun ev => ev_session ev = u) evs -> u <> t -> count_ev f t evs = 0%nat.
Proof.
  intros Hall Hne. induction Hall as [|ev evs Hev _ IH]; simpl; [reflexivity|].
  rewrite IH. destruct (Nat.eqb_spec (ev_session ev) t); [congruence|].
  rewrite andb_false_r. reflexivity.
Qed.

Lemma count_ev_fresh f n tr :
  Forall (fun ev => (ev_session ev < n)%nat) tr -> count_ev f n tr = 0%nat.
Proof.
  intros Hall. induction Hall as [|ev tr Hev _ IH]; simpl; [reflexivity|].
  rewrite IH. destruct (Nat.eqb_spec (ev_session ev) n); [lia|].
  rewrite andb_false_r. reflexivity.
Qed.

Lemma ev_inv_init V : ev_inv V init.
Proof.
  split; simpl; try (intros t c Hl; rewrite lookup_nil in Hl; discriminate).
  constructor.
Qed.

Lemma ev_inv_same V s s' :
  ev_inv V s -> clients s' = clients s -> trace s' = trace s -> ev_inv V s'.
Proof.
  intros [H1 H2 H3 H4 H5] Hc Ht. split; rewrite ?Hc, ?Ht; assumption.
Qed.

Lemma ev_inv_upd V s s' u c c' evs :
  ev_inv V s ->
  clients s !! u = Some c ->
  clients s' = <[u := c']> (clients s) ->
  trace s' = trace s ++ evs ->
  Forall (fun ev => ev_session ev = u) evs ->
  (count_ev is_acquire u evs + exp_acq (c_pc c) = exp_acq (c_pc c'))%nat ->
  (count_ev is_release u evs + exp_rel (c_pc c) = exp_rel (c_pc c'))%nat ->
  (count_ev is_outcome u evs + exp_outcome V (c_pc c)
   = exp_outcome V (c_pc c'))%nat ->
  (count_ev is_log u evs + exp_logs V (c_pc c) = exp_logs V (c_pc c'))%nat ->
  ev_inv V s'.
Proof.
  intros [H1 H2 H3 H4 H5] Hl Hc Ht Hevs Ha Hr Ho Hg.
  assert (Hlt : (u < length (clients s))%nat) by (eapply lookup_lt_Some; eauto).
  assert (Hcase : forall t k, clients s' !! t = Some k ->
            (t = u /\ k = c') \/ (t <> u /\ clients s !! t = Some k)).
  { intros t k Hk. rewrite Hc in Hk. destruct (decide (u = t)) as [<-|Hne].
    - rewrite list_lookup_insert_eq in Hk by exact Hlt. left. split; congruence.
    - rewrite list_lookup_insert_ne in Hk by exact Hne. right. auto. }
  split; rewrite ?Ht.
  - intros t k Hk. rewrite count_ev_app.
    destruct (Hcase t k Hk) as [[-> ->] | [Hne Hk']].
    + rewrite (H1 _ _ Hl). lia.
    + rewrite (H1 _ _ Hk'), (count_ev_other _ t u) by auto. lia.
  - intros t k Hk. rewrite count_ev_app.
    destruct (Hcase t k Hk) as [[-> ->] | [Hne Hk']].
    + rewrite (H2 _ _ Hl). lia.
    + rewrite (H2 _ _ Hk'), (count_ev_other _ t u) by auto. lia.
  - intros t k Hk. rewrite count_ev_app.
    destruct (Hcase t k Hk) as [[-> ->] | [Hne Hk']].
    + rewrite (H3 _ _ Hl). lia.
    + rewrite (H3 _ _ Hk'), (count_ev_other _ t u) by auto. lia.
  - intros t k Hk. rewrite count_ev_app.
    destruct (Hcase t k Hk) as [[-> ->] | [Hne Hk']].
    + rewrite (H4 _ _ Hl). lia.
    + rewrite (H4 _ _ Hk'), (count_ev_other _ t u) by auto. lia.
  - rewrite Hc, length_insert. apply Forall_app. split; [exact H5|].
    eapply Forall_impl; [|exact Hevs]. simpl. intros ev ->. exact Hlt.
Qed.

Ltac ev_upd Hinv Hl u c :=
  eapply (ev_inv_upd _ _ _ u c);
  [ exact Hinv | exact Hl | reflexivity
  | first [ reflexivity | symmetry; apply app_nil_r ]
  | repeat constructor
  | simpl; rewrite ?Nat.eqb_refl; try reflexivity ..].

Lemma lookup_snoc_index (l : list client) x t c :
  (l ++ [x]) !! t = Some c -> l !! t = Some c \/ (t = length l /\ c = x).
Proof.
  intros Hl. destruct (decide (t < length l)%nat).
  - rewrite lookup_app_l in Hl by lia. auto.
  - apply lookup_lt_Some in Hl as Hlt. rewrite length_app in Hlt. simpl in Hlt.
    assert (t = length l) as -> by lia.
    rewrite lookup_app_r, Nat.sub_diag in Hl by lia. simpl in Hl.
    right. split; congruence.
Qed.

Lemma ev_inv_signal V w s s1 :
  ev_inv V s -> cond_signal w s = Some s1 -> ev_inv V s1.
Proof.
  intros Hinv Hs.
  destruct (cond_signal_cases _ _ _ Hs) as [-> | (k & Hk & Hpc & ->)].
  - exact Hinv.
  - ev_upd Hinv Hk w k; rewrite Hpc; destruct V; reflexivity.
Qed.

Lemma ev_inv_step cap V s a s' :
  ev_inv V s -> step_fn cap V s a = Some s' -> ev_inv V s'.
Proof.
  intros Hinv H.
  unfold step_fn in H. destruct (crashed s); [discriminate|].
  destruct a as [|t e|t d| |i].
  - inv_some H. destruct Hinv as [H1 H2 H3 H4 H5].
    split; simpl;
      try (intros t c Hl;
           destruct (lookup_snoc_index _ _ _ _ Hl) as [Hl' | [-> ->]];
           [eauto|]; rewrite count_ev_fresh by exact H5; destruct V; reflexivity).
    rewrite length_app. simpl. eapply Forall_impl; [|exact H5].
    simpl. intros; lia.
  - destruct (clients s !! t) as [c|] eqn:Hl; [|discriminate].
    destruct V; run_cases H c;
    try (apply ev_inv_same with (s := s); [exact Hinv|reflexivity..]);
    try match goal with
        | Hs : cond_signal _ _ = Some ?s1 |- _ =>
            pose proof (ev_inv_signal _ _ _ _ Hinv Hs) as Hinv1;
            eapply cond_signal_frame in Hs as (Hl1 & _);
            [|exact Hl|congruence];
            ev_upd Hinv1 Hl1 t c; rewrite Hpc; reflexivity
        end;
    try (ev_upd Hinv Hl t c; rewrite ?Hpc; reflexivity).
  - destruct (clients s !! t) as [c|] eqn:Hl; [|discriminate].
    destruct V, d; copier_cases H;
    try (apply ev_inv_same with (s := s); [exact Hinv|reflexivity..]);
    try (ev_upd Hinv Hl t c;
         try match goal with Hp : c_pc c = _ |- _ => rewrite Hp end;
         reflexivity).
  - inv_some H. apply ev_inv_same with (s := s); [exact Hinv|reflexivity..].
  - destruct (stats_conns s !! i) as [k|]; [|discriminate].
    stats_cases H;
      apply ev_inv_same with (s := s); try exact Hinv; reflexivity.
Qed.

Lemma reachable_ev_inv cap V s : reachable cap V s -> ev_inv V s.
Proof.
  intros Hr. induction Hr as [|s s' Hr IH [a Ha]].
  - apply ev_inv_init.
  - eapply ev_inv_step; eauto.
Qed.

(** ** The stats line *)

Lemma string_app_assoc (s1 s2 s3 : string) :
  ((s1 ++ s2) ++ s3)%string = (s1 ++ (s2 ++ s3))%string.
Proof. induction s1 as [|a s1 IH]; simpl; [reflexivity|]. rewrite IH. reflexivity. Qed.

Lemma count_char_app a s1 s2 :
  count_char a (s1 ++ s2) = (count_char a s1 + count_char a s2)%nat.
Proof. induction s1 as [|b s1 IH]; simpl; [reflexivity|]. rewrite IH. lia. Qed.

Lemma count_LF_uint d : count_char LF (NilEmpty.string_of_uint d) = 0%nat.
Proof. induction d; simpl; auto. Qed.

Lemma fmt_d_no_LF z : count_char LF (fmt_d z) = 0%nat.
Proof.
  unfold fmt_d, NilZero.string_of_int, NilZero.string_of_uint.
  destruct (Z.to_int z) as [d|d]; destruct d; simpl;
    rewrite ?count_LF_uint; reflexivity.
Qed.

Lemma fmt_d_roundtrip z :
  Z.of_int <$> NilZero.int_of_string (fmt_d z) = Some z.
Proof.
  unfold fmt_d. rewrite NilZero.isi.
  - simpl. f_equal. apply DecimalZ.of_to.
  - destruct z; simpl; try discriminate.
    intros [= Hp]. revert Hp. apply Unsigned.to_uint_nonnil.
  - destruct z; simpl; try discriminate.
    intros [= Hp]. revert Hp. apply Unsigned.to_uint_nonnil.
Qed.

Lemma stats_line_one_LF a w : count_char LF (protocol_line a w) = 1%nat.
Proof.
  unfold protocol_line.
  rewrite !count_char_app, !fmt_d_no_LF. reflexivity.
Qed.

Lemma step_stats cap V s a s' j k' :
  step_fn cap V s a = Some s' ->
  stats_conns s' !! j = Some k' ->
  stats_conns s !! j = Some k' \/
  (a = AcceptStats /\ j = length (stats_conns s) /\ k' = new_stats) \/
  (exists o k, a = RunStats j o /\ stats_conns s !! j = Some k /\
               stats j o k s = Some s').
Proof.
  intros H Hj.
  unfold step_fn in H. destruct (crashed s); [discriminate|].
  destruct a as [|t e|t d| |i o].
  - inv_some H. left. exact Hj.
  - destruct (clients s !! t) as [c|] eqn:Hl; [|discriminate].
    destruct V; run_cases H c; simpl in Hj; auto;
    match goal with
    | Hs : cond_signal _ _ = Some _ |- _ =>
        eapply cond_signal_frame in Hs as (_&_&_&_&_&_&_&_&Hst);
        [|exact Hl|congruence]; rewrite Hst in Hj; auto
    end.
  - destruct (clients s !! t) as [c|] eqn:Hl; [|discriminate].
    destruct V, d; copier_cases H; simpl in Hj; auto.
  - inv_some H. simpl in Hj.
    destruct (decide (j < length (stats_conns s))%nat).
    + rewrite lookup_app_l in Hj by lia. auto.
    + apply lookup_lt_Some in Hj as Hlt. rewrite length_app in Hlt.
      simpl in Hlt. assert (j = length (stats_conns s)) as -> by lia.
      rewrite lookup_app_r, Nat.sub_diag in Hj by lia. simpl in Hj.
      right. left. repeat split. congruence.
  - destruct (stats_conns s !! i) as [k|] eqn:Hk; [|discriminate].
    destruct (decide (i = j)) as [<-|Hne].
    + right. right. exists o, k. auto.
    + left. stats_cases H; simpl in Hj;
        rewrite list_lookup_insert_ne in Hj by exact Hne; exact Hj.
Qed.

(** The record of a stats connection after a step of its handler. *)
Lemma stats_next i o k s s' :
  stats_conns s !! i = Some k -> stats i o k s = Some s' ->
  exists k', stats_conns s' !! i = Some k' /\
    ((st_pc k = SEval /\ o = OpActive /\ st_active k = None /\
      k' = mkStats (after_load (Some (active s)) (st_waiting k))
                   (Some (active s)) (st_waiting k) (st_io k)) \/
     (st_pc k = SEval /\ o = OpWaiting /\ st_waiting k = None /\
      k' = mkStats (after_load (st_active k) (Some (waiting s)))
                   (st_active k) (Some (waiting s)) (st_io k)) \/
     (st_pc k = SFprintf /\ exists a w,
        st_active k = Some a /\ st_waiting k = Some w /\
        k' = mkStats SClose (Some a) (Some w)
                     (st_io k ++ [IoWrite (stats_line a w)])) \/
     (st_pc k = SClose /\
      k' = mkStats SDone (st_active k) (st_waiting k) (st_io k ++ [IoClose]))).
Proof.
  intros Hk H.
  assert (Hlt : (i < length (stats_conns s))%nat)
    by (eapply lookup_lt_Some; eauto).
  unfold stats, put_stats in H.
  destruct (st_pc k) eqn:Hp.
  - destruct o.
    + destruct (st_active k) eqn:Ha; [discriminate|]. inv_some H.
      eexists. split; [simpl; apply list_lookup_insert_eq; exact Hlt|].
      left. auto.
    + destruct (st_waiting k) eqn:Hw; [discriminate|]. inv_some H.
      eexists. split; [simpl; apply list_lookup_insert_eq; exact Hlt|].
      right. left. auto.
  - destruct (st_active k) as [a|] eqn:Ha; [|discriminate].
    destruct (st_waiting k) as [w|] eqn:Hw; [|discriminate]. inv_some H.
    eexists. split; [simpl; apply list_lookup_insert_eq; exact Hlt|].
    right. right. left. split; [reflexivity|]. exists a, w. auto.
  - inv_some H.
    eexists. split; [simpl; apply list_lookup_insert_eq; exact Hlt|].
    right. right. right. auto.
  - discriminate.
Qed.

Lemma reachable_stats_inv cap V s :
  reachable cap V s -> forall j k, stats_conns s !! j = Some k -> stats_inv k.
Proof.
  intros Hr. induction Hr as [|s s' Hr IH [a Ha]]; intros j k Hj.
  - simpl in Hj. rewrite lookup_nil in Hj. discriminate.
  - destruct (step_stats _ _ _ _ _ _ _ Ha Hj)
      as [Hold | [(_ & _ & ->) | (o & k0 & _ & Hk0 & Hst)]].
    + eapply IH; eauto.
    + unfold stats_inv. simpl. auto.
    + specialize (IH _ _ Hk0).
      destruct (stats_next _ _ _ _ _ Hk0 Hst) as (k1 & Hk1 & Hcase).
      assert (k1 = k) as -> by congruence. clear Hk1.
      unfold stats_inv in *.
      destruct Hcase as [(Hp & _ & Hn & ->) | [(Hp & _ & Hn & ->)
                        | [(Hp & a0 & w0 & Ha0 & Hw0 & ->) | (Hp & ->)]]];
        rewrite Hp in IH; simpl.
      * destruct IH as (Hio & _).
        destruct (st_waiting k0) as [w|]; simpl; eauto.
      * destruct IH as (Hio & _).
        destruct (st_active k0) as [a0|]; simpl; eauto.
      * destruct IH as (Hio & _). rewrite Hio. exists a0, w0. auto.
      * destruct IH as (a0 & w0 & Ha0 & Hw0 & Hio). rewrite Hio.
        exists a0, w0. auto.
Qed.

(** ** Release and the condition variable *)

Lemma existsb_parked_count l :
  (existsb is_parked l = false -> Zcount parked l = 0) /\
  (existsb is_parked l = true -> 0 < Zcount parked l).
Proof.
  unfold Zcount. induction l as [|c l [IH1 IH2]]; simpl.
  - split; [reflexivity | discriminate].
  - unfold is_parked at 1 3. unfold parked at 1 3.
    destruct (c_pc c); simpl; split; intros H; auto; try lia;
      try (specialize (IH1 H); lia); try (specialize (IH2 H); lia).
Qed.

(** [Signal] moves exactly one parked caller to [AcqWoken] when there is
    one, and does nothing otherwise. *)
Lemma signal_counts w s s1 :
  cond_signal w s = Some s1 ->
  (Zcount parked (clients s) = 0 /\ s1 = s) \/
  (0 < Zcount parked (clients s) /\
   Zcount parked (clients s1) = Zcount parked (clients s) - 1 /\
   Zcount woken (clients s1) = Zcount woken (clients s) + 1).
Proof.
  intros Hs. pose proof (existsb_parked_count (clients s)) as [Hz Hp].
  unfold cond_signal in Hs. destruct (existsb is_parked (clients s)).
  - right. split; [auto|].
    destruct (clients s !! w) as [k|] eqn:Hk; [|discriminate].
    unfold is_parked in Hs. destruct (c_pc k) eqn:Hpc; try discriminate.
    inv_some Hs. simpl.
    rewrite !(Zcount_insert _ _ _ _ _ Hk), Hpc. simpl. lia.
  - inv_some Hs. left. auto.
Qed.

(** The statements of [post] / the tail of [teardown], one by one. *)
Lemma release_steps cap V s t e c s' :
  gate_inv cap s -> bounded s ->
  clients s !! t = Some c ->
  step_fn cap V s (Run t e) = Some s' ->
  match c_pc c with
  | RelLock =>
      wCond_L s = None /\ wCond_L s' = Some t /\ active s' = active s
      /\ pc_of s' t = Some RelDecActive
  | RelDecActive =>
      wCond_L s = Some t /\ active s' = active s - 1
      /\ waiting s' = waiting s /\ pc_of s' t = Some RelUnlock
  | RelUnlock =>
      wCond_L s' = None /\ active s' = active s /\ waiting s' = waiting s
      /\ pc_of s' t = Some RelSignal
  | RelSignal =>
      active s' = active s /\ waiting s' = waiting s /\
      ((Zcount parked (clients s) = 0 /\
        Zcount parked (clients s') = 0 /\
        Zcount woken (clients s') = Zcount woken (clients s)) \/
       (0 < Zcount parked (clients s) /\
        Zcount parked (clients s') = Zcount parked (clients s) - 1 /\
        Zcount woken (clients s') = Zcount woken (clients s) + 1))
  | _ => True
  end.
Proof.
  intros Hinv Hb Hl H. unfold bounded in Hb.
  pose proof (Zcount_nonneg holds_slot (clients s)) as Ha0.
  pose proof (Zcount_le_length holds_slot (clients s)) as Ha2.
  pose proof (gi_active _ _ Hinv) as Ha.
  pose proof (gi_crit _ _ Hinv _ _ Hl) as Hcr.
  unfold step_fn in H. destruct (crashed s); [discriminate|].
  rewrite Hl in H.
  destruct V; run_cases H c; try exact I; simpl in *;
    try (specialize (Hcr eq_refl));
    rewrite ?wrap_int_id by lia;
    try match goal with
        | Hs : cond_signal _ _ = Some ?s1 |- _ =>
            pose proof (signal_counts _ _ _ Hs) as Hcnt;
            eapply cond_signal_frame in Hs as (Hl1 & Ha1 & Hw1 & _);
            [|exact Hl|congruence];
            rewrite !(Zcount_insert _ _ _ _ _ Hl1), Hpc; simpl;
            split; [exact Ha1|]; split; [exact Hw1|];
            destruct Hcnt as [[Hz ->] | (Hp & Hc1 & Hc2)]; [left|right]; lia
        end;
    repeat match goal with
    | |- _ /\ _ => split
    | |- pc_of _ _ = _ => pc_goto Hl
    end; try reflexivity; try lia; try congruence.
Qed.

(** ** The copy goroutine left behind *)

(** In the [client] variant, a copy goroutine that reaches its send after
    the session has left [<-done] stays there: no step of the process
    moves it, and the session never returns to the receive. *)
Lemma orphan_step cap s a s' t d c :
  step_fn cap Struct s a = Some s' ->
  clients s !! t = Some c ->
  past_pump (c_pc c) = true -> get_cp d c = CSend ->
  exists c', clients s' !! t = Some c' /\
             past_pump (c_pc c') = true /\ get_cp d c' = CSend.
Proof.
  intros H Hl Hp Hd.
  assert (Hlt : (t < length (clients s))%nat) by (eapply lookup_lt_Some; eauto).
  assert (Hnp : c_pc c <> AcqParked) by (intros Hq; rewrite Hq in Hp; discriminate).
  unfold step_fn in H. destruct (crashed s); [discriminate|].
  destruct a as [|u e|u d'| |i].
  - inv_some H. exists c. simpl. rewrite lookup_app_l by exact Hlt. auto.
  - destruct (clients s !! u) as [cu|] eqn:Hu; [|discriminate].
    destruct (decide (u = t)) as [->|Hne].
    + assert (cu = c) by congruence. subst cu.
      run_cases H c; simpl in Hp; try discriminate Hp;
      try (exists c; split; [exact Hl|]; rewrite Hpc; auto; fail);
      try match goal with
          | Hs : cond_signal _ _ = Some ?s1 |- _ =>
              eapply cond_signal_frame in Hs as (_ & _ & _ & _ & Hlen & _);
              [|exact Hl|congruence]
          end;
      (eexists; split;
       [ simpl; apply list_lookup_insert_eq; lia
       | simpl; destruct d; auto ]).
    + run_cases H cu;
      try match goal with
          | Hs : cond_signal _ _ = Some ?s1 |- _ =>
              eapply cond_signal_frame in Hs as (Hl1 & _);
              [|exact Hl|congruence]
          end;
      exists c; simpl; rewrite ?list_lookup_insert_ne by exact Hne; auto.
  - destruct (clients s !! u) as [cu|] eqn:Hu; [|discriminate].
    destruct (decide (u = t)) as [->|Hne].
    + assert (cu = c) by congruence. subst cu.
      destruct d, d'; copier_cases H; simpl in *; try congruence;
      try (exists c; split; [exact Hl|]; auto; fail);
      try match goal with
          | Hq : c_pc c = WaitPump |- _ => rewrite Hq in Hp; discriminate Hp
          end;
      (eexists; split;
       [ simpl; apply list_lookup_insert_eq; lia | simpl; auto ]).
    + destruct d'; copier_cases H;
      exists c; simpl; rewrite ?list_lookup_insert_ne by exact Hne; auto.
  - inv_some H. exists c. auto.
  - destruct (stats_conns s !! i) as [k|]; [|discriminate].
    stats_cases H; exists c; auto.
Qed.

Lemma orphan_run cap acts : forall s s' t d c,
  run cap Struct acts s = Some s' ->
  clients s !! t = Some c ->
  past_pump (c_pc c) = true -> get_cp d c = CSend ->
  exists c', clients s' !! t = Some c' /\
             past_pump (c_pc c') = true /\ get_cp d c' = CSend.
Proof.
  induction acts as [|a acts IH]; intros s s' t d c H Hl Hp Hd; simpl in H.
  - inv_some H. exists c. auto.
  - destruct (step_fn cap Struct s a) as [s1|] eqn:Hs; [|discriminate].
    destruct (orphan_step _ _ _ _ _ _ _ Hs Hl Hp Hd) as (c1 & Hl1 & Hp1 & Hd1).
    eapply IH; eauto.
Qed.

(** ** Further invariants *)

Lemma lock_inv_init : lock_inv init.
Proof.
  split; simpl.
  - intros t c Hl. rewrite lookup_nil in Hl. discriminate.
  - discriminate.
Qed.

Lemma lock_inv_same s s' :
  lock_inv s ->
  map c_pc (clients s') = map c_pc (clients s) ->
  wCond_L s' = wCond_L s ->
  lock_inv s'.
Proof.
  intros [Hc Hh] Hm Hl'.
  assert (Hlook : forall t c, clients s' !! t = Some c ->
                    exists c0, clients s !! t = Some c0 /\ c_pc c0 = c_pc c).
  { intros t c Hl.
    assert (Hp : map c_pc (clients s') !! t = Some (c_pc c))
      by (rewrite list_lookup_fmap, Hl; reflexivity).
    rewrite Hm, list_lookup_fmap in Hp.
    destruct (clients s !! t) as [c0|]; [|discriminate].
    exists c0. split; [reflexivity|]. simpl in Hp. congruence. }
  assert (Hlook' : forall t c, clients s !! t = Some c ->
                    exists c0, clients s' !! t = Some c0 /\ c_pc c0 = c_pc c).
  { intros t c Hl.
    assert (Hp : map c_pc (clients s) !! t = Some (c_pc c))
      by (rewrite list_lookup_fmap, Hl; reflexivity).
    rewrite <- Hm, list_lookup_fmap in Hp.
    destruct (clients s' !! t) as [c0|]; [|discriminate].
    exists c0. split; [reflexivity|]. simpl in Hp. congruence. }
  split.
  - intros t c Hl Hin. destruct (Hlook t c Hl) as (c0 & Hl0 & Hpc).
    rewrite Hl'. apply (Hc t c0 Hl0). congruence.
  - intros t Ht. rewrite Hl' in Ht. destruct (Hh t Ht) as (c & Hl & Hin).
    destruct (Hlook' t c Hl) as (c0 & Hl0 & Hpc).
    exists c0. split; [exact Hl0 | congruence].
Qed.

Lemma lock_inv_upd s s' t c c' :
  lock_inv s ->
  clients s !! t = Some c ->
  clients s' = <[t := c']> (clients s) ->
  (in_crit (c_pc c') = true -> wCond_L s' = Some t) ->
  (wCond_L s' = Some t -> in_crit (c_pc c') = true) ->
  (wCond_L s' = wCond_L s \/
   (wCond_L s = None /\ wCond_L s' = Some t) \/
   (wCond_L s = Some t /\ wCond_L s' = None)) ->
  lock_inv s'.
Proof.
  intros [Hc Hh] Hl Hcl Hin Hout Hlk.
  assert (Hlt : (t < length (clients s))%nat) by (eapply lookup_lt_Some; eauto).
  split.
  - intros u k Hk Hcrit. rewrite Hcl in Hk.
    destruct (decide (t = u)) as [<-|Hne].
    + rewrite list_lookup_insert_eq in Hk by exact Hlt.
      injection Hk as <-. auto.
    + rewrite list_lookup_insert_ne in Hk by exact Hne.
      pose proof (Hc u k Hk Hcrit) as Hold.
      destruct Hlk as [Hlk | [[Hlk _] | [Hlk _]]]; congruence.
  - intros u Hu. rewrite Hcl.
    destruct (decide (t = u)) as [<-|Hne].
    + exists c'. rewrite list_lookup_insert_eq by exact Hlt. auto.
    + rewrite list_lookup_insert_ne by exact Hne.
      apply Hh. destruct Hlk as [Hlk | [[_ Hlk] | [_ Hlk]]]; congruence.
Qed.

Lemma lock_inv_signal w s s1 :
  lock_inv s -> cond_signal w s = Some s1 -> lock_inv s1.
Proof.
  intros Hinv Hs.
  destruct (cond_signal_cases _ _ _ Hs) as [-> | (k & Hk & Hpc & ->)].
  - exact Hinv.
  - eapply (lock_inv_upd s _ w k); [exact Hinv | exact Hk | reflexivity | ..];
      simpl; auto; try discriminate.
    intros Hw. destruct (li_holder _ Hinv _ Hw) as (c & Hl & Hin).
    rewrite Hk in Hl. injection Hl as <-. rewrite Hpc in Hin. discriminate.
Qed.

Lemma lock_inv_step cap V s a s' :
  lock_inv s -> step_fn cap V s a = Some s' -> lock_inv s'.
Proof.
  intros Hinv H.
  unfold step_fn in H. destruct (crashed s); [discriminate|].
  destruct a as [|t e|t d| |i].
  - inv_some H. destruct Hinv as [Hc Hh]. split; simpl.
    + intros t c Hl Hin.
      destruct (lookup_snoc_client _ _ _ _ Hl) as [Hl' | ->]; eauto.
      discriminate.
    + intros t Ht. destruct (Hh t Ht) as (c & Hl & Hin).
      exists c. split; [|exact Hin].
      rewrite lookup_app_l; [exact Hl|]. eapply lookup_lt_Some; eauto.
  - destruct (clients s !! t) as [c|] eqn:Hl; [|discriminate].
    pose proof (li_crit _ Hinv _ _ Hl) as Hcr.
    assert (Hrev : wCond_L s = Some t -> in_crit (c_pc c) = true).
    { intros Ht. destruct (li_holder _ Hinv _ Ht) as (c0 & Hl0 & Hin).
      congruence. }
    destruct V; run_cases H c; simpl in Hcr, Hrev;
    try (apply lock_inv_same with (s := s); [exact Hinv|reflexivity..]);
    try match goal with
        | Hs : cond_signal _ _ = Some ?s1 |- _ =>
            pose proof (lock_inv_signal _ _ _ Hinv Hs) as Hinv1;
            eapply cond_signal_frame in Hs as (Hl1 & _ & _ & Hk1 & _);
            [|exact Hl|congruence];
            eapply (lock_inv_upd s1 _ t c);
            [exact Hinv1 | exact Hl1 | reflexivity | ..];
            simpl; rewrite ?Hk1; auto; try discriminate;
            intros Ht; specialize (Hrev Ht); discriminate
        end;
    try (eapply (lock_inv_upd s _ t c);
         [exact Hinv | exact Hl | reflexivity | ..];
         simpl; auto; try discriminate; try congruence;
         try solve [intros Ht; specialize (Hrev Ht); discriminate];
         try solve [intuition congruence]).
  - destruct (clients s !! t) as [c|] eqn:Hl; [|discriminate].
    pose proof (li_crit _ Hinv _ _ Hl) as Hcr.
    assert (Hrev : wCond_L s = Some t -> in_crit (c_pc c) = true).
    { intros Ht. destruct (li_holder _ Hinv _ Ht) as (c0 & Hl0 & Hin).
      congruence. }
    destruct V, d; copier_cases H;
    try (apply lock_inv_same with (s := s); [exact Hinv|reflexivity..]);
    try (eapply (lock_inv_upd s _ t c);
         [exact Hinv | exact Hl | reflexivity | ..];
         simpl; auto;
         try match goal with
             | Hp : c_pc c = _ |- _ =>
                 rewrite Hp in Hrev; simpl in Hrev;
                 first [ discriminate
                       | intros Ht; specialize (Hrev Ht); discriminate ]
             end).
  - inv_some H. apply lock_inv_same with (s := s); [exact Hinv|reflexivity..].
  - destruct (stats_conns s !! i) as [k|]; [|discriminate].
    stats_cases H;
      apply lock_inv_same with (s := s); try exact Hinv; reflexivity.
Qed.

Lemma reachable_lock_inv cap V s : reachable cap V s -> lock_inv s.
Proof.
  intros Hr. induction Hr as [|s s' Hr IH [a Ha]].
  - apply lock_inv_init.
  - eapply lock_inv_step; eauto.
Qed.

Ltac sock_finish P :=
  pump_prep P;
  try match goal with
      | HP : context [match c_pc ?c with _ => _ end] |- _ =>
          destruct (c_pc c); try contradiction
      end;
  unfold outcome_closures, outcome_struct in *; simpl in *;
  repeat match goal with
  | H : _ /\ _ |- _ => destruct H
  | H : exists _, _ |- _ => destruct H
  | H : _ \/ _ |- _ => destruct H
  end;
  repeat match goal with
  | Hc : close_sock ?x = _, Hx : ?x = _ |- _ => rewrite Hx in Hc; simpl in Hc
  | Hc : Some _ = Some _ |- _ => injection Hc as <-
  | Hc : Some _ = None |- _ => discriminate Hc
  | Hc : None = Some _ |- _ => discriminate Hc
  end;
  first [ contradiction
        | congruence
        | solve [repeat split; eauto; congruence]
        | solve [split; [congruence|]; left; repeat split; eauto; congruence]
        | solve [split; [congruence|]; right; repeat split; eauto; congruence]
        | solve [left; repeat split; eauto; congruence]
        | solve [right; repeat split; eauto; congruence] ].

Lemma sock_closures_reachable cap s t c :
  reachable cap Closures s -> clients s !! t = Some c -> sock_closures c.
Proof.
  intros Hr Hl.
  eapply (client_inv_reachable cap Closures sock_closures);
    [ | | exact Hr | exact Hl]; clear.
  - unfold sock_closures. simpl. auto.
  - intros s a s' t c' H Hall Hl'.
    remember Closures as V eqn:HV.
    client_step_cases H Hall Hl'; try discriminate HV.
    all: sock_finish sock_closures.
Qed.

Lemma sock_struct_reachable cap s t c :
  reachable cap Struct s -> clients s !! t = Some c -> sock_struct c.
Proof.
  intros Hr Hl.
  eapply (client_inv_reachable cap Struct sock_struct);
    [ | | exact Hr | exact Hl]; clear.
  - unfold sock_struct. simpl. auto.
  - intros s a s' t c' H Hall Hl'.
    remember Struct as V eqn:HV.
    client_step_cases H Hall Hl'; try discriminate HV.
    all: sock_finish sock_struct.
Qed.

Lemma wg_struct_reachable cap s t c :
  reachable cap Struct s -> clients s !! t = Some c -> wg_struct c.
Proof.
  intros Hr Hl.
  eapply (client_inv_reachable cap Struct wg_struct);
    [ | | exact Hr | exact Hl]; clear.
  - unfold wg_struct. simpl. auto.
  - intros s a s' t c' H Hall Hl'.
    remember Struct as V eqn:HV.
    client_step_cases H Hall Hl'; try discriminate HV.
    all: pump_prep wg_struct.
    all: try match goal with
      | |- context [match c_pc ?c with _ => _ end] => destruct (c_pc c)
      end.
    all: repeat match goal with
      | |- context [c_to ?c] => destruct (c_to c)
      | |- context [c_from ?c] => destruct (c_from c)
      | HP : context [c_to ?c] |- _ => destruct (c_to c)
      | HP : context [c_from ?c] |- _ => destruct (c_from c)
      end.
    all: unfold owes_done in *; simpl in *.
    all: solve [intuition (try congruence; try lia)].
Qed.

(** ** What the sessions never do *)

(** [proxy] never panics: it unlocks only the mutex it holds, calls
    [w.Done()] at most twice and closes only sockets it has. *)
Lemma closures_step_safe cap s a s' :
  reachable cap Closures s -> crashed s = false ->
  step_fn cap Closures s a = Some s' -> crashed s' = false.
Proof.
  intros Hr Hc H.
  pose proof (reachable_lock_inv _ _ _ Hr) as Hlock.
  unfold step_fn in H. rewrite Hc in H.
  destruct a as [|t e|t d| |i].
  - inv_some H. exact Hc.
  - destruct (clients s !! t) as [c|] eqn:Hl; [|discriminate].
    pose proof (li_crit _ Hlock _ _ Hl) as Hcr.
    pose proof (sock_closures_reachable _ _ _ _ Hr Hl) as Hs.
    unfold sock_closures, outcome_closures in Hs.
    run_cases H c; simpl in Hcr, Hs; simpl; try exact Hc;
    try (specialize (Hcr eq_refl); discriminate Hcr);
    try match goal with
        | Hq : cond_signal _ _ = Some _ |- _ =>
            eapply cond_signal_frame in Hq as (_&_&_&_&_&Hcr1&_);
            [|exact Hl|congruence]; congruence
        end;
    exfalso;
    repeat match goal with
    | Hx : _ /\ _ |- _ => destruct Hx
    | Hx : _ \/ _ |- _ => destruct Hx
    end;
    match goal with
    | Hq : close_sock ?x = None, Hx : ?x = _ |- _ =>
        rewrite Hx in Hq; discriminate Hq
    end.
  - destruct (clients s !! t) as [c|] eqn:Hl; [|discriminate].
    pose proof (pump_closures_reachable _ _ _ _ Hr Hl) as Hp.
    unfold pump_closures in Hp.
    destruct d; copier_cases H; simpl; try exact Hc; exfalso;
    match goal with
    | Hq : (_ <? _) = true |- _ => apply Z.ltb_lt in Hq
    end;
    destruct (c_pc c); simpl in *;
    repeat match goal with
    | Hx : c_to ?c = _ |- _ => rewrite Hx in *; clear Hx
    | Hx : c_from ?c = _ |- _ => rewrite Hx in *; clear Hx
    end;
    try (destruct (c_from c)); try (destruct (c_to c));
    unfold live in *; intuition (try congruence; try lia).
  - inv_some H. exact Hc.
  - destruct (stats_conns s !! i) as [k|]; [|discriminate].
    stats_cases H; exact Hc.
Qed.

(** [client.mind] panics at one statement only: [c.server.Close()] of
    [teardown], when the dial has failed. *)
Lemma struct_step_panic cap s a s' :
  reachable cap Struct s -> crashed s = false ->
  step_fn cap Struct s a = Some s' -> crashed s' = true ->
  exists t e c m, a = Run t e /\ s' = panic s /\ clients s !! t = Some c /\
    c_pc c = TdCloseServer /\ c_server c = SockNil /\ c_err c = Some m.
Proof.
  intros Hr Hc H Hc'.
  pose proof (reachable_lock_inv _ _ _ Hr) as Hlock.
  unfold step_fn in H. rewrite Hc in H.
  destruct a as [|t e|t d| |i].
  - inv_some H. simpl in Hc'. congruence.
  - destruct (clients s !! t) as [c|] eqn:Hl; [|discriminate].
    pose proof (li_crit _ Hlock _ _ Hl) as Hcr.
    pose proof (sock_struct_reachable _ _ _ _ Hr Hl) as Hs.
    unfold sock_struct, outcome_struct in Hs.
    run_cases H c; simpl in Hcr, Hs, Hc'; try congruence;
    try (specialize (Hcr eq_refl); discriminate Hcr);
    try match goal with
        | Hq : cond_signal _ _ = Some _ |- _ =>
            eapply cond_signal_frame in Hq as (_&_&_&_&_&Hcr1&_);
            [|exact Hl|congruence]; congruence
        end;
    repeat match goal with
    | Hx : _ /\ _ |- _ => destruct Hx
    | Hx : exists _, _ |- _ => destruct Hx
    | Hx : _ \/ _ |- _ => destruct Hx
    end;
    try match goal with
    | Hq : close_sock ?x = None, Hx : ?x = SockOpen |- _ =>
        rewrite Hx in Hq; discriminate Hq
    end;
    try congruence;
    match goal with
    | Hm : c_err c = Some ?m |- _ =>
        exists t, e, c, m; repeat split; auto
    end.
  - destruct (clients s !! t) as [c|] eqn:Hl; [|discriminate].
    pose proof (wg_struct_reachable _ _ _ _ Hr Hl) as Hp.
    unfold wg_struct in Hp.
    destruct d; copier_cases H; simpl in Hc'; try congruence; exfalso;
    match goal with
    | Hq : (_ <? _) = true |- _ => apply Z.ltb_lt in Hq
    end;
    destruct (c_pc c); simpl in *;
    repeat match goal with
    | Hx : c_to ?c = _ |- _ => rewrite Hx in *; clear Hx
    | Hx : c_from ?c = _ |- _ => rewrite Hx in *; clear Hx
    end;
    try (destruct (c_from c)); try (destruct (c_to c));
    unfold owes_done in *; intuition (try congruence; try lia).
  - inv_some H. simpl in Hc'. congruence.
  - destruct (stats_conns s !! i) as [k|]; [|discriminate].
    stats_cases H; simpl in Hc'; congruence.
Qed.

Lemma signal_count_other f w s s1 :
  cond_signal w s = Some s1 -> f AcqParked = f AcqWoken ->
  Zcount f (clients s1) = Zcount f (clients s).
Proof.
  intros Hs Hf.
  destruct (cond_signal_cases _ _ _ Hs) as [-> | (k & Hk & Hpc & ->)];
    [reflexivity|].
  simpl. rewrite (Zcount_insert _ _ _ _ _ Hk), Hpc. simpl.
  rewrite Hf. lia.
Qed.

Lemma signal_count_wake w s s1 :
  cond_signal w s = Some s1 ->
  (Zcount parked (clients s) = 0 /\ s1 = s) \/
  (0 < Zcount parked (clients s) /\
   Zcount parked (clients s1) = Zcount parked (clients s) - 1 /\
   Zcount on_the_way (clients s1) = Zcount on_the_way (clients s) + 1).
Proof.
  intros Hs. pose proof (existsb_parked_count (clients s)) as [Hz Hp].
  unfold cond_signal in Hs. destruct (existsb is_parked (clients s)).
  - right. split; [auto|].
    destruct (clients s !! w) as [k|] eqn:Hk; [|discriminate].
    unfold is_parked in Hs. destruct (c_pc k) eqn:Hpc; try discriminate.
    inv_some Hs. simpl.
    rewrite !(Zcount_insert _ _ _ _ _ Hk), Hpc. simpl. lia.
  - inv_some Hs. left. auto.
Qed.

Lemma Zcount_has f (l : list client) t c :
  l !! t = Some c -> f (c_pc c) = true -> 1 <= Zcount f l.
Proof.
  unfold Zcount. revert t.
  induction l as [|x l IH]; intros t Hl Hf; [discriminate|].
  destruct t as [|t]; simpl in *.
  - injection Hl as ->. rewrite Hf. lia.
  - specialize (IH t Hl Hf). destruct (f (c_pc x)); lia.
Qed.

Lemma wake_inv_step cap V s a s' :
  gate_inv cap s -> bounded s -> wake_inv cap s ->
  step_fn cap V s a = Some s' -> wake_inv cap s'.
Proof.
  intros Hinv Hb Hwk H. unfold wake_inv in *. unfold bounded in Hb.
  pose proof (Zcount_nonneg parked (clients s)) as Hp0.
  pose proof (Zcount_nonneg signal_owed (clients s)) as Hs0.
  pose proof (Zcount_nonneg on_the_way (clients s)) as Hk0.
  pose proof (Zcount_nonneg holds_slot (clients s)) as Ha0.
  pose proof (Zcount_le_length holds_slot (clients s)) as Ha2.
  pose proof (gi_active _ _ Hinv) as Ha.
  pose proof (gi_cap _ _ Hinv) as Hcap.
  unfold step_fn in H. destruct (crashed s); [discriminate|].
  destruct a as [|t e|t d| |i].
  - inv_some H. simpl. rewrite !Zcount_app, !Zcount_new by reflexivity. lia.
  - destruct (clients s !! t) as [c|] eqn:Hl; [|discriminate].
    pose proof (Zcount_room holds_slot _ _ _ Hl) as Ha1.
    pose proof (gi_passed _ _ Hinv _ _ Hl) as Had.
    pose proof (Zcount_has on_the_way _ _ _ Hl) as Hk1.
    destruct V; run_cases H c; simpl in Ha1, Had, Hk1;
    try (specialize (Ha1 eq_refl)); try (specialize (Had eq_refl));
    try (specialize (Hk1 eq_refl));
    try match goal with
        | Hq : cond_signal _ _ = Some ?s1 |- _ =>
            pose proof (signal_count_wake _ _ _ Hq) as Hcnt;
            pose proof (signal_count_other signal_owed _ _ _ Hq eq_refl) as Ho;
            eapply cond_signal_frame in Hq as (Hl1 & Ha1' & _);
            [|exact Hl|congruence];
            simpl; rewrite !(Zcount_insert _ _ _ _ _ Hl1), Hpc; simpl;
            destruct Hcnt as [[Hz ->] | (Hpp & Hc1 & Hc2)]; lia
        end;
    simpl; rewrite ?(Zcount_insert _ _ _ _ _ Hl), ?Hpc; simpl;
    rewrite ?wrap_int_id by lia;
    try match goal with
        | Heq : (_ =? _) = true |- _ => apply Z.eqb_eq in Heq
        | Heq : (_ =? _) = false |- _ => apply Z.eqb_neq in Heq
        end;
    lia.
  - destruct (clients s !! t) as [c|] eqn:Hl; [|discriminate].
    destruct V, d; copier_cases H; simpl;
      rewrite ?(Zcount_insert _ _ _ _ _ Hl); simpl;
      try match goal with Hp : c_pc c = _ |- _ => rewrite Hp end;
      simpl; lia.
  - inv_some H. simpl. exact Hwk.
  - destruct (stats_conns s !! i) as [k|]; [|discriminate].
    stats_cases H; simpl; exact Hwk.
Qed.

Lemma reachable_wake_inv cap V s :
  0 <= cap -> reachable cap V s -> bounded s -> wake_inv cap s.
Proof.
  intros Hc Hr. induction Hr as [|s s' Hr IH [a Ha]]; intros Hb.
  - unfold wake_inv. simpl. unfold Zcount. simpl. lia.
  - assert (Hbs : bounded s)
      by (eapply step_bounded; [econstructor; exact Ha | exact Hb]).
    eapply wake_inv_step; [| exact Hbs | apply IH, Hbs | exact Ha].
    apply (reachable_gate_inv cap V); auto.
Qed.

Lemma count_kind_app f tr1 tr2 :
  count_kind f (tr1 ++ tr2) = (count_kind f tr1 + count_kind f tr2)%nat.
Proof. induction tr1 as [|ev tr1 IH]; simpl; [reflexivity|]. rewrite IH. lia. Qed.

Lemma slots_balance_step cap V s a s' :
  gate_inv cap s -> bounded s -> slots_balance s ->
  step_fn cap V s a = Some s' -> slots_balance s'.
Proof.
  intros Hinv Hb Hbal H. unfold slots_balance in *. unfold bounded in Hb.
  pose proof (Zcount_nonneg holds_slot (clients s)) as Ha0.
  pose proof (Zcount_le_length holds_slot (clients s)) as Ha2.
  pose proof (gi_active _ _ Hinv) as Ha.
  unfold step_fn in H. destruct (crashed s); [discriminate|].
  destruct a as [|t e|t d| |i].
  - inv_some H. exact Hbal.
  - destruct (clients s !! t) as [c|] eqn:Hl; [|discriminate].
    pose proof (Zcount_room holds_slot _ _ _ Hl) as Ha1.
    destruct V; run_cases H c; simpl in Ha1;
    try (specialize (Ha1 eq_refl));
    try match goal with
        | Hq : cond_signal _ _ = Some ?s1 |- _ =>
            eapply cond_signal_frame in Hq as (_ & Ha1' & _ & _ & _ & _ & Ht & _);
            [|exact Hl|congruence]; simpl; rewrite Ha1', Ht; exact Hbal
        end;
    simpl; rewrite ?count_kind_app; simpl;
    rewrite ?wrap_int_id by lia; lia.
  - destruct (clients s !! t) as [c|] eqn:Hl; [|discriminate].
    destruct V, d; copier_cases H; simpl; exact Hbal.
  - inv_some H. exact Hbal.
  - destruct (stats_conns s !! i) as [k|]; [|discriminate].
    stats_cases H; exact Hbal.
Qed.

Lemma reachable_slots_balance cap V s :
  0 <= cap -> reachable cap V s -> bounded s -> slots_balance s.
Proof.
  intros Hc Hr. induction Hr as [|s s' Hr IH [a Ha]]; intros Hb.
  - reflexivity.
  - assert (Hbs : bounded s)
      by (eapply step_bounded; [econstructor; exact Ha | exact Hb]).
    eapply slots_balance_step; [| exact Hbs | apply IH, Hbs | exact Ha].
    apply (reachable_gate_inv cap V); auto.
Qed.

Lemma id_inv_init : id_inv init.
Proof.
  split; simpl; try reflexivity;
    intros; match goal with
            | Hl : [] !! _ = Some _ |- _ => rewrite lookup_nil in Hl; discriminate
            end.
Qed.

(** A step of session [t] that keeps its number. *)
Lemma id_inv_upd s s' t c c' :
  id_inv s ->
  clients s !! t = Some c ->
  clients s' = <[t := c']> (clients s) ->
  count s' = count s ->
  has_id (c_pc c') = has_id (c_pc c) ->
  c_ID c' = c_ID c ->
  id_inv s'.
Proof.
  intros [Hn Hr Hu] Hl Hcl Hcnt Hid HID.
  assert (Hlt : (t < length (clients s))%nat) by (eapply lookup_lt_Some; eauto).
  assert (Hcase : forall u k, clients s' !! u = Some k ->
            exists k0, clients s !! u = Some k0 /\
                       has_id (c_pc k) = has_id (c_pc k0) /\ c_ID k = c_ID k0).
  { intros u k Hk. rewrite Hcl in Hk. destruct (decide (t = u)) as [<-|Hne].
    - rewrite list_lookup_insert_eq in Hk by exact Hlt. injection Hk as <-.
      exists c. auto.
    - rewrite list_lookup_insert_ne in Hk by exact Hne. exists k. auto. }
  split.
  - rewrite Hcnt, Hcl, (Zcount_insert _ _ _ _ _ Hl), Hid. lia.
  - intros u k Hk Hh. destruct (Hcase u k Hk) as (k0 & Hk0 & Hh0 & HI0).
    rewrite Hcnt, HI0. apply (Hr u k0 Hk0). congruence.
  - intros u v k1 k2 Hk1 Hk2 Hh1 Hh2 Heq.
    destruct (Hcase u k1 Hk1) as (a1 & Ha1 & Hb1 & Hc1).
    destruct (Hcase v k2 Hk2) as (a2 & Ha2 & Hb2 & Hc2).
    apply (Hu u v a1 a2 Ha1 Ha2); congruence.
Qed.

Lemma id_inv_same s s' :
  id_inv s -> clients s' = clients s -> count s' = count s -> id_inv s'.
Proof.
  intros [Hn Hr Hu] Hc Hcnt. split; rewrite ?Hc, ?Hcnt; assumption.
Qed.

(** The step [count++; c.ID = count]. *)
Lemma id_inv_take s s' t c c' :
  id_inv s -> bounded s ->
  clients s !! t = Some c ->
  has_id (c_pc c) = false ->
  clients s' = <[t := c']> (clients s) ->
  count s' = wrap_uint64 (count s + 1) ->
  c_ID c' = wrap_uint64 (count s + 1) ->
  has_id (c_pc c') = true ->
  id_inv s'.
Proof.
  intros [Hn Hr Hu] Hb Hl Hno Hcl Hcnt HID Hyes. unfold bounded in Hb.
  assert (Hlt : (t < length (clients s))%nat) by (eapply lookup_lt_Some; eauto).
  pose proof (Zcount_nonneg has_id (clients s)) as H0.
  pose proof (Zcount_room has_id _ _ _ Hl Hno) as H1.
  assert (Hw : wrap_uint64 (count s + 1) = count s + 1).
  { unfold wrap_uint64. apply Z.mod_small. lia. }
  rewrite Hw in Hcnt, HID.
  assert (Hcase : forall u k, clients s' !! u = Some k ->
            (u = t /\ k = c') \/ (u <> t /\ clients s !! u = Some k)).
  { intros u k Hk. rewrite Hcl in Hk. destruct (decide (t = u)) as [<-|Hne].
    - rewrite list_lookup_insert_eq in Hk by exact Hlt. left. split; congruence.
    - rewrite list_lookup_insert_ne in Hk by exact Hne. right. auto. }
  split.
  - rewrite Hcnt, Hcl, (Zcount_insert _ _ _ _ _ Hl), Hno, Hyes, Hn. simpl. lia.
  - intros u k Hk Hh. destruct (Hcase u k Hk) as [[-> ->] | [Hne Hk0]].
    + lia.
    + specialize (Hr u k Hk0 Hh). lia.
  - intros u v k1 k2 Hk1 Hk2 Hh1 Hh2 Heq.
    destruct (Hcase u k1 Hk1) as [[-> ->] | [Hne1 Ha1]];
    destruct (Hcase v k2 Hk2) as [[-> ->] | [Hne2 Ha2]].
    + reflexivity.
    + specialize (Hr v k2 Ha2 Hh2). lia.
    + specialize (Hr u k1 Ha1 Hh1). lia.
    + apply (Hu u v k1 k2 Ha1 Ha2); assumption.
Qed.

Lemma id_inv_step cap s a s' :
  id_inv s -> bounded s ->
  step_fn cap Struct s a = Some s' -> id_inv s'.
Proof.
  intros Hinv Hb H.
  unfold step_fn in H. destruct (crashed s); [discriminate|].
  destruct a as [|t e|t d| |i].
  - inv_some H. destruct Hinv as [Hn Hr Hu].
    split; simpl; rewrite ?Zcount_app, ?Zcount_new by reflexivity; try lia.
    + intros t c Hl Hh.
      destruct (lookup_snoc_client _ _ _ _ Hl) as [Hl' | ->]; eauto.
      discriminate.
    + intros t u c k Hl1 Hl2 Hh1 Hh2.
      destruct (lookup_snoc_client _ _ _ _ Hl1) as [Hl1' | ->];
        [|discriminate].
      destruct (lookup_snoc_client _ _ _ _ Hl2) as [Hl2' | ->];
        [|discriminate].
      eauto.
  - destruct (clients s !! t) as [c|] eqn:Hl; [|discriminate].
    run_cases H c;
    try (apply id_inv_same with (s := s); [exact Hinv|reflexivity..]);
    try match goal with
        | Hq : cond_signal _ _ = Some ?s1 |- _ =>
            assert (Hinv1 : id_inv s1);
            [ destruct (cond_signal_cases _ _ _ Hq) as [-> | (k & Hk & Hpk & ->)];
              [ exact Hinv
              | eapply (id_inv_upd s _ _ k);
                [exact Hinv | exact Hk | reflexivity | reflexivity
                | simpl; rewrite Hpk; reflexivity | reflexivity] ]
            | eapply cond_signal_frame in Hq as (Hl1 & _);
              [|exact Hl|congruence];
              eapply (id_inv_upd s1 _ t c);
              [exact Hinv1 | exact Hl1 | reflexivity | reflexivity
              | simpl; rewrite Hpc; reflexivity | reflexivity] ]
        end;
    try (eapply (id_inv_upd s _ t c);
         [exact Hinv | exact Hl | reflexivity | reflexivity
         | simpl; rewrite Hpc; reflexivity | reflexivity]).
    eapply (id_inv_take s _ t c);
      [exact Hinv | exact Hb | exact Hl | rewrite Hpc; reflexivity
      | reflexivity | reflexivity | reflexivity | reflexivity].
  - destruct (clients s !! t) as [c|] eqn:Hl; [|discriminate].
    destruct d; copier_cases H;
    try (apply id_inv_same with (s := s); [exact Hinv|reflexivity..]);
    try (eapply (id_inv_upd s _ t c);
         [exact Hinv | exact Hl | reflexivity | reflexivity
         | simpl; try match goal with Hp : c_pc c = _ |- _ => rewrite Hp end;
           reflexivity
         | reflexivity]).
  - inv_some H. apply id_inv_same with (s := s); [exact Hinv|reflexivity..].
  - destruct (stats_conns s !! i) as [k|]; [|discriminate].
    stats_cases H;
      apply id_inv_same with (s := s); try exact Hinv; reflexivity.
Qed.

Lemma reachable_id_inv cap s :
  reachable cap Struct s -> bounded s -> id_inv s.
Proof.
  intros Hr. induction Hr as [|s s' Hr IH [a Ha]]; intros Hb.
  - apply id_inv_init.
  - assert (Hbs : bounded s)
      by (eapply step_bounded; [econstructor; exact Ha | exact Hb]).
    eapply id_inv_step; [apply IH, Hbs | exact Hbs | exact Ha].
Qed.

Lemma log_inv_same s s' :
  log_inv s -> clients s' = clients s -> trace s' = trace s -> log_inv s'.
Proof.
  unfold log_inv. intros Hinv Hc Ht. rewrite Ht.
  eapply Forall_impl; [|exact Hinv].
  intros ev. unfold log_matches, client_at. rewrite Hc. auto.
Qed.

Lemma log_inv_upd s s' t c c' evs :
  log_inv s ->
  clients s !! t = Some c ->
  clients s' = <[t := c']> (clients s) ->
  trace s' = trace s ++ evs ->
  (c_err c' = c_err c /\ (c_done c = true -> c_done c' = true)) \/
  (c_err c = None /\ c_done c = false) ->
  Forall (fun ev => match ev with
                    | EvLog u l => u = t /\ log_ok c' l
                    | _ => True
                    end) evs ->
  log_inv s'.
Proof.
  unfold log_inv. intros Hinv Hl Hcl Ht Hfr Hnew.
  assert (Hlt : (t < length (clients s))%nat) by (eapply lookup_lt_Some; eauto).
  assert (Hat : client_at s' t = c').
  { unfold client_at. rewrite Hcl, list_lookup_insert_eq by exact Hlt.
    reflexivity. }
  assert (Hother : forall u, u <> t -> client_at s' u = client_at s u).
  { intros u Hne. unfold client_at.
    rewrite Hcl, list_lookup_insert_ne by auto. reflexivity. }
  assert (Hold : client_at s t = c) by (unfold client_at; rewrite Hl; reflexivity).
  rewrite Ht. apply Forall_app. split.
  - eapply Forall_impl; [|exact Hinv].
    intros ev Hev. destruct ev as [| |u l| |]; simpl in *; auto.
    destruct (decide (u = t)) as [->|Hne].
    + rewrite Hat. rewrite Hold in Hev.
      destruct l; simpl in *; auto;
        destruct Hfr as [[He Hd] | [He Hd]]; intuition congruence.
    + rewrite Hother by exact Hne. exact Hev.
  - eapply Forall_impl; [|exact Hnew].
    intros ev Hev. destruct ev as [| |u l| |]; simpl in *; auto.
    destruct Hev as [-> Hok]. rewrite Hat. exact Hok.
Qed.

Ltac log_upd Hinv Hl t c :=
  eapply (log_inv_upd _ _ t c);
  [ exact Hinv | exact Hl | reflexivity
  | first [ reflexivity | symmetry; apply app_nil_r ]
  | simpl
  | repeat constructor; simpl ].

Lemma log_inv_signal w s s1 :
  log_inv s -> cond_signal w s = Some s1 -> log_inv s1.
Proof.
  intros Hinv Hs.
  destruct (cond_signal_cases _ _ _ Hs) as [-> | (k & Hk & Hpc & ->)].
  - exact Hinv.
  - log_upd Hinv Hk w k. left. auto.
Qed.

Lemma log_inv_step cap V s a s' :
  reachable cap V s -> log_inv s ->
  step_fn cap V s a = Some s' -> log_inv s'.
Proof.
  intros Hr Hinv H.
  unfold step_fn in H. destruct (crashed s); [discriminate|].
  destruct a as [|t e|t d| |i].
  - inv_some H. unfold log_inv in *. simpl.
    eapply Forall_impl; [|exact Hinv].
    intros ev Hev. destruct ev as [| |u l| |]; simpl in *; auto.
    unfold client_at in *. simpl.
    destruct (clients s !! u) as [k|] eqn:Hk.
    + rewrite lookup_app_l by (eapply lookup_lt_Some; eauto).
      rewrite Hk. exact Hev.
    + destruct l; simpl in *; try discriminate; auto.
      destruct Hev; discriminate.
  - destruct (clients s !! t) as [c|] eqn:Hl; [|discriminate].
    assert (Hs : match V with
                 | Closures => sock_closures c
                 | Struct => sock_struct c
                 end).
    { destruct V; [eapply sock_closures_reachable | eapply sock_struct_reachable];
        eauto. }
    unfold sock_closures, sock_struct, outcome_closures, outcome_struct in Hs.
    destruct V; run_cases H c; simpl in Hs;
    try (apply log_inv_same with (s := s); [exact Hinv|reflexivity..]);
    try match goal with
        | Hq : cond_signal _ _ = Some ?s1 |- _ =>
            pose proof (log_inv_signal _ _ _ Hinv Hq) as Hinv1;
            eapply cond_signal_frame in Hq as (Hl1 & _);
            [|exact Hl|congruence];
            log_upd Hinv1 Hl1 t c; left; auto
        end;
    try (log_upd Hinv Hl t c;
         try solve [left; auto];
         try solve [right; intuition congruence];
         try solve [intuition congruence]).
    destruct Hs as (_ & [(_ & _ & Hd) | (_ & (m & Hm) & _)]);
      [exact Hd | discriminate Hm].
  - destruct (clients s !! t) as [c|] eqn:Hl; [|discriminate].
    destruct V, d; copier_cases H;
    try (apply log_inv_same with (s := s); [exact Hinv|reflexivity..]);
    log_upd Hinv Hl t c; left; auto.
  - inv_some H. apply log_inv_same with (s := s); [exact Hinv|reflexivity..].
  - destruct (stats_conns s !! i) as [k|]; [|discriminate].
    stats_cases H;
      apply log_inv_same with (s := s); try exact Hinv; reflexivity.
Qed.

Lemma reachable_log_inv cap V s : reachable cap V s -> log_inv s.
Proof.
  intros Hr. induction Hr as [|s s' Hr IH [a Ha]].
  - constructor.
  - eapply log_inv_step; eauto.
Qed.

Lemma count_open_le (l : list client) :
  (forall t c, l !! t = Some c -> c_server c = SockOpen ->
               holds_slot (c_pc c) = true) ->
  Z.of_nat (count_open l) <= Zcount holds_slot l.
Proof.
  unfold Zcount. induction l as [|x l IH]; intros Hall; simpl; [lia|].
  assert (IH' : Z.of_nat (count_open l) <= Z.of_nat (count_pc holds_slot l)).
  { apply IH. intros t c Hl. apply (Hall (S t) c Hl). }
  pose proof (Hall 0%nat x eq_refl) as Hx.
  destruct (c_server x); simpl in *;
    try (rewrite Hx by reflexivity); destruct (holds_slot (c_pc x)); lia.
Qed.

Lemma open_holds_slot cap V s t c :
  reachable cap V s -> clients s !! t = Some c ->
  c_server c = SockOpen -> holds_slot (c_pc c) = true.
Proof.
  intros Hr Hl Ho. destruct V.
  - pose proof (sock_closures_reachable _ _ _ _ Hr Hl) as Hs.
    unfold sock_closures, outcome_closures in Hs.
    destruct (c_pc c); simpl; try reflexivity; intuition congruence.
  - pose proof (sock_struct_reachable _ _ _ _ Hr Hl) as Hs.
    unfold sock_struct, outcome_struct in Hs.
    destruct (c_pc c); simpl; try reflexivity; intuition congruence.
Qed.

(** ** Statements that lead to one another, and runs that cannot block *)

Lemma lookup_goto t p c s :
  (t < length (clients s))%nat ->
  clients (goto t p c s) !! t = Some (set_pc p c).
Proof. intros Hlt. simpl. apply list_lookup_insert_eq. exact Hlt. Qed.

(** A statement of a session leaves the records of the other sessions
    alone, except for the caller that its [Signal] wakes. *)
Lemma run_other cap V s t e s' u cu :
  step_fn cap V s (Run t e) = Some s' ->
  u <> t -> clients s !! u = Some cu ->
  clients s' !! u = Some cu \/
  (pc_of s t = Some RelSignal /\ wake e = u /\ c_pc cu = AcqParked /\
   clients s' !! u = Some (set_pc AcqWoken cu)).
Proof.
  intros H Hne Hu.
  unfold step_fn in H. destruct (crashed s); [discriminate|].
  destruct (clients s !! t) as [c|] eqn:Hl; [|discriminate].
  assert (Hlu : (u < length (clients s))%nat) by (eapply lookup_lt_Some; eauto).
  destruct V; run_cases H c; simpl;
    rewrite ?list_lookup_insert_ne by congruence; auto;
    match goal with
    | Hs : cond_signal _ _ = Some _ |- _ =>
        destruct (cond_signal_cases _ _ _ Hs) as [-> | (k & Hk & Hpk & ->)];
        [ left; exact Hu
        | destruct (decide (wake e = u)) as [Hw|Hw];
          [ right; rewrite Hw in *; assert (k = cu) as -> by congruence;
            unfold pc_of; rewrite Hl; simpl; rewrite Hpc;
            rewrite list_lookup_insert_eq by exact Hlu; auto
          | left; simpl; rewrite list_lookup_insert_ne by exact Hw; exact Hu ] ]
    end.
Qed.

(** The statement that leads to each point of [pre] / [setup], of [post]
    / the tail of [teardown] and to the end of the pump: a session gets
    to such a point in one way only. *)
Lemma step_enters cap V s a s' t c c' :
  step_fn cap V s a = Some s' ->
  clients s !! t = Some c -> clients s' !! t = Some c' ->
  c_pc c' <> c_pc c ->
  match c_pc c' with
  | AcqIncWaiting =>
      c_pc c = match V with Closures => AcqLock | Struct => AcqCount end
      /\ exists e, a = Run t e
  | AcqTest =>
      (c_pc c = AcqIncWaiting \/ c_pc c = AcqWoken) /\ exists e, a = Run t e
  | AcqParked => c_pc c = AcqTest /\ active s = cap /\ exists e, a = Run t e
  | AcqWoken =>
      c_pc c = AcqParked /\
      exists u e, a = Run u e /\ wake e = t /\ pc_of s u = Some RelSignal
  | AcqDecWaiting =>
      c_pc c = AcqTest /\ active s <> cap /\ exists e, a = Run t e
  | AcqIncActive => c_pc c = AcqDecWaiting /\ exists e, a = Run t e
  | AcqUnlock => c_pc c = AcqIncActive /\ exists e, a = Run t e
  | Dial => c_pc c = AcqUnlock /\ exists e, a = Run t e
  | RelDecActive =>
      c_pc c = RelLock /\ wCond_L s = None /\ exists e, a = Run t e
  | RelUnlock => c_pc c = RelDecActive /\ exists e, a = Run t e
  | RelSignal => c_pc c = RelUnlock /\ exists e, a = Run t e
  | RecordDone =>
      c_pc c = WaitPump /\
      match V with
      | Closures => c_w c = 0 /\ exists e, a = Run t e
      | Struct => exists d, a = Copier t d /\ get_cp d c = CSend
      end
  | _ => True
  end.
Proof.
  intros H Hl Hl' Hne.
  assert (Hlt : (t < length (clients s))%nat) by (eapply lookup_lt_Some; eauto).
  destruct a as [|u e|u d| |i o].
  - exfalso. unfold step_fn in H. destruct (crashed s); [discriminate|].
    inv_some H. simpl in Hl'. rewrite lookup_app_l in Hl' by exact Hlt.
    congruence.
  - destruct (decide (u = t)) as [->|Hut].
    + unfold step_fn in H. destruct (crashed s); [discriminate|].
      rewrite Hl in H.
      destruct V; run_cases H c;
        try match goal with
            | Hs : cond_signal _ _ = Some _ |- _ =>
                eapply cond_signal_frame in Hs as (_ & _ & _ & _ & Hlen & _);
                [|exact Hl|congruence]
            end;
        try (rewrite lookup_goto in Hl' by (simpl; lia));
        try (simpl in Hl'; rewrite list_lookup_insert_eq in Hl' by lia);
        try (injection Hl' as <-; simpl;
             repeat match goal with
             | |- _ /\ _ => split
             | |- exists e0, Run _ ?e = Run _ e0 => exists e; reflexivity
             | Hq : (_ =? _) = true |- _ => apply Z.eqb_eq in Hq
             | Hq : (_ =? _) = false |- _ => apply Z.eqb_neq in Hq
             end; auto; congruence);
        try (exfalso; simpl in Hl'; congruence).
    + destruct (run_other cap V s u e s' t c H (not_eq_sym Hut) Hl)
        as [Hsame | (Hsig & Hw & Hpk & Hwk)].
      * exfalso. congruence.
      * assert (c' = set_pc AcqWoken c) as -> by congruence. simpl.
        split; [exact Hpk|]. exists u, e. auto.
  - unfold step_fn in H. destruct (crashed s); [discriminate|].
    destruct (clients s !! u) as [cu|] eqn:Hu; [|discriminate].
    destruct (decide (u = t)) as [->|Hut].
    + assert (cu = c) as -> by congruence.
      destruct V; copier_cases H; simpl in Hl';
        rewrite ?list_lookup_insert_eq in Hl' by lia;
        try (exfalso; congruence);
        injection Hl' as <-; simpl in *; try (exfalso; congruence);
        (split; [reflexivity|]; eexists; split; [reflexivity|]; assumption).
    + exfalso. destruct V; copier_cases H; simpl in Hl';
        rewrite ?list_lookup_insert_ne in Hl' by exact Hut; congruence.
  - exfalso. unfold step_fn in H. destruct (crashed s); [discriminate|].
    inv_some H. simpl in Hl'. congruence.
  - exfalso. unfold step_fn in H. destruct (crashed s); [discriminate|].
    destruct (stats_conns s !! i) as [k|]; [|discriminate].
    stats_cases H; simpl in Hl'; congruence.
Qed.

Lemma pc_of_lookup s t c p :
  clients s !! t = Some c -> pc_of s t = Some p -> c_pc c = p.
Proof. unfold pc_of. intros ->. simpl. congruence. Qed.

Lemma pc_of_client s t c : clients s !! t = Some c -> pc_of s t = Some (c_pc c).
Proof. unfold pc_of. intros ->. reflexivity. Qed.

(** The statements between a [Lock] and the matching [Unlock]: the holder
    can always run the next one, it does not panic, and it changes the
    record of no other session. *)
Lemma locked_step cap V s t e c :
  gate_inv cap s -> crashed s = false -> clients s !! t = Some c ->
  match c_pc c with
  | AcqIncWaiting | AcqTest | AcqDecWaiting | AcqIncActive | AcqUnlock
  | RelDecActive | RelUnlock =>
      exists s' c', step_fn cap V s (Run t e) = Some s' /\
        crashed s' = false /\ clients s' = <[t := c']> (clients s) /\
        stats_conns s' = stats_conns s
  | _ => True
  end.
Proof.
  intros Hinv Hcr Hl.
  pose proof (gi_crit _ _ Hinv _ _ Hl) as Hlock.
  unfold step_fn. rewrite Hcr, Hl.
  destruct V; unfold proxy, mind, pre, post, setup, teardown, mutex_unlock;
    destruct (c_pc c); try exact I; simpl in Hlock;
    rewrite ?(Hlock eq_refl);
    try (destruct (active s =? cap));
    eexists; eexists; (split; [reflexivity|]); simpl; auto.
Qed.

(** [Lock], at the entry of [pre] / [setup] and of [post] / [teardown]
    and inside [Wait] after the wake-up: the caller goes on exactly when
    the mutex is free. *)
Lemma lock_step cap V s t e c :
  crashed s = false -> clients s !! t = Some c ->
  match c_pc c with
  | AcqLock | AcqWoken | RelLock =>
      (wCond_L s <> None -> step_fn cap V s (Run t e) = None) /\
      (wCond_L s = None ->
       step_fn cap V s (Run t e)
       = Some (goto t (match c_pc c, V with
                       | AcqLock, Closures => AcqIncWaiting
                       | AcqLock, Struct => AcqCount
                       | AcqWoken, _ => AcqTest
                       | _, _ => RelDecActive
                       end) c (set_lock (Some t) s)))
  | _ => True
  end.
Proof.
  intros Hcr Hl. unfold step_fn. rewrite Hcr, Hl.
  destruct V; unfold proxy, mind, pre, post, setup, teardown, mutex_lock;
    destruct (c_pc c); try exact I;
    (split; [intros Hne|intros ->; reflexivity]);
    destruct (wCond_L s); congruence.
Qed.

(** [Signal]: a no-op when no caller is parked; otherwise it wakes the
    parked caller that the scheduler picks, and only a parked caller can
    be picked. *)
Lemma signal_step cap V s t e c :
  crashed s = false -> clients s !! t = Some c -> c_pc c = RelSignal ->
  let p := match V with Closures => DeferCloseConn | Struct => Done end in
  (Zcount parked (clients s) = 0 ->
   step_fn cap V s (Run t e) = Some (goto t p c s)) /\
  (forall k, clients s !! wake e = Some k -> c_pc k = AcqParked ->
   step_fn cap V s (Run t e)
   = Some (goto t p c (goto (wake e) AcqWoken k s))) /\
  (0 < Zcount parked (clients s) -> pc_of s (wake e) <> Some AcqParked ->
   step_fn cap V s (Run t e) = None).
Proof.
  intros Hcr Hl Hpc p.
  pose proof (existsb_parked_count (clients s)) as [Hz Hp].
  assert (Hstep : step_fn cap V s (Run t e)
                  = match cond_signal (wake e) s with
                    | Some s1 => Some (goto t p c s1)
                    | None => None
                    end).
  { unfold step_fn. rewrite Hcr, Hl.
    destruct V; unfold proxy, mind, post, teardown; rewrite Hpc; reflexivity. }
  rewrite Hstep. unfold cond_signal.
  destruct (existsb is_parked (clients s)) eqn:Hex.
  - specialize (Hp eq_refl). split; [lia|]. split.
    + intros k Hk Hpk. rewrite Hk. unfold is_parked. rewrite Hpk. reflexivity.
    + intros _ Hnp. unfold pc_of in Hnp.
      destruct (clients s !! wake e) as [k|]; [|reflexivity].
      unfold is_parked. simpl in Hnp.
      destruct (c_pc k); try reflexivity. congruence.
  - specialize (Hz eq_refl). split; [reflexivity|]. split; [|lia].
    intros k Hk Hpk. exfalso.
    pose proof (Zcount_has parked _ _ _ Hk) as Hone.
    rewrite Hpk in Hone. specialize (Hone eq_refl). lia.
Qed.

Lemma locked_next cap V s t e c :
  1 <= cap -> reachable cap V s -> bounded s -> crashed s = false ->
  clients s !! t = Some c ->
  match c_pc c with
  | AcqIncWaiting | AcqTest | AcqDecWaiting | AcqIncActive | AcqUnlock
  | RelDecActive | RelUnlock =>
      exists s' c', step_fn cap V s (Run t e) = Some s' /\
        reachable cap V s' /\ bounded s' /\ crashed s' = false /\
        clients s' !! t = Some c' /\
        clients s' = <[t := c']> (clients s) /\
        stats_conns s' = stats_conns s
  | _ => True
  end.
Proof.
  intros Hc Hr Hb Hcr Hl.
  assert (Hinv : gate_inv cap s)
    by (apply (reachable_gate_inv cap V); auto; lia).
  pose proof (locked_step cap V s t e c Hinv Hcr Hl) as Hstep.
  destruct (c_pc c); try exact I;
    destruct Hstep as (s' & c' & Hs & Hcr' & Hcl & Hst);
    exists s', c'; (split; [exact Hs|]);
    (split; [eapply reachable_step; [exact Hr | econstructor; exact Hs]|]);
    (split; [unfold bounded in *; rewrite Hcl, length_insert; exact Hb|]);
    (split; [exact Hcr'|]);
    (split; [rewrite Hcl; apply list_lookup_insert_eq;
             eapply lookup_lt_Some; exact Hl|]); auto.
Qed.

(** From a successful test to the return of [pre] / [setup]: four
    statements of the caller, none of which can block. *)
Lemma acquire_from_test cap V s t c e :
  1 <= cap -> reachable cap V s -> bounded s -> crashed s = false ->
  clients s !! t = Some c -> c_pc c = AcqTest -> active s < cap ->
  exists s', run cap V (replicate 4 (Run t e)) s = Some s' /\
    pc_of s' t = Some Dial /\ active s' = active s + 1 /\ active s' <= cap /\
    waiting s' = waiting s - 1 /\ wCond_L s' = None /\ crashed s' = false /\
    reachable cap V s' /\ bounded s'.
Proof.
  intros Hc Hr Hb Hcr Hl Hpc Hlt.
  assert (Hinv : gate_inv cap s)
    by (apply (reachable_gate_inv cap V); auto; lia).
  pose proof (locked_next cap V s t e c Hc Hr Hb Hcr Hl) as T1.
  rewrite Hpc in T1.
  destruct T1 as (s1 & c1 & Hs1 & Hr1 & Hb1 & Hcr1 & Hl1 & _).
  pose proof (acquire_steps _ _ _ _ _ _ _ Hinv Hb Hl Hs1) as E1.
  rewrite Hpc in E1.
  destruct E1 as (Hw1 & Ha1 & [(Hfull & _) | (_ & Hp1 & Hk1)]); [lia|].
  pose proof (pc_of_lookup _ _ _ _ Hl1 Hp1) as Hpc1.
  assert (Hinv1 : gate_inv cap s1)
    by (apply (reachable_gate_inv cap V); auto; lia).
  pose proof (locked_next cap V s1 t e c1 Hc Hr1 Hb1 Hcr1 Hl1) as T2.
  rewrite Hpc1 in T2.
  destruct T2 as (s2 & c2 & Hs2 & Hr2 & Hb2 & Hcr2 & Hl2 & _).
  pose proof (acquire_steps _ _ _ _ _ _ _ Hinv1 Hb1 Hl1 Hs2) as E2.
  rewrite Hpc1 in E2. destruct E2 as (Hw2 & Ha2 & Hp2).
  pose proof (pc_of_lookup _ _ _ _ Hl2 Hp2) as Hpc2.
  assert (Hinv2 : gate_inv cap s2)
    by (apply (reachable_gate_inv cap V); auto; lia).
  pose proof (locked_next cap V s2 t e c2 Hc Hr2 Hb2 Hcr2 Hl2) as T3.
  rewrite Hpc2 in T3.
  destruct T3 as (s3 & c3 & Hs3 & Hr3 & Hb3 & Hcr3 & Hl3 & _).
  pose proof (acquire_steps _ _ _ _ _ _ _ Hinv2 Hb2 Hl2 Hs3) as E3.
  rewrite Hpc2 in E3. destruct E3 as (Ha3 & Hcap3 & Hw3 & Hp3).
  pose proof (pc_of_lookup _ _ _ _ Hl3 Hp3) as Hpc3.
  assert (Hinv3 : gate_inv cap s3)
    by (apply (reachable_gate_inv cap V); auto; lia).
  pose proof (locked_next cap V s3 t e c3 Hc Hr3 Hb3 Hcr3 Hl3) as T4.
  rewrite Hpc3 in T4.
  destruct T4 as (s4 & c4 & Hs4 & Hr4 & Hb4 & Hcr4 & Hl4 & _).
  pose proof (acquire_steps _ _ _ _ _ _ _ Hinv3 Hb3 Hl3 Hs4) as E4.
  rewrite Hpc3 in E4. destruct E4 as (Ha4 & Hw4 & Hk4 & Hp4).
  exists s4. simpl. rewrite Hs1, Hs2, Hs3, Hs4.
  repeat split; auto; lia.
Qed.

Lemma Zcount_move f (l : list client) t c c' :
  l !! t = Some c -> f (c_pc c) = false -> f (c_pc c') = false ->
  Zcount f (<[t := c']> l) = Zcount f l.
Proof.
  intros Hl Hf Hf'. rewrite (Zcount_insert _ _ _ _ _ Hl), Hf, Hf'. simpl. lia.
Qed.

(** A whole [post] / tail of [teardown], once the mutex is free: four
    statements, none of which can block; [active] goes down by one and
    one parked caller, if there is any, is woken. *)
Lemma release_run cap V s t c e :
  1 <= cap -> reachable cap V s -> bounded s -> crashed s = false ->
  clients s !! t = Some c -> c_pc c = RelLock -> wCond_L s = None ->
  Zcount parked (clients s) = 0 \/ pc_of s (wake e) = Some AcqParked ->
  exists s', run cap V (replicate 4 (Run t e)) s = Some s' /\
    pc_of s' t
    = Some (match V with Closures => DeferCloseConn | Struct => Done end) /\
    active s' = active s - 1 /\ waiting s' = waiting s /\
    wCond_L s' = None /\ crashed s' = false /\
    ((Zcount parked (clients s) = 0 /\ Zcount parked (clients s') = 0 /\
      Zcount woken (clients s') = Zcount woken (clients s)) \/
     (pc_of s (wake e) = Some AcqParked /\
      pc_of s' (wake e) = Some AcqWoken /\
      Zcount parked (clients s') = Zcount parked (clients s) - 1 /\
      Zcount woken (clients s') = Zcount woken (clients s) + 1)).
Proof.
  intros Hc Hr Hb Hcr Hl Hpc Hfree Hwake.
  assert (Hlt : (t < length (clients s))%nat) by (eapply lookup_lt_Some; eauto).
  (* Lock *)
  pose proof (lock_step cap V s t e c Hcr Hl) as T1. rewrite Hpc in T1.
  destruct T1 as (_ & T1). specialize (T1 Hfree).
  simpl in T1.
  set (s1 := goto t RelDecActive c (set_lock (Some t) s)) in *.
  assert (Hr1 : reachable cap V s1)
    by (eapply reachable_step; [exact Hr | econstructor; exact T1]).
  assert (Hb1 : bounded s1)
    by (unfold bounded, s1 in *; simpl; rewrite length_insert; exact Hb).
  assert (Hl1 : clients s1 !! t = Some (set_pc RelDecActive c))
    by (apply lookup_goto; exact Hlt).
  assert (Hinv1 : gate_inv cap s1)
    by (apply (reachable_gate_inv cap V); auto; lia).
  (* active-- *)
  pose proof (locked_next cap V s1 t e _ Hc Hr1 Hb1 Hcr Hl1) as T2.
  cbn [c_pc set_pc] in T2.
  destruct T2 as (s2 & c2 & Hs2 & Hr2 & Hb2 & Hcr2 & Hl2 & Hcl2 & _).
  pose proof (release_steps _ _ _ _ _ _ _ Hinv1 Hb1 Hl1 Hs2) as E2.
  cbn [c_pc set_pc] in E2. destruct E2 as (_ & Ha2 & Hw2 & Hp2).
  assert (Ha1 : active s1 = active s) by reflexivity.
  assert (Hw1 : waiting s1 = waiting s) by reflexivity.
  pose proof (pc_of_lookup _ _ _ _ Hl2 Hp2) as Hpc2.
  assert (Hinv2 : gate_inv cap s2)
    by (apply (reachable_gate_inv cap V); auto; lia).
  (* Unlock *)
  pose proof (locked_next cap V s2 t e c2 Hc Hr2 Hb2 Hcr2 Hl2) as T3.
  rewrite Hpc2 in T3.
  destruct T3 as (s3 & c3 & Hs3 & Hr3 & Hb3 & Hcr3 & Hl3 & Hcl3 & _).
  pose proof (release_steps _ _ _ _ _ _ _ Hinv2 Hb2 Hl2 Hs3) as E3.
  rewrite Hpc2 in E3. destruct E3 as (Hk3 & Ha3 & Hw3 & Hp3).
  pose proof (pc_of_lookup _ _ _ _ Hl3 Hp3) as Hpc3.
  assert (Hinv3 : gate_inv cap s3)
    by (apply (reachable_gate_inv cap V); auto; lia).
  (* the callers are where they were *)
  assert (Hcnt : forall f, f RelLock = false -> f RelDecActive = false ->
                           f RelUnlock = false -> f RelSignal = false ->
                 Zcount f (clients s3) = Zcount f (clients s)).
  { intros f F1 F2 F3 F4.
    rewrite Hcl3, (Zcount_move f _ _ _ _ Hl2) by (rewrite ?Hpc2, ?Hpc3; auto).
    rewrite Hcl2, (Zcount_move f _ _ _ _ Hl1) by (rewrite ?Hpc2; auto).
    unfold s1. simpl. apply (Zcount_move f _ _ _ _ Hl); rewrite ?Hpc; auto. }
  assert (Hoth : forall u, u <> t -> clients s3 !! u = clients s !! u).
  { intros u Hu. rewrite Hcl3, list_lookup_insert_ne by congruence.
    rewrite Hcl2, list_lookup_insert_ne by congruence.
    unfold s1. simpl. apply list_lookup_insert_ne. congruence. }
  (* Signal *)
  pose proof (signal_step cap V s3 t e c3 Hcr3 Hl3 Hpc3) as (Tz & Tp & _).
  assert (Hlt3 : (t < length (clients s3))%nat)
    by (eapply lookup_lt_Some; eauto).
  destruct Hwake as [Hzero | Hpk].
  - rewrite <- (Hcnt parked) in Hzero by reflexivity. specialize (Tz Hzero).
    eexists. split; [simpl; rewrite T1, Hs2, Hs3, Tz; reflexivity|].
    split; [rewrite (pc_of_client _ _ _ (lookup_goto _ _ _ _ Hlt3));
            reflexivity|].
    simpl. repeat split; try lia; auto.
    left. rewrite (Hcnt parked) in Hzero by reflexivity.
    split; [exact Hzero|].
    rewrite !(Zcount_move _ _ _ _ _ Hl3)
      by (rewrite ?Hpc3; destruct V; reflexivity).
    rewrite (Hcnt parked), (Hcnt woken) by reflexivity. auto.
  - unfold pc_of in Hpk.
    destruct (clients s !! wake e) as [k|] eqn:Hk; [|discriminate].
    simpl in Hpk. injection Hpk as Hpk.
    assert (Hwt : wake e <> t) by (intros Heq; rewrite Heq in Hk; congruence).
    assert (Hk3' : clients s3 !! wake e = Some k)
      by (rewrite Hoth by exact Hwt; exact Hk).
    specialize (Tp k Hk3' Hpk).
    assert (Hltw : (wake e < length (clients s3))%nat)
      by (eapply lookup_lt_Some; eauto).
    eexists. split; [simpl; rewrite T1, Hs2, Hs3, Tp; reflexivity|].
    split.
    { unfold pc_of. simpl.
      rewrite list_lookup_insert_eq by (rewrite length_insert; exact Hlt3).
      reflexivity. }
    simpl. repeat split; try lia; auto.
    right. split; [unfold pc_of; rewrite Hk; simpl; congruence|].
    split.
    { unfold pc_of. simpl. rewrite list_lookup_insert_ne by congruence.
      rewrite list_lookup_insert_eq by exact Hltw. reflexivity. }
    assert (Hl3' : <[wake e := set_pc AcqWoken k]> (clients s3) !! t = Some c3)
      by (rewrite list_lookup_insert_ne by exact Hwt; exact Hl3).
    rewrite !(Zcount_move _ _ _ _ _ Hl3')
      by (rewrite ?Hpc3; destruct V; reflexivity).
    rewrite !(Zcount_insert _ _ _ _ _ Hk3'), Hpk. simpl.
    rewrite (Hcnt parked), (Hcnt woken) by reflexivity. lia.
Qed.

(** Where a session goes from each point of the gate and of the pump. *)
Lemma step_leaves cap V s a s' t c c' :
  step_fn cap V s a = Some s' ->
  clients s !! t = Some c -> clients s' !! t = Some c' ->
  c_pc c' <> c_pc c ->
  match c_pc c with
  | Start => c_pc c' = AcqLock
  | AcqLock =>
      c_pc c' = match V with Closures => AcqIncWaiting | Struct => AcqCount end
  | AcqCount => c_pc c' = AcqIncWaiting
  | AcqIncWaiting => c_pc c' = AcqTest
  | AcqTest => c_pc c' = AcqParked \/ c_pc c' = AcqDecWaiting
  | AcqParked => c_pc c' = AcqWoken
  | AcqWoken => c_pc c' = AcqTest
  | AcqDecWaiting => c_pc c' = AcqIncActive
  | AcqIncActive => c_pc c' = AcqUnlock
  | AcqUnlock => c_pc c' = Dial
  | WaitPump => c_pc c' = RecordDone
  | RelLock => c_pc c' = RelDecActive
  | RelDecActive => c_pc c' = RelUnlock
  | RelUnlock => c_pc c' = RelSignal
  | RelSignal =>
      c_pc c' = match V with Closures => DeferCloseConn | Struct => Done end
  | DeferCloseConn => c_pc c' = DeferLog
  | DeferLog => c_pc c' = Done
  | Done => False
  | _ => True
  end.
Proof.
  intros H Hl Hl' Hne.
  assert (Hlt : (t < length (clients s))%nat) by (eapply lookup_lt_Some; eauto).
  destruct a as [|u e|u d| |i o].
  - exfalso. unfold step_fn in H. destruct (crashed s); [discriminate|].
    inv_some H. simpl in Hl'. rewrite lookup_app_l in Hl' by exact Hlt.
    congruence.
  - destruct (decide (u = t)) as [->|Hut].
    + unfold step_fn in H. destruct (crashed s); [discriminate|].
      rewrite Hl in H.
      destruct V; run_cases H c;
        try match goal with
            | Hs : cond_signal _ _ = Some _ |- _ =>
                eapply cond_signal_frame in Hs as (_ & _ & _ & _ & Hlen & _);
                [|exact Hl|congruence]
            end;
        try (rewrite lookup_goto in Hl' by (simpl; lia));
        try (simpl in Hl'; rewrite list_lookup_insert_eq in Hl' by lia);
        try (injection Hl' as <-; simpl; auto; fail);
        try (exfalso; simpl in Hl'; congruence).
    + destruct (run_other cap V s u e s' t c H (not_eq_sym Hut) Hl)
        as [Hsame | (Hsig & Hw & Hpk & Hwk)].
      * exfalso. congruence.
      * assert (c' = set_pc AcqWoken c) as -> by congruence.
        rewrite Hpk. reflexivity.
  - unfold step_fn in H. destruct (crashed s); [discriminate|].
    destruct (clients s !! u) as [cu|] eqn:Hu; [|discriminate].
    destruct (decide (u = t)) as [->|Hut].
    + assert (cu = c) as -> by congruence.
      destruct V; copier_cases H; simpl in Hl';
        rewrite ?list_lookup_insert_eq in Hl' by lia;
        try (exfalso; congruence);
        injection Hl' as <-; simpl in *; try (exfalso; congruence);
        reflexivity.
    + exfalso. destruct V; copier_cases H; simpl in Hl';
        rewrite ?list_lookup_insert_ne in Hl' by exact Hut; congruence.
  - exfalso. unfold step_fn in H. destruct (crashed s); [discriminate|].
    inv_some H. simpl in Hl'. congruence.
  - exfalso. unfold step_fn in H. destruct (crashed s); [discriminate|].
    destruct (stats_conns s !! i) as [k|]; [|discriminate].
    stats_cases H; simpl in Hl'; congruence.
Qed.

(** After its [Signal] a session is at the next deferred call, or has
    returned. *)
Lemma signal_result cap V s t e c s' :
  step_fn cap V s (Run t e) = Some s' -> clients s !! t = Some c ->
  c_pc c = RelSignal ->
  pc_of s' t
  = Some (match V with Closures => DeferCloseConn | Struct => Done end).
Proof.
  intros H Hl Hpc.
  unfold step_fn in H. destruct (crashed s); [discriminate|].
  rewrite Hl in H.
  destruct V; unfold proxy, mind, post, teardown in H; rewrite Hpc in H;
    (destruct (cond_signal (wake e) s) as [s1|] eqn:Hsig; [|discriminate]);
    inv_some H;
    eapply cond_signal_frame in Hsig as (_ & _ & _ & _ & Hlen & _);
    try exact Hl; try congruence;
    unfold pc_of; simpl;
    rewrite list_lookup_insert_eq
      by (rewrite Hlen; eapply lookup_lt_Some; exact Hl);
    reflexivity.
Qed.

Lemma get_set_cp d k c : get_cp d (set_cp d k c) = k.
Proof. destruct d; reflexivity. Qed.

(** [client]: once [io.Copy] of one direction returns, that goroutine
    calls [c.w.Done()] and sends on [done], and the session waiting in
    [<-done] gets to the next statement, whatever the other direction is
    doing. *)
Lemma struct_pump_run cap s t c d :
  reachable cap Struct s -> crashed s = false ->
  clients s !! t = Some c -> c_pc c = WaitPump -> get_cp d c = CCopying ->
  exists s', run cap Struct [Copier t d; Copier t d; Copier t d] s = Some s' /\
    pc_of s' t = Some RecordDone /\
    get_cp d (client_at s' t) = CExited /\
    get_cp (other d) (client_at s' t) = get_cp (other d) c /\
    c_done (client_at s' t) = c_done c /\ crashed s' = false.
Proof.
  intros Hr Hcr Hl Hpc Hd.
  assert (Hlt : (t < length (clients s))%nat) by (eapply lookup_lt_Some; eauto).
  pose proof (wg_struct_reachable _ _ _ _ Hr Hl) as Hwg.
  unfold wg_struct in Hwg. rewrite Hpc in Hwg.
  assert (Hw : 1 <= c_w c).
  { rewrite Hwg. unfold owes_done. destruct d; simpl in Hd; rewrite Hd.
    - destruct (c_from c); lia.
    - destruct (c_to c); lia. }
  assert (Hnz : (c_w c - 1 <? 0) = false) by (apply Z.ltb_ge; lia).
  eexists. split.
  { simpl. unfold step_fn at 1. rewrite Hcr, Hl. unfold copy_method.
    rewrite Hd.
    unfold step_fn at 1. simpl crashed. rewrite Hcr. simpl clients.
    rewrite list_lookup_insert_eq by exact Hlt.
    unfold copy_method. rewrite get_set_cp. unfold wg_done.
    replace (c_w (set_cp d CWgDone c)) with (c_w c) by (destruct d; reflexivity).
    rewrite Hnz.
    unfold step_fn at 1. simpl crashed. rewrite Hcr. simpl clients.
    rewrite list_lookup_insert_eq by (rewrite length_insert; exact Hlt).
    unfold copy_method. rewrite get_set_cp.
    replace (c_pc (set_cp d CSend (set_w (c_w c - 1) (set_cp d CWgDone c))))
      with (c_pc c) by (destruct d; reflexivity).
    rewrite Hpc. reflexivity. }
  unfold pc_of, client_at. simpl.
  rewrite list_lookup_insert_eq by (rewrite !length_insert; exact Hlt).
  simpl. destruct d; simpl; auto.
Qed.

(** A woken caller that finds the mutex free and a free slot returns:
    five statements, none of which can block. *)
Lemma acquire_from_woken cap V s t c e :
  1 <= cap -> reachable cap V s -> bounded s -> crashed s = false ->
  clients s !! t = Some c -> c_pc c = AcqWoken ->
  wCond_L s = None -> active s < cap ->
  exists s', run cap V (replicate 5 (Run t e)) s = Some s' /\
    pc_of s' t = Some Dial /\ active s' = active s + 1 /\
    waiting s' = waiting s - 1.
Proof.
  intros Hc Hr Hb Hcr Hl Hpc Hfree Hlt.
  assert (Hlen : (t < length (clients s))%nat) by (eapply lookup_lt_Some; eauto).
  pose proof (lock_step cap V s t e c Hcr Hl) as T1. rewrite Hpc in T1.
  destruct T1 as (_ & T1). specialize (T1 Hfree). simpl in T1.
  set (s1 := goto t AcqTest c (set_lock (Some t) s)) in *.
  assert (Hr1 : reachable cap V s1)
    by (eapply reachable_step; [exact Hr | econstructor; exact T1]).
  assert (Hb1 : bounded s1)
    by (unfold bounded, s1 in *; simpl; rewrite length_insert; exact Hb).
  assert (Hl1 : clients s1 !! t = Some (set_pc AcqTest c))
    by (apply lookup_goto; exact Hlen).
  destruct (acquire_from_test cap V s1 t _ e Hc Hr1 Hb1 Hcr Hl1 eq_refl Hlt)
    as (s' & Hrun & Hp & Ha & _ & Hw & _).
  exists s'. split.
  - change (replicate 5 (Run t e)) with (Run t e :: replicate 4 (Run t e)).
    simpl run. rewrite T1. exact Hrun.
  - auto.
Qed.

Lemma Zcount_mono f g (l : list client) :
  (forall p, f p = true -> g p = true) -> Zcount f l <= Zcount g l.
Proof.
  intros Hm. unfold Zcount. induction l as [|c l IH]; simpl; [lia|].
  specialize (Hm (c_pc c)).
  destruct (f (c_pc c)); [rewrite Hm by reflexivity|destruct (g (c_pc c))]; lia.
Qed.

Lemma parked_exists (l : list client) :
  Zcount parked l = 0 \/ exists w k, l !! w = Some k /\ c_pc k = AcqParked.
Proof.
  unfold Zcount. induction l as [|c l IH]; simpl; [left; reflexivity|].
  destruct (c_pc c) eqn:Hpc; simpl;
    try (destruct IH as [Hz | (w & k & Hk & Hpk)];
         [left; lia | right; exists (S w), k; auto]).
  right. exists 0%nat, c. auto.
Qed.

(** A step takes at most one caller out of the parked state, and then it
    is the [Signal] of a session, which is past its signal afterwards;
    no session ever comes back from there. *)
Lemma wake_step cap V s a s' :
  step_fn cap V s a = Some s' ->
  (Zcount parked (clients s) <= Zcount parked (clients s') /\
   Zcount signalled (clients s) <= Zcount signalled (clients s')) \/
  (Zcount parked (clients s') = Zcount parked (clients s) - 1 /\
   Zcount woken (clients s') = Zcount woken (clients s) + 1 /\
   Zcount signalled (clients s') = Zcount signalled (clients s) + 1 /\
   exists u e, a = Run u e /\ pc_of s u = Some RelSignal /\
               pc_of s (wake e) = Some AcqParked /\
               pc_of s' (wake e) = Some AcqWoken).
Proof.
  intros H.
  unfold step_fn in H. destruct (crashed s); [discriminate|].
  destruct a as [|t e|t d| |i o].
  - inv_some H. left. simpl.
    rewrite !Zcount_app, !Zcount_new by reflexivity. lia.
  - destruct (clients s !! t) as [c|] eqn:Hl; [|discriminate].
    assert (Hlt : (t < length (clients s))%nat)
      by (eapply lookup_lt_Some; eauto).
    destruct V; run_cases H c;
      try (left; simpl; rewrite ?(Zcount_insert _ _ _ _ _ Hl), ?Hpc; simpl;
           lia);
      match goal with
      | Hs : cond_signal _ _ = Some _ |- _ =>
          destruct (cond_signal_cases _ _ _ Hs) as [-> | (k & Hk & Hpk & ->)];
          [ left; simpl; rewrite !(Zcount_insert _ _ _ _ _ Hl), Hpc; simpl; lia
          | right;
            assert (Hwt : wake e <> t) by (intros Hq; rewrite Hq in Hk; congruence);
            assert (Hl1 : <[wake e := set_pc AcqWoken k]> (clients s) !! t
                          = Some c)
              by (rewrite list_lookup_insert_ne by exact Hwt; exact Hl);
            simpl; rewrite !(Zcount_insert _ _ _ _ _ Hl1), Hpc;
            rewrite !(Zcount_insert _ _ _ _ _ Hk), Hpk; simpl;
            (split; [lia|]); (split; [lia|]); (split; [lia|]);
            exists t, e; split; [reflexivity|];
            unfold pc_of; rewrite Hl, Hk; simpl; rewrite Hpc, Hpk;
            (split; [reflexivity|]); (split; [reflexivity|]);
            rewrite list_lookup_insert_ne by congruence;
            rewrite list_lookup_insert_eq by (eapply lookup_lt_Some; eauto);
            reflexivity ]
      end.
  - destruct (clients s !! t) as [c|] eqn:Hl; [|discriminate].
    left. destruct V, d; copier_cases H; simpl;
      rewrite ?(Zcount_insert _ _ _ _ _ Hl); simpl;
      try match goal with Hp : c_pc c = _ |- _ => rewrite Hp end;
      simpl; try lia; destruct (c_pc c); simpl; lia.
  - inv_some H. left. simpl. lia.
  - destruct (stats_conns s !! i) as [k|]; [|discriminate].
    left. stats_cases H; simpl; lia.
Qed.

(** The wake-ups of a run never outnumber the sessions that have got
    past their [Signal] during it. *)
Lemma wakeups_le cap V acts : forall s0 s,
  run cap V acts s0 = Some s ->
  wakeups cap V acts s0 + Zcount signalled (clients s0)
  <= Zcount signalled (clients s).
Proof.
  induction acts as [|a acts IH]; intros s0 s H; simpl in *.
  - inv_some H. lia.
  - destruct (step_fn cap V s0 a) as [s1|] eqn:Hs; [|discriminate].
    specialize (IH _ _ H).
    destruct (wake_step _ _ _ _ _ Hs) as [(Hp & Hg) | (Hp & _ & Hg & _)]; lia.
Qed.

(** ** Where the operands of the stats line come from *)

Lemma run_app cap V acts1 acts2 s :
  run cap V (acts1 ++ acts2) s
  = match run cap V acts1 s with
    | Some s1 => run cap V acts2 s1
    | None => None
    end.
Proof.
  revert s. induction acts1 as [|a acts1 IH]; intros s; simpl; [reflexivity|].
  destruct (step_fn cap V s a); [apply IH | reflexivity].
Qed.

Lemma earlier_refl cap V s : earlier cap V s s.
Proof. exists []. reflexivity. Qed.

Lemma earlier_step cap V s0 s a s' :
  earlier cap V s0 s -> step_fn cap V s a = Some s' -> earlier cap V s0 s'.
Proof.
  intros [acts Hacts] Hs. exists (acts ++ [a]).
  rewrite run_app, Hacts. simpl. rewrite Hs. reflexivity.
Qed.

Lemma run_length cap V acts : forall s s',
  run cap V acts s = Some s' ->
  (length (clients s) <= length (clients s'))%nat.
Proof.
  induction acts as [|a acts IH]; intros s s' H; simpl in H.
  - inv_some H. lia.
  - destruct (step_fn cap V s a) as [s1|] eqn:Hs; [|discriminate].
    pose proof (step_length _ _ _ _ _ Hs). specialize (IH _ _ H). lia.
Qed.

Lemma earlier_bounded cap V s0 s : earlier cap V s0 s -> bounded s -> bounded s0.
Proof.
  intros [acts Hacts] Hb. unfold bounded in *.
  pose proof (run_length _ _ _ _ _ Hacts). lia.
Qed.

Lemma reachable_loaded cap V s :
  reachable cap V s ->
  forall j k, stats_conns s !! j = Some k -> loaded_inv cap V s j k.
Proof.
  intros Hr. induction Hr as [|s s' Hr IH [a Ha]]; intros j k Hj.
  - simpl in Hj. rewrite lookup_nil in Hj. discriminate.
  - assert (Hold : forall k0, stats_conns s !! j = Some k0 ->
                     loaded_inv cap V s' j k0).
    { intros k0 Hk0. destruct (IH _ _ Hk0) as [HA HW]. split.
      - intros a0 Ha0. destruct (HA _ Ha0) as (s0 & R0 & E0 & I0 & V0).
        exists s0. repeat split; auto. eapply earlier_step; eauto.
      - intros w0 Hw0. destruct (HW _ Hw0) as (s0 & R0 & E0 & I0 & V0).
        exists s0. repeat split; auto. eapply earlier_step; eauto. }
    assert (Hnow : forall k0, stats_conns s !! j = Some k0 ->
              reachable cap V s /\ earlier cap V s s' /\
              is_Some (stats_conns s !! j)).
    { intros k0 Hk0. split; [exact Hr|]. split; [|eauto].
      eapply earlier_step; [apply earlier_refl | exact Ha]. }
    destruct (step_stats _ _ _ _ _ _ _ Ha Hj)
      as [Hsame | [(_ & _ & ->) | (o & k0 & _ & Hk0 & Hst)]].
    + apply Hold. exact Hsame.
    + split; simpl; discriminate.
    + destruct (stats_next _ _ _ _ _ Hk0 Hst) as (k1 & Hk1 & Hcase).
      assert (k1 = k) as -> by congruence. clear Hk1.
      destruct (Hold _ Hk0) as [HA HW].
      destruct (Hnow _ Hk0) as (N1 & N2 & N3).
      destruct Hcase as [(Hp & _ & Hn & ->) | [(Hp & _ & Hn & ->)
                        | [(Hp & a0 & w0 & Ha0 & Hw0 & ->) | (Hp & ->)]]];
        split; simpl; auto.
      * intros a1 [= <-]. exists s. auto.
      * intros w1 [= <-]. exists s. auto.
      * rewrite <- Ha0. exact HA.
      * rewrite <- Hw0. exact HW.
Qed.

Lemma gate_bounds cap V s :
  0 <= cap -> reachable cap V s -> bounded s ->
  0 <= active s <= cap /\ 0 <= waiting s.
Proof.
  intros Hc Hr Hb.
  pose proof (reachable_gate_inv cap V s Hc Hr Hb) as Hinv.
  rewrite (gi_active _ _ Hinv) at 1. rewrite (gi_waiting _ _ Hinv).
  pose proof (gi_cap _ _ Hinv).
  pose proof (Zcount_nonneg holds_slot (clients s)).
  pose proof (Zcount_nonneg counted_waiting (clients s)). lia.
Qed.

Lemma Zcount_disjoint f g (l : list client) :
  (forall p, f p = true -> g p = false) ->
  Zcount f l + Zcount g l <= Z.of_nat (length l).
Proof.
  intros Hd. unfold Zcount. induction l as [|c l IH]; simpl; [lia|].
  specialize (Hd (c_pc c)).
  destruct (f (c_pc c)); [rewrite Hd by reflexivity|destruct (g (c_pc c))]; lia.
Qed.


(** A session counts in [active] or in [waiting], never in both. *)
Lemma active_waiting_sessions cap V s :
  0 <= cap -> reachable cap V s -> bounded s ->
  active s + waiting s <= Z.of_nat (length (clients s)).
Proof.
  intros Hc Hr Hb.
  pose proof (reachable_gate_inv cap V s Hc Hr Hb) as Hinv.
  rewrite (gi_active _ _ Hinv), (gi_waiting _ _ Hinv).
  apply Zcount_disjoint. intros p. destruct p; simpl; congruence.
Qed.

(** ** The properties of the specification *)

Ltac by_run sched :=
  eapply (run_reachable _ _ sched init);
  [apply reachable_init | vm_compute; reflexivity].

Ltac is_bounded := unfold bounded; simpl; lia.

(** C1.  In every reachable state of the process, for a capacity of at
    least one and as many sessions as fit Go's [int]: [active] is between
    zero and the capacity, [waiting] is not negative, and a step that
    changes either counter is a statement of the goroutine that holds the
    mutex of [wCond]. *)
Theorem gate_invariant cap V s :
  1 <= cap -> reachable cap V s -> bounded s ->
  (0 <= active s <= cap /\ 0 <= waiting s) /\
  (forall a s', step_fn cap V s a = Some s' ->
     active s' <> active s \/ waiting s' <> waiting s ->
     exists t e, a = Run t e /\ wCond_L s = Some t).
Proof.
  intros Hc Hr Hb.
  assert (Hinv : gate_inv cap s)
    by (apply (reachable_gate_inv cap V); auto; lia).
  split.
  - rewrite (gi_active _ _ Hinv) at 1. rewrite (gi_waiting _ _ Hinv).
    pose proof (gi_cap _ _ Hinv).
    pose proof (Zcount_nonneg holds_slot (clients s)).
    pose proof (Zcount_nonneg counted_waiting (clients s)). lia.
  - intros a s'. apply step_mutates_locked. exact Hinv.
Qed.

Lemma gate_invariant_witness :
  (0 <= active state_two_waiting <= 1 /\ 0 <= waiting state_two_waiting) /\
  (forall a s', step_fn 1 Closures state_two_waiting a = Some s' ->
     active s' <> active state_two_waiting
     \/ waiting s' <> waiting state_two_waiting ->
     exists t e, a = Run t e /\ wCond_L state_two_waiting = Some t).
Proof.
  apply (gate_invariant 1 Closures state_two_waiting).
  - lia.
  - by_run sched_two_waiting.
  - is_bounded.
Defined.

(** C2, as stated, fails for [proxy] in main.go: the client-to-server
    copy has terminated, the other direction is still copying, and the
    session cannot record [doneAt]: [w.Wait()] is not enabled. *)
Lemma proxy_waits_for_both_directions :
  run 1 Closures sched_one_direction_done init
    = Some state_one_direction_done /\
  pc_of state_one_direction_done 0 = Some WaitPump /\
  c_to (client_at state_one_direction_done 0) = CExited /\
  c_from (client_at state_one_direction_done 0) = CCopying /\
  c_done (client_at state_one_direction_done 0) = false /\
  (forall e, step_fn 1 Closures state_one_direction_done (Run 0 e) = None).
Proof. repeat split. Qed.

(** C2, amended.  In the [client] variant the session blocked in
    [<-done] cannot run by itself: it leaves the receive only together
    with the send of one of its copy goroutines, and it does so as soon
    as either of them gets there.  Once [io.Copy] of one direction has
    returned, [c.w.Done()] and the send of that goroutine cannot block,
    whatever the other direction is doing, and the next statement of the
    session records [c.done].  In [proxy] the session waits for both
    directions: [w.Wait()] returns exactly when both copy goroutines have
    exited, the session leaves it in no other way, and [doneAt] is
    recorded only after that. *)
Theorem pump_completion cap s t c :
  clients s !! t = Some c -> crashed s = false ->
  (reachable cap Struct s -> c_pc c = WaitPump ->
     (forall e, step_fn cap Struct s (Run t e) = None) /\
     (forall a s' c', step_fn cap Struct s a = Some s' ->
        clients s' !! t = Some c' -> c_pc c' <> WaitPump ->
        c_pc c' = RecordDone /\
        exists d, a = Copier t d /\ get_cp d c = CSend) /\
     (forall d, get_cp d c = CSend ->
        exists s', step_fn cap Struct s (Copier t d) = Some s' /\
          pc_of s' t = Some RecordDone /\
          get_cp (other d) (client_at s' t) = get_cp (other d) c /\
          c_done (client_at s' t) = c_done c) /\
     (forall d, get_cp d c = CCopying ->
        exists s', run cap Struct [Copier t d; Copier t d; Copier t d] s
                   = Some s' /\
          pc_of s' t = Some RecordDone /\
          get_cp d (client_at s' t) = CExited /\
          get_cp (other d) (client_at s' t) = get_cp (other d) c)) /\
  (c_pc c = RecordDone ->
     forall e, exists s', step_fn cap Struct s (Run t e) = Some s' /\
       pc_of s' t = Some LogSuccess /\
       c_done (client_at s' t) = true /\
       c_to (client_at s' t) = c_to c /\ c_from (client_at s' t) = c_from c) /\
  (reachable cap Closures s -> c_done c = true ->
     c_to c = CExited /\ c_from c = CExited) /\
  (reachable cap Closures s -> c_pc c = WaitPump ->
     (c_to c <> CExited \/ c_from c <> CExited ->
      forall e, step_fn cap Closures s (Run t e) = None) /\
     (c_to c = CExited -> c_from c = CExited ->
      forall e, exists s', step_fn cap Closures s (Run t e) = Some s' /\
        pc_of s' t = Some RecordDone) /\
     (forall a s' c', step_fn cap Closures s a = Some s' ->
        clients s' !! t = Some c' -> c_pc c' <> WaitPump ->
        c_pc c' = RecordDone /\ c_to c = CExited /\ c_from c = CExited /\
        exists e, a = Run t e)) /\
  (c_pc c = RecordDone ->
     forall e, exists s', step_fn cap Closures s (Run t e) = Some s' /\
       pc_of s' t = Some DeferCloseServer /\
       c_done (client_at s' t) = true).
Proof.
  intros Hl Hc.
  assert (Hlt : (t < length (clients s))%nat) by (eapply lookup_lt_Some; eauto).
  split; [|split; [|split; [|split]]].
  - intros Hr Hpc. split; [|split; [|split]].
    + intros e. unfold step_fn. rewrite Hc, Hl.
      unfold mind, doProxy, copyAll. rewrite Hpc. reflexivity.
    + intros a s' c' Hs Hl' Hne.
      assert (Hne' : c_pc c' <> c_pc c) by congruence.
      pose proof (step_leaves _ _ _ _ _ _ _ _ Hs Hl Hl' Hne') as Hto.
      rewrite Hpc in Hto.
      pose proof (step_enters _ _ _ _ _ _ _ _ Hs Hl Hl' Hne') as Hfrom.
      rewrite Hto in Hfrom. split; [exact Hto|]. apply Hfrom.
    + intros d Hd. unfold step_fn. rewrite Hc, Hl.
      unfold copy_method. rewrite Hd, Hpc. eexists. split; [reflexivity|].
      unfold pc_of, client_at. simpl.
      rewrite list_lookup_insert_eq by exact Hlt. destruct d; auto.
    + intros d Hd.
      destruct (struct_pump_run cap s t c d Hr Hc Hl Hpc Hd)
        as (s' & H1 & H2 & H3 & H4 & _).
      exists s'. auto.
  - intros Hpc e. unfold step_fn. rewrite Hc, Hl.
    unfold mind, doProxy, copyAll. rewrite Hpc. eexists. split; [reflexivity|].
    unfold pc_of, client_at. simpl.
    rewrite list_lookup_insert_eq by exact Hlt. auto.
  - intros Hr Hd.
    pose proof (pump_closures_reachable _ _ _ _ Hr Hl) as Hp.
    unfold pump_closures in Hp.
    destruct (c_pc c); intuition congruence.
  - intros Hr Hpc.
    pose proof (pump_closures_reachable _ _ _ _ Hr Hl) as Hp.
    unfold pump_closures in Hp. rewrite Hpc in Hp.
    destruct Hp as (Hw & _).
    assert (Hzero : c_w c = 0 <-> c_to c = CExited /\ c_from c = CExited).
    { rewrite Hw. unfold live. destruct (c_to c), (c_from c);
        split; intros Hq; try lia; try (destruct Hq; congruence); auto. }
    split; [|split].
    + intros Hlive e. unfold step_fn. rewrite Hc, Hl.
      unfold proxy. rewrite Hpc.
      destruct (c_w c =? 0) eqn:Hz; [|reflexivity].
      apply Z.eqb_eq in Hz. apply Hzero in Hz. destruct Hz, Hlive; congruence.
    + intros Hto Hfrom e. unfold step_fn. rewrite Hc, Hl.
      unfold proxy. rewrite Hpc.
      rewrite (proj2 (Z.eqb_eq _ _) (proj2 Hzero (conj Hto Hfrom))).
      eexists. split; [reflexivity|]. unfold pc_of. simpl.
      rewrite list_lookup_insert_eq by exact Hlt. reflexivity.
    + intros a s' c' Hs Hl' Hne.
      assert (Hne' : c_pc c' <> c_pc c) by congruence.
      pose proof (step_leaves _ _ _ _ _ _ _ _ Hs Hl Hl' Hne') as Hto.
      rewrite Hpc in Hto.
      pose proof (step_enters _ _ _ _ _ _ _ _ Hs Hl Hl' Hne') as Hfrom.
      rewrite Hto in Hfrom. destruct Hfrom as (_ & Hz & He).
      apply Hzero in Hz. destruct Hz. auto.
  - intros Hpc e. unfold step_fn. rewrite Hc, Hl.
    unfold proxy. rewrite Hpc. eexists. split; [reflexivity|].
    unfold pc_of, client_at. simpl.
    rewrite list_lookup_insert_eq by exact Hlt. auto.
Qed.

Lemma pump_completion_witness :
  (forall e, step_fn 1 Struct state_struct_send (Run 0 e) = None) /\
  (exists s', step_fn 1 Struct state_struct_send (Copier 0 FromServer)
              = Some s' /\
     pc_of s' 0 = Some RecordDone /\
     get_cp ToServer (client_at s' 0) = CCopying /\
     c_done (client_at s' 0) = false) /\
  (c_to (client_at state_closures_success 0) = CExited /\
   c_from (client_at state_closures_success 0) = CExited).
Proof.
  assert (Hr : reachable 1 Struct state_struct_send)
    by (by_run sched_struct_send).
  destruct (pump_completion 1 state_struct_send 0
              (client_at state_struct_send 0) eq_refl eq_refl) as (HS & _).
  destruct (HS Hr eq_refl) as (H1 & _ & H3 & _).
  destruct (pump_completion 1 state_closures_success 0
              (client_at state_closures_success 0) eq_refl eq_refl)
    as (_ & _ & HC & _).
  split; [exact H1|]. split; [apply (H3 FromServer); reflexivity|].
  apply HC; [by_run sched_closures_success | reflexivity].
Defined.

(** C3, as stated, fails: a blocked caller does not return just because
    [active < capacity].  Session 1 is parked while session 0 releases:
    [active] is 0, below the capacity 1.  Before the signal of session 0
    is delivered, session 2 arrives and takes the slot without blocking.
    Session 1 is then woken, finds the gate full and parks again: its
    [Acquire] has not returned, no wake-up is pending and it cannot
    run. *)
Lemma blocked_caller_misses_free_slot :
  run 1 Closures sched_slot_free init = Some state_slot_free /\
  pc_of state_slot_free 1 = Some AcqParked /\
  active state_slot_free = 0 /\
  run 1 Closures sched_slot_taken state_slot_free = Some state_slot_taken /\
  pc_of state_slot_taken 1 = Some AcqParked /\
  count_ev is_acquire 1 (trace state_slot_taken) = 0%nat /\
  count_ev is_acquire 2 (trace state_slot_taken) = 1%nat /\
  active state_slot_taken = 1 /\
  Zcount woken (clients state_slot_taken) = 0 /\
  Zcount signal_owed (clients state_slot_taken) = 0 /\
  (forall e, step_fn 1 Closures state_slot_taken (Run 1 e) = None).
Proof. repeat split. Qed.

(** C3, amended.  [pre] / [setup], for a capacity of at least one.
    [waiting] counts exactly the callers between [waiting++] and
    [waiting--], which include every blocked caller and no caller that
    has returned.  At the test the caller holds the lock and is never
    blocked: it parks when [active = capacity] and goes on when
    [active < capacity].  A parked caller cannot run; the only step that
    moves it is the [Signal] of a session that picks it, and such a
    [Signal] always wakes it.  A woken caller goes on exactly when the
    mutex is free, and tests again.  From a successful test the caller
    returns in four statements, none of which can block, with [active]
    one higher and within the capacity and [waiting] one lower; a woken
    caller that finds the mutex free and [active < capacity] returns in
    five.  There is no other way to return: the return is the deferred
    unlock after [active++], which follows [waiting--], which follows a
    test of the caller itself at which [active < capacity]. *)
Theorem acquire_contract cap V s t c :
  1 <= cap -> reachable cap V s -> bounded s -> crashed s = false ->
  clients s !! t = Some c ->
  (waiting s = Zcount counted_waiting (clients s) /\
   (blocked (c_pc c) = true -> counted_waiting (c_pc c) = true) /\
   (acquired (c_pc c) = true -> counted_waiting (c_pc c) = false)) /\
  (c_pc c = AcqTest ->
     wCond_L s = Some t /\
     forall e, exists s', step_fn cap V s (Run t e) = Some s' /\
       active s' = active s /\ waiting s' = waiting s /\
       ((active s = cap /\ pc_of s' t = Some AcqParked
         /\ wCond_L s' = None) \/
        (active s < cap /\ pc_of s' t = Some AcqDecWaiting
         /\ wCond_L s' = Some t))) /\
  (c_pc c = AcqParked ->
     (forall e, step_fn cap V s (Run t e) = None) /\
     (forall a s' c', step_fn cap V s a = Some s' ->
        clients s' !! t = Some c' -> c_pc c' <> AcqParked ->
        c_pc c' = AcqWoken /\
        exists u e, a = Run u e /\ wake e = t /\ pc_of s u = Some RelSignal) /\
     (forall u cu e, clients s !! u = Some cu -> c_pc cu = RelSignal ->
        wake e = t ->
        exists s', step_fn cap V s (Run u e) = Some s' /\
          pc_of s' t = Some AcqWoken)) /\
  (c_pc c = AcqWoken -> forall e,
     (wCond_L s <> None -> step_fn cap V s (Run t e) = None) /\
     (wCond_L s = None ->
      exists s', step_fn cap V s (Run t e) = Some s' /\
        wCond_L s' = Some t /\ pc_of s' t = Some AcqTest /\
        active s' = active s /\ waiting s' = waiting s) /\
     (wCond_L s = None -> active s < cap ->
      exists s', run cap V (replicate 5 (Run t e)) s = Some s' /\
        pc_of s' t = Some Dial /\ active s' = active s + 1 /\
        waiting s' = waiting s - 1)) /\
  (c_pc c = AcqTest -> active s < cap -> forall e,
     exists s', run cap V (replicate 4 (Run t e)) s = Some s' /\
       pc_of s' t = Some Dial /\ active s' = active s + 1 /\
       active s' <= cap /\ waiting s' = waiting s - 1 /\
       wCond_L s' = None) /\
  (passed_test (c_pc c) = true -> active s < cap /\ wCond_L s = Some t) /\
  (forall a s' c', step_fn cap V s a = Some s' ->
     clients s' !! t = Some c' -> c_pc c' <> c_pc c ->
     (c_pc c' = AcqDecWaiting ->
        c_pc c = AcqTest /\ active s < cap /\ exists e, a = Run t e) /\
     (c_pc c' = AcqIncActive ->
        c_pc c = AcqDecWaiting /\ waiting s' = waiting s - 1
        /\ active s' = active s) /\
     (c_pc c' = AcqUnlock ->
        c_pc c = AcqIncActive /\ active s' = active s + 1
        /\ active s' <= cap /\ waiting s' = waiting s) /\
     (c_pc c' = Dial ->
        c_pc c = AcqUnlock /\ active s' = active s
        /\ waiting s' = waiting s /\ wCond_L s' = None) /\
     (acquired (c_pc c) = false -> acquired (c_pc c') = true ->
        c_pc c = AcqUnlock /\ c_pc c' = Dial)).
Proof.
  intros Hc Hr Hb Hcr Hl.
  assert (Hinv : gate_inv cap s)
    by (apply (reachable_gate_inv cap V); auto; lia).
  assert (Hlen : (t < length (clients s))%nat) by (eapply lookup_lt_Some; eauto).
  split; [|split; [|split; [|split; [|split; [|split]]]]].
  - split; [apply (gi_waiting _ _ Hinv)|].
    split; destruct (c_pc c); simpl; congruence.
  - intros Hpc. split.
    { apply (gi_crit _ _ Hinv _ _ Hl). rewrite Hpc. reflexivity. }
    intros e.
    pose proof (locked_step cap V s t e c Hinv Hcr Hl) as T. rewrite Hpc in T.
    destruct T as (s' & c' & Hs & _).
    pose proof (acquire_steps _ _ _ _ _ _ _ Hinv Hb Hl Hs) as E.
    rewrite Hpc in E. exists s'. tauto.
  - intros Hpc. split; [|split].
    + intros e. pose proof (acquire_enabled cap V s t e c Hcr Hl) as E.
      rewrite Hpc in E. exact E.
    + intros a s' c' Hs Hl' Hne.
      assert (Hne' : c_pc c' <> c_pc c) by congruence.
      pose proof (step_leaves _ _ _ _ _ _ _ _ Hs Hl Hl' Hne') as Hto.
      rewrite Hpc in Hto.
      pose proof (step_enters _ _ _ _ _ _ _ _ Hs Hl Hl' Hne') as Hfrom.
      rewrite Hto in Hfrom. split; [exact Hto|]. apply Hfrom.
    + intros u cu e Hu Hpu Hw.
      destruct (signal_step cap V s u e cu Hcr Hu Hpu) as (_ & Tp & _).
      rewrite Hw in Tp. specialize (Tp c Hl Hpc).
      eexists. split; [exact Tp|].
      assert (Hut : u <> t) by (intros ->; congruence).
      unfold pc_of. simpl. rewrite list_lookup_insert_ne by exact Hut.
      rewrite list_lookup_insert_eq by exact Hlen. reflexivity.
  - intros Hpc e.
    pose proof (lock_step cap V s t e c Hcr Hl) as T. rewrite Hpc in T.
    destruct T as (Tn & Ts). split; [exact Tn|]. split.
    + intros Hfree. rewrite (Ts Hfree). eexists. split; [reflexivity|].
      simpl. split; [reflexivity|]. split; [|auto].
      unfold pc_of. simpl. rewrite list_lookup_insert_eq by exact Hlen.
      reflexivity.
    + intros Hfree Hlt.
      apply (acquire_from_woken cap V s t c e); auto.
  - intros Hpc Hlt e.
    destruct (acquire_from_test cap V s t c e Hc Hr Hb Hcr Hl Hpc Hlt)
      as (s' & H1 & H2 & H3 & H4 & H5 & H6 & _).
    exists s'. tauto.
  - intros Hp. split; [apply (gi_passed _ _ Hinv _ _ Hl Hp)|].
    apply (gi_crit _ _ Hinv _ _ Hl).
    destruct (c_pc c); simpl in *; congruence.
  - intros a s' c' Hs Hl' Hne.
    pose proof (step_leaves _ _ _ _ _ _ _ _ Hs Hl Hl' Hne) as Hto.
    pose proof (step_enters _ _ _ _ _ _ _ _ Hs Hl Hl' Hne) as Hfrom.
    pose proof (gi_cap _ _ Hinv) as Hcap.
    assert (Hacq : forall e, a = Run t e ->
              match c_pc c with
              | AcqDecWaiting =>
                  waiting s' = waiting s - 1 /\ active s' = active s
              | AcqIncActive =>
                  active s' = active s + 1 /\ active s' <= cap
                  /\ waiting s' = waiting s
              | AcqUnlock =>
                  active s' = active s /\ waiting s' = waiting s
                  /\ wCond_L s' = None
              | _ => True
              end).
    { intros e ->.
      pose proof (acquire_steps _ _ _ _ _ _ _ Hinv Hb Hl Hs) as E.
      destruct (c_pc c); try exact I; tauto. }
    split; [|split; [|split; [|split]]].
    + intros Hq. rewrite Hq in Hfrom. destruct Hfrom as (H1 & H2 & H3).
      repeat split; auto. lia.
    + intros Hq. rewrite Hq in Hfrom. destruct Hfrom as (H1 & e & He).
      specialize (Hacq e He). rewrite H1 in Hacq. tauto.
    + intros Hq. rewrite Hq in Hfrom. destruct Hfrom as (H1 & e & He).
      specialize (Hacq e He). rewrite H1 in Hacq. tauto.
    + intros Hq. rewrite Hq in Hfrom. destruct Hfrom as (H1 & e & He).
      specialize (Hacq e He). rewrite H1 in Hacq. tauto.
    + intros Hn Hy. clear Hfrom Hacq.
      destruct (c_pc c); simpl in Hn; try discriminate;
        try (rewrite Hto in Hy; simpl in Hy; discriminate);
        try (destruct V; rewrite Hto in Hy; simpl in Hy; discriminate);
        try (destruct Hto as [Hto|Hto]; rewrite Hto in Hy; simpl in Hy;
             discriminate).
      auto.
Qed.

Lemma acquire_contract_witness :
  (forall e, step_fn 1 Closures state_two_waiting (Run 1 e) = None) /\
  (forall e, exists s',
     step_fn 1 Closures state_two_waiting (Run 2 e) = Some s' /\
     active s' = active state_two_waiting /\
     waiting s' = waiting state_two_waiting /\
     ((active state_two_waiting = 1 /\ pc_of s' 2 = Some AcqParked
       /\ wCond_L s' = None) \/
      (active state_two_waiting < 1 /\ pc_of s' 2 = Some AcqDecWaiting
       /\ wCond_L s' = Some 2%nat))) /\
  (forall e, exists s',
     run 2 Closures (replicate 4 (Run 0 e)) state_closures_pre_acquire
     = Some s' /\
     pc_of s' 0 = Some Dial /\
     active s' = active state_closures_pre_acquire + 1 /\
     active s' <= 2 /\
     waiting s' = waiting state_closures_pre_acquire - 1 /\
     wCond_L s' = None).
Proof.
  assert (Hr : reachable 1 Closures state_two_waiting)
    by (by_run sched_two_waiting).
  assert (Hb : bounded state_two_waiting) by is_bounded.
  assert (Hr2 : reachable 2 Closures state_closures_pre_acquire)
    by (by_run sched_closures_pre_acquire).
  assert (Hb2 : bounded state_closures_pre_acquire) by is_bounded.
  destruct (acquire_contract 1 Closures state_two_waiting 1
              (client_at state_two_waiting 1)
              ltac:(lia) Hr Hb eq_refl eq_refl) as (_ & _ & HP & _).
  destruct (acquire_contract 1 Closures state_two_waiting 2
              (client_at state_two_waiting 2)
              ltac:(lia) Hr Hb eq_refl eq_refl) as (_ & HT & _).
  destruct (acquire_contract 2 Closures state_closures_pre_acquire 0
              (client_at state_closures_pre_acquire 0)
              ltac:(lia) Hr2 Hb2 eq_refl eq_refl)
    as (_ & _ & _ & _ & HR & _).
  split; [apply (HP eq_refl)|]. split; [apply (HT eq_refl)|].
  apply (HR eq_refl). simpl. lia.
Defined.

(** C4, as stated, fails: session 0 calls [post] while [waiting = 1] and
    session 1 is parked in [Wait].  Between the unlock and the signal of
    session 0, session 2 arrives and takes the freed slot without ever
    blocking.  The signal wakes session 1, which finds the gate full and
    parks again.  The release has run to its end, no wake-up is pending,
    and no blocked [Acquire] has returned. *)
Lemma release_returns_no_blocked_caller :
  run 1 Closures sched_before_release init = Some state_before_release /\
  pc_of state_before_release 0 = Some RelLock /\
  waiting state_before_release = 1 /\
  pc_of state_before_release 1 = Some AcqParked /\
  pc_of state_before_release 2 = Some Start /\
  run 1 Closures sched_release_barged state_before_release
    = Some state_release_barged /\
  pc_of state_release_barged 0 = Some Done /\
  count_ev is_release 0 (trace state_release_barged) = 1%nat /\
  pc_of state_release_barged 1 = Some AcqParked /\
  count_ev is_acquire 1 (trace state_release_barged) = 0%nat /\
  count_ev is_acquire 2 (trace state_release_barged) = 1%nat /\
  Zcount woken (clients state_release_barged) = 0 /\
  (forall e, step_fn 1 Closures state_release_barged (Run 1 e) = None).
Proof. repeat split. Qed.

(** C4, amended.  [post] / the tail of [teardown], for a capacity of at
    least one.  The release is four statements: [Lock], which goes on
    exactly when the mutex is free; [active--], under the lock, which
    subtracts exactly one; [Unlock]; and, as a separate later statement,
    [Signal].  None of the last three can block, and each is reached only
    from the one before it.  [Signal] changes no counter and can always
    run; when no caller is parked it touches no other session, otherwise
    it wakes exactly the parked caller that the scheduler picks and
    leaves every other session alone.  A step of the process takes at most one caller out of the
    parked state, and only a [Signal] does: along every run the wake-ups
    never outnumber the sessions that have got past their [Signal], which
    are among those that have decremented [active].  A session past its
    [Signal] stays there.  A woken caller tests the gate again and parks
    again when it is full. *)
Theorem release_contract cap V s t c :
  1 <= cap -> reachable cap V s -> bounded s -> crashed s = false ->
  clients s !! t = Some c ->
  (c_pc c = RelLock -> forall e,
     (wCond_L s <> None -> step_fn cap V s (Run t e) = None) /\
     (wCond_L s = None ->
      exists s', step_fn cap V s (Run t e) = Some s' /\
        wCond_L s' = Some t /\ active s' = active s /\
        waiting s' = waiting s /\ pc_of s' t = Some RelDecActive)) /\
  (c_pc c = RelDecActive ->
     wCond_L s = Some t /\
     forall e, exists s', step_fn cap V s (Run t e) = Some s' /\
       active s' = active s - 1 /\ waiting s' = waiting s /\
       pc_of s' t = Some RelUnlock /\
       Zcount parked (clients s') = Zcount parked (clients s)) /\
  (c_pc c = RelUnlock ->
     forall e, exists s', step_fn cap V s (Run t e) = Some s' /\
       wCond_L s' = None /\ active s' = active s /\
       waiting s' = waiting s /\ pc_of s' t = Some RelSignal /\
       Zcount parked (clients s') = Zcount parked (clients s)) /\
  (c_pc c = RelSignal ->
     (Zcount parked (clients s) = 0 -> forall e,
      exists s', step_fn cap V s (Run t e) = Some s' /\
        active s' = active s /\ waiting s' = waiting s /\
        forall u, u <> t -> clients s' !! u = clients s !! u) /\
     (forall e k, clients s !! wake e = Some k -> c_pc k = AcqParked ->
      exists s', step_fn cap V s (Run t e) = Some s' /\
        active s' = active s /\ waiting s' = waiting s /\
        pc_of s' (wake e) = Some AcqWoken /\
        Zcount parked (clients s') = Zcount parked (clients s) - 1 /\
        Zcount woken (clients s') = Zcount woken (clients s) + 1 /\
        forall u, u <> t -> u <> wake e -> clients s' !! u = clients s !! u) /\
     (forall e, 0 < Zcount parked (clients s) ->
        pc_of s (wake e) <> Some AcqParked ->
        step_fn cap V s (Run t e) = None) /\
     (exists e s', step_fn cap V s (Run t e) = Some s') /\
     (forall e s', step_fn cap V s (Run t e) = Some s' ->
        pc_of s' t
        = Some (match V with Closures => DeferCloseConn | Struct => Done end))) /\
  (c_pc c = RelLock -> wCond_L s = None -> forall e,
     Zcount parked (clients s) = 0 \/ pc_of s (wake e) = Some AcqParked ->
     exists s', run cap V (replicate 4 (Run t e)) s = Some s' /\
       pc_of s' t
       = Some (match V with Closures => DeferCloseConn | Struct => Done end) /\
       active s' = active s - 1 /\ waiting s' = waiting s /\
       wCond_L s' = None /\
       ((Zcount parked (clients s) = 0 /\ Zcount parked (clients s') = 0 /\
         Zcount woken (clients s') = Zcount woken (clients s)) \/
        (pc_of s (wake e) = Some AcqParked /\
         pc_of s' (wake e) = Some AcqWoken /\
         Zcount parked (clients s') = Zcount parked (clients s) - 1 /\
         Zcount woken (clients s') = Zcount woken (clients s) + 1))) /\
  (forall a s' c', step_fn cap V s a = Some s' ->
     clients s' !! t = Some c' -> c_pc c' <> c_pc c ->
     (c_pc c' = RelDecActive -> c_pc c = RelLock /\ wCond_L s = None) /\
     (c_pc c' = RelUnlock ->
        c_pc c = RelDecActive /\ active s' = active s - 1) /\
     (c_pc c' = RelSignal -> c_pc c = RelUnlock /\ wCond_L s' = None) /\
     (c_pc c = RelSignal -> signalled (c_pc c') = true) /\
     (signalled (c_pc c) = true -> signalled (c_pc c') = true)) /\
  (forall a s', step_fn cap V s a = Some s' ->
     Zcount parked (clients s) - 1 <= Zcount parked (clients s') /\
     (Zcount parked (clients s') < Zcount parked (clients s) ->
      Zcount woken (clients s') = Zcount woken (clients s) + 1 /\
      Zcount signalled (clients s') = Zcount signalled (clients s) + 1 /\
      exists u e, a = Run u e /\ pc_of s u = Some RelSignal /\
                  pc_of s (wake e) = Some AcqParked /\
                  pc_of s' (wake e) = Some AcqWoken)) /\
  (forall acts, run cap V acts init = Some s ->
     wakeups cap V acts init <= Zcount signalled (clients s) /\
     Zcount signalled (clients s) <= Zcount released (clients s)) /\
  (c_pc c = AcqWoken -> wCond_L s = None -> forall e,
     exists s', step_fn cap V s (Run t e) = Some s' /\
       pc_of s' t = Some AcqTest) /\
  (c_pc c = AcqTest -> active s = cap -> forall e,
     exists s', step_fn cap V s (Run t e) = Some s' /\
       pc_of s' t = Some AcqParked).
Proof.
  intros Hc Hr Hb Hcr Hl.
  assert (Hinv : gate_inv cap s)
    by (apply (reachable_gate_inv cap V); auto; lia).
  assert (Hlen : (t < length (clients s))%nat) by (eapply lookup_lt_Some; eauto).
  split; [|split; [|split; [|split; [|split; [|split; [|split; [|split; [|split]]]]]]]].
  - intros Hpc e.
    pose proof (lock_step cap V s t e c Hcr Hl) as T. rewrite Hpc in T.
    destruct T as (Tn & Ts). split; [exact Tn|].
    intros Hfree. rewrite (Ts Hfree). eexists. split; [reflexivity|].
    simpl. repeat split.
    unfold pc_of. simpl. rewrite list_lookup_insert_eq by exact Hlen.
    reflexivity.
  - intros Hpc. split.
    { apply (gi_crit _ _ Hinv _ _ Hl). rewrite Hpc. reflexivity. }
    intros e.
    pose proof (locked_step cap V s t e c Hinv Hcr Hl) as T. rewrite Hpc in T.
    destruct T as (s' & c' & Hs & _ & Hcl & _).
    pose proof (release_steps _ _ _ _ _ _ _ Hinv Hb Hl Hs) as E.
    rewrite Hpc in E. destruct E as (_ & E1 & E2 & E3).
    exists s'. repeat split; auto.
    assert (Hl' : clients s' !! t = Some c')
      by (rewrite Hcl; apply list_lookup_insert_eq; exact Hlen).
    rewrite Hcl. apply (Zcount_move parked _ _ _ _ Hl).
    + rewrite Hpc. reflexivity.
    + rewrite (pc_of_lookup _ _ _ _ Hl' E3). reflexivity.
  - intros Hpc e.
    pose proof (locked_step cap V s t e c Hinv Hcr Hl) as T. rewrite Hpc in T.
    destruct T as (s' & c' & Hs & _ & Hcl & _).
    pose proof (release_steps _ _ _ _ _ _ _ Hinv Hb Hl Hs) as E.
    rewrite Hpc in E. destruct E as (E0 & E1 & E2 & E3).
    exists s'. repeat split; auto.
    assert (Hl' : clients s' !! t = Some c')
      by (rewrite Hcl; apply list_lookup_insert_eq; exact Hlen).
    rewrite Hcl. apply (Zcount_move parked _ _ _ _ Hl).
    + rewrite Hpc. reflexivity.
    + rewrite (pc_of_lookup _ _ _ _ Hl' E3). reflexivity.
  - intros Hpc.
    split; [|split; [|split; [|split]]].
    + intros Hz e.
      destruct (signal_step cap V s t e c Hcr Hl Hpc) as (Tz & _ & _).
      rewrite (Tz Hz). eexists. split; [reflexivity|]. simpl.
      repeat split. intros u Hu. apply list_lookup_insert_ne. congruence.
    + intros e k Hk Hpk.
      destruct (signal_step cap V s t e c Hcr Hl Hpc) as (_ & Tp & _).
      rewrite (Tp k Hk Hpk). eexists. split; [reflexivity|].
      assert (Hwt : wake e <> t) by (intros Hq; rewrite Hq in Hk; congruence).
      assert (Hl1 : <[wake e := set_pc AcqWoken k]> (clients s) !! t = Some c)
        by (rewrite list_lookup_insert_ne by exact Hwt; exact Hl).
      simpl. split; [reflexivity|]. split; [reflexivity|]. split.
      { unfold pc_of. simpl. rewrite list_lookup_insert_ne by congruence.
        rewrite list_lookup_insert_eq by (eapply lookup_lt_Some; eauto).
        reflexivity. }
      rewrite !(Zcount_insert _ _ _ _ _ Hl1), Hpc.
      rewrite !(Zcount_insert _ _ _ _ _ Hk), Hpk.
      split; [destruct V; simpl; lia|]. split; [destruct V; simpl; lia|].
      intros u Hu Hw. rewrite list_lookup_insert_ne by congruence.
      apply list_lookup_insert_ne. congruence.
    + intros e. apply (signal_step cap V s t e c Hcr Hl Hpc).
    + destruct (parked_exists (clients s)) as [Hz | (w & k & Hk & Hpk)].
      * destruct (signal_step cap V s t (connect 0) c Hcr Hl Hpc)
          as (Tz & _ & _). eauto.
      * destruct (signal_step cap V s t (connect w) c Hcr Hl Hpc)
          as (_ & Tp & _). specialize (Tp k Hk Hpk). eauto.
    + intros e s' Hs. apply (signal_result _ _ _ _ _ _ _ Hs Hl Hpc).
  - intros Hpc Hfree e Hwake.
    destruct (release_run cap V s t c e Hc Hr Hb Hcr Hl Hpc Hfree Hwake)
      as (s' & H1 & H2 & H3 & H4 & H5 & _ & H7).
    exists s'. tauto.
  - intros a s' c' Hs Hl' Hne.
    pose proof (step_leaves _ _ _ _ _ _ _ _ Hs Hl Hl' Hne) as Hto.
    pose proof (step_enters _ _ _ _ _ _ _ _ Hs Hl Hl' Hne) as Hfrom.
    assert (Hrel : forall e, a = Run t e ->
              match c_pc c with
              | RelDecActive => active s' = active s - 1
              | RelUnlock => wCond_L s' = None
              | _ => True
              end).
    { intros e ->.
      pose proof (release_steps _ _ _ _ _ _ _ Hinv Hb Hl Hs) as E.
      destruct (c_pc c); try exact I; tauto. }
    split; [|split; [|split; [|split]]].
    + intros Hq. rewrite Hq in Hfrom. tauto.
    + intros Hq. rewrite Hq in Hfrom. destruct Hfrom as (H1 & e & He).
      specialize (Hrel e He). rewrite H1 in Hrel. tauto.
    + intros Hq. rewrite Hq in Hfrom. destruct Hfrom as (H1 & e & He).
      specialize (Hrel e He). rewrite H1 in Hrel. tauto.
    + intros Hq. rewrite Hq in Hto. rewrite Hto. destruct V; reflexivity.
    + intros Hq. clear Hfrom Hrel.
      destruct (c_pc c); simpl in Hq; try discriminate;
        try contradiction; rewrite Hto; reflexivity.
  - intros a s' Hs.
    destruct (wake_step _ _ _ _ _ Hs) as [(Hp & _) | (Hp & Hw & Hg & Hex)].
    + split; [lia|]. intros Hlt. lia.
    + split; [lia|]. intros _. auto.
  - intros acts Hrun. split.
    + pose proof (wakeups_le _ _ _ _ _ Hrun) as Hle. simpl in Hle.
      unfold Zcount in Hle at 1. simpl in Hle. lia.
    + apply Zcount_mono. intros p. destruct p; simpl; congruence.
  - intros Hpc Hfree e.
    pose proof (lock_step cap V s t e c Hcr Hl) as T. rewrite Hpc in T.
    destruct T as (_ & Ts). rewrite (Ts Hfree). eexists.
    split; [reflexivity|]. unfold pc_of. simpl.
    rewrite list_lookup_insert_eq by exact Hlen. reflexivity.
  - intros Hpc Hfull e.
    pose proof (locked_step cap V s t e c Hinv Hcr Hl) as T. rewrite Hpc in T.
    destruct T as (s' & c' & Hs & _).
    pose proof (acquire_steps _ _ _ _ _ _ _ Hinv Hb Hl Hs) as E.
    rewrite Hpc in E. exists s'. split; [exact Hs|].
    destruct E as (_ & _ & [(_ & Hp & _) | (Hlt & _)]); [exact Hp | lia].
Qed.

Lemma release_contract_witness :
  exists s',
    run 1 Closures (replicate 4 (Run 0 (connect 1))) state_before_release
    = Some s' /\
    pc_of s' 0 = Some DeferCloseConn /\
    active s' = active state_before_release - 1 /\
    waiting s' = waiting state_before_release /\
    wCond_L s' = None /\
    ((Zcount parked (clients state_before_release) = 0 /\
      Zcount parked (clients s') = 0 /\
      Zcount woken (clients s') = Zcount woken (clients state_before_release)) \/
     (pc_of state_before_release 1 = Some AcqParked /\
      pc_of s' 1 = Some AcqWoken /\
      Zcount parked (clients s')
      = Zcount parked (clients state_before_release) - 1 /\
      Zcount woken (clients s')
      = Zcount woken (clients state_before_release) + 1)).
Proof.
  assert (Hr : reachable 1 Closures state_before_release)
    by (by_run sched_before_release).
  assert (Hb : bounded state_before_release) by is_bounded.
  destruct (release_contract 1 Closures state_before_release 0
              (client_at state_before_release 0)
              ltac:(lia) Hr Hb eq_refl eq_refl)
    as (_ & _ & _ & _ & HR & _).
  apply (HR eq_refl eq_refl (connect 1)). right. reflexivity.
Defined.

(** C5, as stated, fails for the [client] variant: a session that
    succeeds logs three lines, the outcome line and the two progress
    lines of [teardown]. *)
Lemma struct_session_logs_three_lines :
  run 1 Struct sched_struct_success init = Some state_struct_success /\
  pc_of state_struct_success 0 = Some Done /\
  c_err (client_at state_struct_success 0) = None /\
  count_ev is_log 0 (trace state_struct_success) = 3%nat.
Proof. repeat split. Qed.

(** C5, amended.  A session whose goroutine has returned has incremented
    [active] exactly once, decremented it exactly once and logged exactly
    one outcome line; in [proxy] that is its only log line, while
    [client.mind] logs three lines in all. *)
Theorem session_effects cap V s t c :
  reachable cap V s -> clients s !! t = Some c -> c_pc c = Done ->
  count_ev is_acquire t (trace s) = 1%nat /\
  count_ev is_release t (trace s) = 1%nat /\
  count_ev is_outcome t (trace s) = 1%nat /\
  count_ev is_log t (trace s)
  = match V with Closures => 1%nat | Struct => 3%nat end.
Proof.
  intros Hr Hl Hpc.
  pose proof (reachable_ev_inv _ _ _ Hr) as [H1 H2 H3 H4 _].
  rewrite (H1 _ _ Hl), (H2 _ _ Hl), (H3 _ _ Hl), (H4 _ _ Hl), Hpc.
  destruct V; repeat split.
Qed.

Lemma session_effects_witness :
  count_ev is_acquire 0 (trace state_closures_success) = 1%nat /\
  count_ev is_release 0 (trace state_closures_success) = 1%nat /\
  count_ev is_outcome 0 (trace state_closures_success) = 1%nat /\
  count_ev is_log 0 (trace state_closures_success) = 1%nat.
Proof.
  apply (session_effects 1 Closures state_closures_success 0
           (client_at state_closures_success 0)).
  - by_run sched_closures_success.
  - reflexivity.
  - reflexivity.
Defined.

(** C6: in the [client] variant a failed dial ends the process.  With
    capacity 2, session 1 relaying and [active = 1], session 0 takes
    the second slot ([active = 2]) and its dial fails: it logs the error line
    and closes the client socket, then [c.server.Close()] on the nil
    [c.server] panics.  [active] stays at 2, there is no release, and no
    goroutine of any session can run any more.  In [proxy] the same
    scenario ends with [active] back at 1 and session 1 still running. *)
Theorem struct_dial_failure_never_releases :
  (run 2 Struct sched_struct_pre_acquire init
     = Some state_struct_pre_acquire /\
   active state_struct_pre_acquire = 1 /\
   run 2 Struct sched_struct_dial_failed init
     = Some state_struct_dial_failed /\
   count_ev is_outcome 0 (trace state_struct_dial_failed) = 1%nat /\
   c_conn (client_at state_struct_dial_failed 0) = SockClosed /\
   crashed state_struct_dial_failed = true /\
   active state_struct_dial_failed = 2 /\
   count_ev is_release 0 (trace state_struct_dial_failed) = 0%nat /\
   (forall a, step_fn 2 Struct state_struct_dial_failed a = None)) /\
  (run 2 Closures sched_closures_pre_acquire init
     = Some state_closures_pre_acquire /\
   active state_closures_pre_acquire = 1 /\
   run 2 Closures sched_closures_dial_failed init
     = Some state_closures_dial_failed /\
   pc_of state_closures_dial_failed 0 = Some Done /\
   count_ev is_outcome 0 (trace state_closures_dial_failed) = 1%nat /\
   c_conn (client_at state_closures_dial_failed 0) = SockClosed /\
   crashed state_closures_dial_failed = false /\
   active state_closures_dial_failed = 1 /\
   count_ev is_release 0 (trace state_closures_dial_failed) = 1%nat /\
   is_Some (step_fn 2 Closures state_closures_dial_failed
              (Copier 1 ToServer))).
Proof.
  split.
  - repeat split.
  - repeat split. eexists. reflexivity.
Qed.

(** C7: in [client.teardown], closing the backend socket that was never
    opened crashes the process.  After a failed dial [c.server] is nil;
    the session is at [c.server.Close()] and that statement panics,
    whatever the scheduler does. *)
Theorem struct_close_of_nil_server_panics :
  run 1 Struct sched_struct_nil_close init = Some state_struct_nil_close /\
  pc_of state_struct_nil_close 0 = Some TdCloseServer /\
  c_server (client_at state_struct_nil_close 0) = SockNil /\
  crashed state_struct_nil_close = false /\
  count_ev is_release 0 (trace state_struct_nil_close) = 0%nat /\
  (forall e, step_fn 1 Struct state_struct_nil_close (Run 0 e)
             = Some (panic state_struct_nil_close)) /\
  crashed (panic state_struct_nil_close) = true /\
  (forall a, step_fn 1 Struct (panic state_struct_nil_close) a = None).
Proof. repeat split. Qed.

(** C8: in the [client] variant the copy goroutine that lost the race is
    never released.  The session has run [teardown] to its end and both
    sockets are closed; [io.Copy] of the server-to-client goroutine has
    returned and the goroutine is at [done <- true].  It cannot run, and
    in every state the process can reach from there it is still at that
    send: nobody receives from [done] again. *)
Theorem struct_orphan_copy_never_exits :
  run 1 Struct sched_struct_orphan init = Some state_struct_orphan /\
  pc_of state_struct_orphan 0 = Some Done /\
  c_conn (client_at state_struct_orphan 0) = SockClosed /\
  c_server (client_at state_struct_orphan 0) = SockClosed /\
  c_from (client_at state_struct_orphan 0) = CSend /\
  step_fn 1 Struct state_struct_orphan (Copier 0 FromServer) = None /\
  (forall acts s', run 1 Struct acts state_struct_orphan = Some s' ->
     c_from (client_at s' 0) = CSend /\
     step_fn 1 Struct s' (Copier 0 FromServer) = None).
Proof.
  repeat split.
  - destruct (orphan_run 1 acts state_struct_orphan s' 0 FromServer
                (client_at state_struct_orphan 0) H eq_refl eq_refl eq_refl)
      as (c' & Hl & _ & Hd).
    unfold client_at. rewrite Hl. exact Hd.
  - destruct (orphan_run 1 acts state_struct_orphan s' 0 FromServer
                (client_at state_struct_orphan 0) H eq_refl eq_refl eq_refl)
      as (c' & Hl & Hp & Hd).
    unfold step_fn. destruct (crashed s'); [reflexivity|].
    rewrite Hl. unfold copy_method. rewrite Hd.
    destruct (c_pc c'); simpl in Hp; try discriminate; reflexivity.
Qed.

(** C9, as stated, fails: the line need not hold the counters of any
    state of the gate.  With capacity 1 and a single session, the handler
    loads [waiting] while the session is at the test of the loop
    ([waiting = 1], [active = 0]) and [active] after the session has
    taken the slot ([active = 1], [waiting = 0]); it writes
    ["active: 1, waiting: 1\n"], although with one session the two
    counters never add up to more than one. *)
Lemma stats_line_mixes_two_states :
  run 1 Closures sched_stats_mixed init = Some state_stats_mixed /\
  length (clients state_stats_mixed) = 1%nat /\
  active state_stats_mixed = 1 /\ waiting state_stats_mixed = 0 /\
  st_io <$> stats_conns state_stats_mixed !! 0%nat
  = Some [IoWrite (protocol_line 1 1); IoClose] /\
  (forall acts s, run 1 Closures acts init = Some s ->
     (length (clients s) <= 1)%nat -> active s + waiting s <= 1).
Proof.
  repeat split.
  intros acts s Hrun Hlen.
  assert (Hr : reachable 1 Closures s)
    by (eapply run_reachable; [apply reachable_init | exact Hrun]).
  assert (Hb : bounded s) by (unfold bounded; lia).
  pose proof (active_waiting_sessions 1 Closures s ltac:(lia) Hr Hb). lia.
Qed.

(** C9, amended.  Every stats connection sees exactly two operations and
    no read: one write of the line ["active: <int>, waiting: <int>\n"],
    then the close.  The handler is never blocked.  The two integers are
    the values the handler loaded from [active] and [waiting]: two
    separate loads, in either order, each of which takes the value of its
    counter in the state in which it runs, so each integer is the value
    its counter had in some state the process went through after the
    accept, not necessarily the same state for both.  No other goroutine
    touches the connection.  The line holds exactly one line feed, its
    last character, and the two integers read back as the numbers
    written. *)
Theorem stats_responder cap V s i k :
  reachable cap V s -> stats_conns s !! i = Some k ->
  (st_pc k = SEval ->
     st_io k = [] /\ (st_active k = None \/ st_waiting k = None) /\
     (crashed s = false ->
      (st_active k = None ->
       exists s', step_fn cap V s (RunStats i OpActive) = Some s' /\
         stats_conns s' !! i
         = Some (mkStats (after_load (Some (active s)) (st_waiting k))
                         (Some (active s)) (st_waiting k) [])) /\
      (st_waiting k = None ->
       exists s', step_fn cap V s (RunStats i OpWaiting) = Some s' /\
         stats_conns s' !! i
         = Some (mkStats (after_load (st_active k) (Some (waiting s)))
                         (st_active k) (Some (waiting s)) [])))) /\
  (st_pc k = SFprintf ->
     st_io k = [] /\
     exists a w, st_active k = Some a /\ st_waiting k = Some w /\
     (crashed s = false -> forall o,
      exists s', step_fn cap V s (RunStats i o) = Some s' /\
        stats_conns s' !! i
        = Some (mkStats SClose (Some a) (Some w)
                        [IoWrite (protocol_line a w)]))) /\
  (st_pc k = SClose ->
     exists a w, st_active k = Some a /\ st_waiting k = Some w /\
     st_io k = [IoWrite (protocol_line a w)] /\
     (crashed s = false -> forall o,
      exists s', step_fn cap V s (RunStats i o) = Some s' /\
        stats_conns s' !! i
        = Some (mkStats SDone (Some a) (Some w)
                        [IoWrite (protocol_line a w); IoClose]))) /\
  (st_pc k = SDone ->
     (exists a w, st_active k = Some a /\ st_waiting k = Some w /\
        st_io k = [IoWrite (protocol_line a w); IoClose]) /\
     forall o, step_fn cap V s (RunStats i o) = None) /\
  (forall a, st_active k = Some a ->
     exists s0, reachable cap V s0 /\ earlier cap V s0 s /\
                is_Some (stats_conns s0 !! i) /\ active s0 = a) /\
  (forall w, st_waiting k = Some w ->
     exists s0, reachable cap V s0 /\ earlier cap V s0 s /\
                is_Some (stats_conns s0 !! i) /\ waiting s0 = w) /\
  (forall a s', step_fn cap V s a = Some s' ->
     (forall o, a <> RunStats i o) -> stats_conns s' !! i = Some k) /\
  (forall a w,
     count_char LF (protocol_line a w) = 1%nat /\
     (exists body, protocol_line a w = (body ++ String LF EmptyString)%string) /\
     Z.of_int <$> NilZero.int_of_string (fmt_d a) = Some a /\
     Z.of_int <$> NilZero.int_of_string (fmt_d w) = Some w).
Proof.
  intros Hr Hk.
  pose proof (reachable_stats_inv _ _ _ Hr _ _ Hk) as Hinv.
  pose proof (reachable_loaded _ _ _ Hr _ _ Hk) as [HA HW].
  assert (Hlt : (i < length (stats_conns s))%nat)
    by (eapply lookup_lt_Some; eauto).
  unfold stats_inv in Hinv.
  split; [|split; [|split; [|split; [|split; [|split; [|split]]]]]].
  - intros Hp. rewrite Hp in Hinv. destruct Hinv as (Hio & Hnone).
    split; [exact Hio|]. split; [exact Hnone|].
    intros Hc. split; intros Hn; unfold step_fn; rewrite Hc, Hk;
      unfold stats, put_stats; rewrite Hp, Hn, Hio;
      (eexists; split; [reflexivity|]); simpl;
      rewrite list_lookup_insert_eq by exact Hlt; reflexivity.
  - intros Hp. rewrite Hp in Hinv. destruct Hinv as (Hio & a & w & Ha & Hw).
    split; [exact Hio|]. exists a, w. split; [exact Ha|]. split; [exact Hw|].
    intros Hc o. unfold step_fn. rewrite Hc, Hk.
    unfold stats, put_stats. rewrite Hp, Ha, Hw, Hio.
    eexists. split; [reflexivity|]. simpl.
    rewrite list_lookup_insert_eq by exact Hlt. reflexivity.
  - intros Hp. rewrite Hp in Hinv. destruct Hinv as (a & w & Ha & Hw & Hio).
    exists a, w. split; [exact Ha|]. split; [exact Hw|]. split; [exact Hio|].
    intros Hc o. unfold step_fn. rewrite Hc, Hk.
    unfold stats, put_stats. rewrite Hp, Ha, Hw, Hio.
    eexists. split; [reflexivity|]. simpl.
    rewrite list_lookup_insert_eq by exact Hlt. reflexivity.
  - intros Hp. rewrite Hp in Hinv. split; [exact Hinv|].
    intros o. unfold step_fn. destruct (crashed s); [reflexivity|].
    rewrite Hk. unfold stats. rewrite Hp. reflexivity.
  - exact HA.
  - exact HW.
  - intros a s' Hs Hna.
    assert (Hlt' : (i < length (stats_conns s'))%nat).
    { unfold step_fn in Hs. destruct (crashed s); [discriminate|].
      destruct a as [|t e|t d| |j o].
      - inv_some Hs. exact Hlt.
      - destruct (clients s !! t) as [c|] eqn:Hl; [|discriminate].
        destruct V; run_cases Hs c; simpl; auto;
        match goal with
        | Hg : cond_signal _ _ = Some _ |- _ =>
            eapply cond_signal_frame in Hg as (_&_&_&_&_&_&_&_&Hst);
            [|exact Hl|congruence]; rewrite Hst; exact Hlt
        end.
      - destruct (clients s !! t) as [c|] eqn:Hl; [|discriminate].
        destruct V, d; copier_cases Hs; simpl; auto.
      - inv_some Hs. simpl. rewrite length_app. lia.
      - destruct (stats_conns s !! j) as [kj|]; [|discriminate].
        stats_cases Hs; simpl; rewrite length_insert; exact Hlt. }
    destruct (lookup_lt_is_Some_2 _ _ Hlt') as [k' Hk'].
    destruct (step_stats _ _ _ _ _ _ _ Hs Hk')
      as [Hsame | [(_ & Hlen & _) | (o & k0 & Heq & _)]].
    + congruence.
    + lia.
    + exfalso. exact (Hna o Heq).
  - intros a w. split; [apply stats_line_one_LF|].
    split; [|split; apply fmt_d_roundtrip].
    exists ("active: " ++ fmt_d a ++ ", waiting: " ++ fmt_d w)%string.
    unfold protocol_line. rewrite !string_app_assoc. reflexivity.
Qed.

Lemma stats_responder_witness :
  (exists a w,
     st_active (mkStats SDone (Some 2) (Some 1)
                  [IoWrite (protocol_line 2 1); IoClose]) = Some a /\
     st_waiting (mkStats SDone (Some 2) (Some 1)
                  [IoWrite (protocol_line 2 1); IoClose]) = Some w /\
     st_io (mkStats SDone (Some 2) (Some 1)
              [IoWrite (protocol_line 2 1); IoClose])
     = [IoWrite (protocol_line a w); IoClose]) /\
  (forall o, step_fn 2 Struct state_two_active_one_waiting (RunStats 0 o)
             = None).
Proof.
  apply (stats_responder 2 Struct state_two_active_one_waiting 0
           (mkStats SDone (Some 2) (Some 1)
              [IoWrite (protocol_line 2 1); IoClose])).
  - by_run sched_two_active_one_waiting.
  - reflexivity.
  - reflexivity.
Defined.



(** ** Further properties of the code *)

(** X1.  The mutex of [wCond] excludes: two sessions are never both
    between a [Lock] and its [Unlock] (or [Wait]).  And its holder is
    never blocked: whoever holds the mutex can run its next statement,
    so the mutex is always given back. *)
Theorem mutex_exclusive_and_holder_runs cap V s :
  reachable cap V s ->
  (forall t u c k, clients s !! t = Some c -> clients s !! u = Some k ->
     in_crit (c_pc c) = true -> in_crit (c_pc k) = true -> t = u) /\
  (forall t, wCond_L s = Some t -> crashed s = false ->
     forall e, is_Some (step_fn cap V s (Run t e))).
Proof.
  intros Hr. pose proof (reachable_lock_inv _ _ _ Hr) as [Hc Hh]. split.
  - intros t u c k Hl1 Hl2 H1 H2.
    pose proof (Hc _ _ Hl1 H1). pose proof (Hc _ _ Hl2 H2). congruence.
  - intros t Ht Hcr e. destruct (Hh t Ht) as (c & Hl & Hin).
    unfold step_fn. rewrite Hcr, Hl. destruct V.
    + pose proof (sock_closures_reachable _ _ _ _ Hr Hl) as Hs.
      unfold sock_closures in Hs. unfold proxy, pre, post.
      destruct (c_pc c); simpl in Hin; try discriminate; try contradiction;
        try (destruct (active s =? cap)); eauto.
    + unfold mind, setup, teardown.
      destruct (c_pc c); simpl in Hin; try discriminate;
        try (destruct (active s =? cap)); eauto.
Qed.

Lemma mutex_exclusive_and_holder_runs_witness :
  wCond_L state_two_waiting = Some 2%nat /\
  is_Some (step_fn 1 Closures state_two_waiting (Run 2 (connect 0))).
Proof.
  split; [reflexivity|].
  apply (mutex_exclusive_and_holder_runs 1 Closures state_two_waiting).
  - by_run sched_two_waiting.
  - reflexivity.
  - reflexivity.
Defined.

(** X2.  The purpose of the proxy: at any moment the number of open
    backend connections is at most the number of sessions between
    [active++] and [active--], which is the value of [active] and at most
    the capacity. *)
Theorem backend_connections_bounded cap V s :
  0 <= cap -> reachable cap V s -> bounded s ->
  backend_conns s <= Zcount holds_slot (clients s) /\
  Zcount holds_slot (clients s) = active s /\
  active s <= cap.
Proof.
  intros Hc Hr Hb.
  pose proof (reachable_gate_inv cap V s Hc Hr Hb) as Hinv.
  split; [|split].
  - apply count_open_le. intros t c. apply (open_holds_slot cap V s t c Hr).
  - symmetry. apply (gi_active _ _ Hinv).
  - apply (gi_cap _ _ Hinv).
Qed.

Lemma backend_connections_bounded_witness :
  backend_conns state_two_active_one_waiting
  <= Zcount holds_slot (clients state_two_active_one_waiting) /\
  Zcount holds_slot (clients state_two_active_one_waiting)
  = active state_two_active_one_waiting /\
  active state_two_active_one_waiting <= 2.
Proof.
  apply (backend_connections_bounded 2 Struct state_two_active_one_waiting).
  - lia.
  - by_run sched_two_active_one_waiting.
  - is_bounded.
Defined.

(** X3.  No wake-up is lost, although [Signal] comes after [Unlock]:
    whenever a caller is parked in [Wait] while a slot is free, some
    session still owes its [Signal], or some caller has been woken, is at
    the test of the loop or is about to take the slot. *)
Theorem no_lost_wakeup cap V s :
  0 <= cap -> reachable cap V s -> bounded s ->
  0 < Zcount parked (clients s) -> active s < cap ->
  0 < Zcount signal_owed (clients s) + Zcount on_the_way (clients s).
Proof.
  intros Hc Hr Hb Hp Hfree.
  pose proof (reachable_wake_inv cap V s Hc Hr Hb Hp). lia.
Qed.

Lemma no_lost_wakeup_witness :
  0 < Zcount signal_owed (clients state_before_signal)
      + Zcount on_the_way (clients state_before_signal).
Proof.
  apply (no_lost_wakeup 1 Closures state_before_signal).
  - lia.
  - by_run (sched_before_release ++ runs 3 0).
  - is_bounded.
  - reflexivity.
  - reflexivity.
Defined.

(** X4.  Slot accounting: [active] is the number of [active++] executed
    so far minus the number of [active--], and no session decrements
    before it has incremented, nor does either more than once. *)
Theorem slots_accounting cap V s t :
  0 <= cap -> reachable cap V s -> bounded s ->
  active s = Z.of_nat (count_kind is_acquire (trace s))
             - Z.of_nat (count_kind is_release (trace s)) /\
  (count_ev is_release t (trace s) <= count_ev is_acquire t (trace s) <= 1)%nat.
Proof.
  intros Hc Hr Hb. split.
  - apply (reachable_slots_balance cap V s Hc Hr Hb).
  - pose proof (reachable_ev_inv _ _ _ Hr) as [H1 H2 _ _ H5].
    destruct (clients s !! t) as [c|] eqn:Hl.
    + rewrite (H1 _ _ Hl), (H2 _ _ Hl). unfold exp_acq, exp_rel.
      destruct (c_pc c); simpl; lia.
    + assert (Hge : (length (clients s) <= t)%nat)
        by (apply lookup_ge_None; exact Hl).
      assert (Hf : Forall (fun ev => (ev_session ev < t)%nat) (trace s)).
      { eapply Forall_impl; [|exact H5]. simpl. intros; lia. }
      rewrite !count_ev_fresh by exact Hf. lia.
Qed.

Lemma slots_accounting_witness :
  active state_release_barged
  = Z.of_nat (count_kind is_acquire (trace state_release_barged))
    - Z.of_nat (count_kind is_release (trace state_release_barged)) /\
  (count_ev is_release 0 (trace state_release_barged)
   <= count_ev is_acquire 0 (trace state_release_barged) <= 1)%nat.
Proof.
  apply (slots_accounting 1 Closures state_release_barged 0).
  - lia.
  - by_run (sched_before_release ++ sched_release_barged).
  - is_bounded.
Defined.

(** X5.  [proxy] never panics: in no reachable state of the closure
    variant has the process crashed. *)
Theorem proxy_never_panics cap s :
  reachable cap Closures s -> crashed s = false.
Proof.
  intros Hr. induction Hr as [|s s' Hr IH [a Ha]]; [reflexivity|].
  eapply closures_step_safe; eauto.
Qed.

Lemma proxy_never_panics_witness :
  crashed state_closures_dial_failed = false.
Proof.
  apply (proxy_never_panics 2 state_closures_dial_failed).
  by_run sched_closures_dial_failed.
Defined.

(** X6.  [client.mind] panics in one situation only: when the process of
    the struct variant has crashed, some session is at [c.server.Close()]
    in [teardown] with a nil [c.server] and the error of its failed
    dial. *)
Theorem struct_panics_only_on_nil_close cap s :
  reachable cap Struct s -> crashed s = true ->
  exists t c m, clients s !! t = Some c /\ c_pc c = TdCloseServer /\
                c_server c = SockNil /\ c_err c = Some m.
Proof.
  intros Hr. induction Hr as [|s s' Hr IH [a Ha]]; intros Hc.
  - discriminate.
  - destruct (crashed s) eqn:Hcs.
    + unfold step_fn in Ha. rewrite Hcs in Ha. discriminate.
    + destruct (struct_step_panic _ _ _ _ Hr Hcs Ha Hc)
        as (t & e & c & m & _ & -> & Hl & Hp & Hs & He).
      exists t, c, m. auto.
Qed.

Lemma struct_panics_only_on_nil_close_witness :
  exists t c m, clients state_struct_dial_failed !! t = Some c /\
                c_pc c = TdCloseServer /\
                c_server c = SockNil /\ c_err c = Some m.
Proof.
  apply (struct_panics_only_on_nil_close 2 state_struct_dial_failed).
  - by_run sched_struct_dial_failed.
  - reflexivity.
Defined.

(** X7.  Sockets are closed once: a [Close] of the client socket always
    finds it open, a [Close] of the backend socket finds it open or, in
    [teardown] after a failed dial, nil; and a session that has returned
    has closed its client socket and left no backend socket open. *)
Theorem sockets_closed_once cap V s t c :
  reachable cap V s -> clients s !! t = Some c ->
  (c_pc c = DeferCloseConn \/ c_pc c = TdCloseConn -> c_conn c = SockOpen) /\
  (c_pc c = DeferCloseServer -> c_server c = SockOpen) /\
  (c_pc c = TdCloseServer ->
     c_server c = SockOpen \/
     (c_server c = SockNil /\ exists m, c_err c = Some m)) /\
  (c_pc c = Done -> c_conn c = SockClosed /\ c_server c <> SockOpen) /\
  (c_server c = SockOpen -> c_err c = None).
Proof.
  intros Hr Hl. destruct V.
  - pose proof (sock_closures_reachable _ _ _ _ Hr Hl) as Hs.
    unfold sock_closures, outcome_closures in Hs.
    destruct (c_pc c); try contradiction;
      repeat split; intros; try discriminate;
      try solve [intuition (try discriminate; try congruence)].
  - pose proof (sock_struct_reachable _ _ _ _ Hr Hl) as Hs.
    unfold sock_struct, outcome_struct in Hs.
    destruct (c_pc c); try contradiction;
      repeat split; intros; try discriminate;
      try solve [intuition (try discriminate; try congruence)].
Qed.

Lemma sockets_closed_once_witness :
  c_conn (client_at state_struct_success 0) = SockClosed /\
  c_server (client_at state_struct_success 0) <> SockOpen.
Proof.
  apply (sockets_closed_once 1 Struct state_struct_success 0
           (client_at state_struct_success 0)).
  - by_run sched_struct_success.
  - reflexivity.
  - reflexivity.
Defined.

(** X8.  The session numbers of [client]: [count] is the number of
    sessions that have run [count++; c.ID = count], every such session
    has a number between 1 and [count], and two different sessions never
    have the same number. *)
Theorem session_numbers_unique cap s t u c k :
  reachable cap Struct s -> bounded s ->
  clients s !! t = Some c -> clients s !! u = Some k ->
  has_id (c_pc c) = true -> has_id (c_pc k) = true ->
  (c_ID c = c_ID k -> t = u) /\
  1 <= c_ID c <= count s /\
  count s = Zcount has_id (clients s).
Proof.
  intros Hr Hb Hl1 Hl2 H1 H2.
  pose proof (reachable_id_inv _ _ Hr Hb) as [Hn Hrg Hu].
  split; [|split].
  - apply (Hu t u c k); assumption.
  - apply (Hrg t c); assumption.
  - exact Hn.
Qed.

Lemma session_numbers_unique_witness :
  (c_ID (client_at state_two_active_one_waiting 0)
   = c_ID (client_at state_two_active_one_waiting 2) -> 0%nat = 2%nat) /\
  1 <= c_ID (client_at state_two_active_one_waiting 0)
    <= count state_two_active_one_waiting /\
  count state_two_active_one_waiting
  = Zcount has_id (clients state_two_active_one_waiting).
Proof.
  apply (session_numbers_unique 2 state_two_active_one_waiting 0 2
           (client_at state_two_active_one_waiting 0)
           (client_at state_two_active_one_waiting 2)).
  - by_run sched_two_active_one_waiting.
  - is_bounded.
  - reflexivity.
  - reflexivity.
  - reflexivity.
  - reflexivity.
Defined.

(** X9.  The outcome line tells the truth: a [status=error] line of a
    session carries the error of its dial, whose backend socket was never
    opened; a [status=success] line is written only by a session whose
    dial succeeded and whose pump has recorded its end. *)
Theorem logged_outcome_matches_dial cap V s t :
  reachable cap V s ->
  (forall m, In (EvLog t (LError m)) (trace s) ->
     exists c, clients s !! t = Some c /\ c_err c = Some m
               /\ c_server c = SockNil /\ c_done c = false) /\
  (In (EvLog t LSuccess) (trace s) ->
     exists c, clients s !! t = Some c /\ c_err c = None
               /\ c_server c <> SockNil /\ c_done c = true).
Proof.
  intros Hr. pose proof (reachable_log_inv _ _ _ Hr) as Hinv.
  unfold log_inv in Hinv. rewrite List.Forall_forall in Hinv.
  assert (Hsock : forall c, clients s !! t = Some c ->
            ((exists m, c_err c = Some m) ->
               c_server c = SockNil /\ c_done c = false) /\
            (c_done c = true -> c_server c <> SockNil)).
  { intros c Hl. destruct V.
    - pose proof (sock_closures_reachable _ _ _ _ Hr Hl) as Hs.
      unfold sock_closures, outcome_closures in Hs.
      destruct (c_pc c); try contradiction;
        (split; [intros [m Hm] | intros Hd]);
        repeat match goal with
        | Hx : _ /\ _ |- _ => destruct Hx
        | Hx : _ \/ _ |- _ => destruct Hx
        | Hx : exists _, _ |- _ => destruct Hx
        end;
        try congruence; split; congruence.
    - pose proof (sock_struct_reachable _ _ _ _ Hr Hl) as Hs.
      unfold sock_struct, outcome_struct in Hs.
      destruct (c_pc c); try contradiction;
        (split; [intros [m Hm] | intros Hd]);
        repeat match goal with
        | Hx : _ /\ _ |- _ => destruct Hx
        | Hx : _ \/ _ |- _ => destruct Hx
        | Hx : exists _, _ |- _ => destruct Hx
        end;
        try congruence; split; congruence. }
  split.
  - intros m Hin. specialize (Hinv _ Hin). simpl in Hinv.
    unfold client_at in Hinv.
    destruct (clients s !! t) as [c|] eqn:Hl; [|discriminate].
    exists c. destruct (Hsock c eq_refl) as [Hs1 _].
    destruct Hs1 as [? ?]; eauto.
  - intros Hin. specialize (Hinv _ Hin). simpl in Hinv.
    unfold client_at in Hinv.
    destruct (clients s !! t) as [c|] eqn:Hl;
      [|destruct Hinv; discriminate].
    exists c. destruct Hinv as [He Hd].
    destruct (Hsock c eq_refl) as [_ Hs2]. auto.
Qed.

Lemma logged_outcome_matches_dial_witness :
  exists c, clients state_closures_dial_failed !! 0%nat = Some c /\
    c_err c
    = Some "dial tcp 127.0.0.1:8300: connect: connection refused"%string
    /\ c_server c = SockNil /\ c_done c = false.
Proof.
  apply (logged_outcome_matches_dial 2 Closures state_closures_dial_failed 0).
  - by_run sched_closures_dial_failed.
  - simpl. auto 10.
Defined.

Lemma started_struct_reachable cap s t c :
  reachable cap Struct s -> clients s !! t = Some c -> started_struct c.
Proof.
  intros Hr Hl.
  eapply (client_inv_reachable cap Struct started_struct);
    [ | | exact Hr | exact Hl]; clear.
  - unfold started_struct. simpl. auto.
  - intros s a s' t c' H Hall Hl'.
    remember Struct as V eqn:HV.
    client_step_cases H Hall Hl'; try discriminate HV.
    all: pump_prep started_struct.
    all: try match goal with
      | HP : context [match c_pc ?c with _ => _ end] |- _ => destruct (c_pc c)
      end.
    all: simpl in *; try solve [intuition congruence].
Qed.

(** X10.  [proxy] leaves no copy goroutine behind: when its goroutine
    has returned, both copy goroutines have exited, or the dial failed
    and they were never started.  [client.mind] always leaves one behind:
    when it has returned, one of the two copy goroutines has been started
    and has not exited. *)
Theorem copy_goroutines_at_return cap s t c :
  clients s !! t = Some c -> c_pc c = Done ->
  (reachable cap Closures s ->
     (c_to c = CExited /\ c_from c = CExited) \/
     (c_to c = CNotStarted /\ c_from c = CNotStarted /\ c_err c <> None)) /\
  (reachable cap Struct s ->
     exists d, get_cp d c <> CExited /\ get_cp d c <> CNotStarted).
Proof.
  intros Hl Hpc. split; intros Hr.
  - pose proof (pump_closures_reachable _ _ _ _ Hr Hl) as Hp.
    pose proof (sock_closures_reachable _ _ _ _ Hr Hl) as Hs.
    unfold pump_closures in Hp. unfold sock_closures, outcome_closures in Hs.
    rewrite Hpc in Hp, Hs.
    destruct Hp as [Hp | (H1 & H2 & H3)]; [left; exact Hp|].
    right. split; [exact H1|]. split; [exact H2|].
    destruct Hs as (_ & [(_ & _ & Hd) | (_ & (m & Hm) & _)]); congruence.
  - pose proof (pump_struct_reachable _ _ _ _ Hr Hl) as Hp.
    pose proof (sock_struct_reachable _ _ _ _ Hr Hl) as Hs.
    pose proof (started_struct_reachable _ _ _ _ Hr Hl) as Hst.
    unfold pump_struct in Hp. unfold sock_struct in Hs.
    unfold started_struct in Hst.
    rewrite Hpc in Hp, Hs, Hst.
    destruct Hs as (_ & _ & He & _). destruct (Hst He) as [H1 H2].
    destruct (c_to c) eqn:Hto;
      try (exists ToServer; simpl; rewrite Hto; split; discriminate).
    + contradiction.
    + exists FromServer. simpl. split; [|exact H2].
      intros Hfrom. apply Hp. auto.
Qed.

Lemma copy_goroutines_at_return_witness :
  exists d, get_cp d (client_at state_struct_success 0) <> CExited /\
            get_cp d (client_at state_struct_success 0) <> CNotStarted.
Proof.
  apply (copy_goroutines_at_return 1 state_struct_success 0
           (client_at state_struct_success 0) eq_refl eq_refl).
  by_run sched_struct_success.
Defined.

(** X11.  What the stats responder reports respects the gate: the line of
    every stats connection carries an [active] between zero and the
    capacity and a [waiting] that is not negative, although the two
    numbers are loaded one after the other and without the lock. *)
Theorem stats_reports_within_capacity cap V s j k :
  0 <= cap -> reachable cap V s -> bounded s ->
  stats_conns s !! j = Some k -> st_io k <> [] ->
  exists a w, 0 <= a <= cap /\ 0 <= w /\
    (st_io k = [IoWrite (protocol_line a w)] \/
     st_io k = [IoWrite (protocol_line a w); IoClose]).
Proof.
  intros Hc Hr Hb Hj Hne.
  pose proof (reachable_stats_inv _ _ _ Hr _ _ Hj) as Hinv.
  pose proof (reachable_loaded _ _ _ Hr _ _ Hj) as [HA HW].
  assert (Hbounds : forall a w, st_active k = Some a -> st_waiting k = Some w ->
                      0 <= a <= cap /\ 0 <= w).
  { intros a w Ha Hw.
    destruct (HA _ Ha) as (s1 & R1 & E1 & _ & <-).
    destruct (HW _ Hw) as (s2 & R2 & E2 & _ & <-).
    pose proof (gate_bounds cap V s1 Hc R1 (earlier_bounded _ _ _ _ E1 Hb)).
    pose proof (gate_bounds cap V s2 Hc R2 (earlier_bounded _ _ _ _ E2 Hb)).
    lia. }
  unfold stats_inv in Hinv. destruct (st_pc k).
  - destruct Hinv as (Hio & _). contradiction.
  - destruct Hinv as (Hio & _). contradiction.
  - destruct Hinv as (a & w & Ha & Hw & Hio).
    destruct (Hbounds a w Ha Hw) as (B1 & B2).
    exists a, w. split; [exact B1|]. split; [exact B2|]. left. exact Hio.
  - destruct Hinv as (a & w & Ha & Hw & Hio).
    destruct (Hbounds a w Ha Hw) as (B1 & B2).
    exists a, w. split; [exact B1|]. split; [exact B2|]. right. exact Hio.
Qed.

Lemma stats_reports_within_capacity_witness :
  exists a w, 0 <= a <= 1 /\ 0 <= w /\
    (st_io (mkStats SDone (Some 1) (Some 1)
              [IoWrite (protocol_line 1 1); IoClose])
     = [IoWrite (protocol_line a w)] \/
     st_io (mkStats SDone (Some 1) (Some 1)
              [IoWrite (protocol_line 1 1); IoClose])
     = [IoWrite (protocol_line a w); IoClose]).
Proof.
  apply (stats_reports_within_capacity 1 Closures state_stats_mixed 0).
  - lia.
  - by_run sched_stats_mixed.
  - is_bounded.
  - reflexivity.
  - discriminate.
Defined.
